(** * A shallow embedding of the rules engine (dist/rules-engine.js)

    The engine classes [StateCache], [RegexCache], [ThresholdTracker] and
    [RulesEngine] are embedded as functions over an explicit world: the
    engine's maps, and a heap holding the conversation-state objects, their
    flag maps and their flag histories, so that object identity and
    copy-on-write are visible.

    Conventions.
    - JS numbers that the engine uses as integers (timestamps, counters,
      thresholds, windows, priorities) are [Z]; similarities are [Q].
    - JS strings are [string]; case folding is the ASCII one.
    - The object [state.flags], used as a map from flag names to booleans,
      is a [gmap]; the key [__proto__], which JS objects treat specially, is
      not modelled.
    - [Date.now()] is read once per [evaluate] call and passed as [now]:
      a call is instantaneous, so the field evalTimeMs (always the
      difference of two clock reads) is left out of the results.
    - Calls of [evaluate] run one after the other: the interleaving of
      asynchronous calls at their await points is not modelled.
    - The external collaborators (regex engine, semantic matcher, state
      provider, number formatting) are section variables; they return and do
      not throw.
    - Rule fields the engine never reads (name, description, category,
      enforcementMode, advisoryMessage) are left out. *)

From stdpp Require Import base option list gmap strings.
From Stdlib Require Import Ascii ZArith QArith Lia DecimalString.

Open Scope string_scope.
Open Scope list_scope.
Open Scope Z_scope.

(** ** Strings *)

Definition toLowerCase_ascii (c : ascii) : ascii :=
  let n := nat_of_ascii c in
  if ((65 <=? n)%nat && (n <=? 90)%nat)%bool then ascii_of_nat (n + 32) else c.

Fixpoint toLowerCase (s : string) : string :=
  match s with
  | EmptyString => EmptyString
  | String c s' => String (toLowerCase_ascii c) (toLowerCase s')
  end.

(** [String.prototype.includes]: [sub] occurs somewhere in [s]. *)
Fixpoint includes (s sub : string) : bool :=
  String.prefix sub s ||
  match s with
  | EmptyString => false
  | String _ s' => includes s' sub
  end.

(** [Array.prototype.join]. *)
Definition join (sep : string) (l : list string) : string := String.concat sep l.

(** Template-literal rendering of an integer. *)
Definition show_Z (z : Z) : string := NilZero.string_of_int (Z.to_int z).

(** JS truthiness of an object or array that may be undefined. *)
Definition present {A} (o : option A) : bool :=
  match o with
  | Some _ => true
  | None => false
  end.

(** JS truthiness of a string that may be undefined. *)
Definition truthy_str (o : option string) : bool :=
  match o with
  | Some (String _ _) => true
  | _ => false
  end.

(** JS truthiness of a number that may be undefined. *)
Definition truthy_num (o : option Z) : bool :=
  match o with
  | Some z => negb (z =? 0)
  | None => false
  end.

(** [Array.prototype.sort] with the comparator [(a, b) => key(a) - key(b)]:
    the stable sort by [key], here by insertion from the right. *)
Section StableSort.
Context {A : Type} (key : A → Z).

Fixpoint sort_insert (x : A) (l : list A) : list A :=
  match l with
  | [] => [x]
  | y :: ys => if key x <=? key y then x :: y :: ys else y :: sort_insert x ys
  end.

Definition sort_by (l : list A) : list A := foldr sort_insert [] l.

Fixpoint nondecreasing (l : list A) : Prop :=
  match l with
  | [] => True
  | x :: xs => Forall (λ y, key x <= key y) xs ∧ nondecreasing xs
  end.
End StableSort.

(** ** Types (types.d.ts) *)

Inductive RuleAction := allow | block | flag | alert | sanitize | set_flag | pass.
Inductive RuleSeverity := low | medium | high | critical.

Global Instance RuleAction_eq_dec : EqDecision RuleAction.
Proof. solve_decision. Defined.
Global Instance RuleSeverity_eq_dec : EqDecision RuleSeverity.
Proof. solve_decision. Defined.

Record RuleFlags := {
  f_set : option (list string);
  f_unset : option (list string);
  f_check : option (list string);
  f_ttl : option Z
}.

Record Rule := {
  r_id : string;
  r_content : option (list string);
  r_pcre : option (list string);
  r_semantic : option (list string);
  r_semanticThreshold : option Q;
  r_flags : option RuleFlags;
  r_threshold : option Z;
  r_window : option Z;
  r_severity : RuleSeverity;
  r_action : RuleAction;
  r_enabled : bool;
  r_nocase : option bool
}.

(** ** Rule set: getRulePriority and loadRules *)

(** The table [actionPriority]; actions outside it look up [undefined]. *)
Definition actionPriority (a : RuleAction) : option Z :=
  match a with
  | pass => Some 0
  | set_flag => Some 1
  | flag => Some 2
  | alert => Some 3
  | block => Some 4
  | allow | sanitize => None
  end.

(** [actionPriority[rule.action] || 5]: [||] takes the default for every
    falsy left operand, [undefined] and the number 0 alike. *)
Definition actionValue (a : RuleAction) : Z :=
  if truthy_num (actionPriority a) then default 5 (actionPriority a) else 5.

(** An optional array or object is truthy as soon as it is present, even
    when empty. *)
Definition typeCost (r : Rule) : Z :=
  (if present (r_content r) then 1 else 0) +
  (if present (r_pcre r) then 2 else 0) +
  (if present (r_semantic r) then 3 else 0) +
  (if present (r_flags r) then 4 else 0).

Definition getRulePriority (r : Rule) : Z := actionValue (r_action r) * 10 + typeCost r.

Definition loadRules (rules : list Rule) : list Rule :=
  sort_by getRulePriority (List.filter r_enabled rules).

(** [getRuleCount], on the loaded list. *)
Definition getRuleCount (loaded : list Rule) : nat := length loaded.

(** The priority key as the specification words it. *)
Definition spec_action_weight (a : RuleAction) : Z :=
  match a with
  | pass => 0
  | set_flag => 1
  | flag => 2
  | alert => 3
  | block => 4
  | _ => 5
  end.

Definition spec_priority (r : Rule) : Z := spec_action_weight (r_action r) * 10 + typeCost r.

(** ** Conversation state and the heap *)

Inductive FlagAction := act_set | act_unset.

Record FlagHistoryEntry := {
  fh_flag : string;
  fh_action : FlagAction;
  fh_ruleId : string;
  fh_timestamp : Z
}.

(** A conversation-state object. Its [flags] and [flagHistory] fields hold
    references to a flag map and to a history array on the heap. *)
Record ConversationState := {
  cs_id : string;
  cs_tokenId : string;
  cs_conversationId : string;
  cs_accountId : option string;
  cs_flags : nat;
  cs_flagHistory : nat;
  cs_expiresAt : Z;
  cs_createdAt : Z;
  cs_updatedAt : Z
}.

(** The heap: three arrays of objects, a reference is an index, allocation
    appends. *)
Record Heap := {
  h_states : list ConversationState;
  h_flags : list (gmap string bool);
  h_history : list (list FlagHistoryEntry)
}.

Definition empty_heap : Heap := {| h_states := []; h_flags := []; h_history := [] |}.

Definition alloc_flags (m : gmap string bool) (h : Heap) : nat * Heap :=
  (length (h_flags h),
   {| h_states := h_states h; h_flags := h_flags h ++ [m]; h_history := h_history h |}).

Definition alloc_history (l : list FlagHistoryEntry) (h : Heap) : nat * Heap :=
  (length (h_history h),
   {| h_states := h_states h; h_flags := h_flags h; h_history := h_history h ++ [l] |}).

Definition alloc_state (s : ConversationState) (h : Heap) : nat * Heap :=
  (length (h_states h),
   {| h_states := h_states h ++ [s]; h_flags := h_flags h; h_history := h_history h |}).

(** [flags[flag] = b] on the flag map at reference [l]. *)
Definition write_flag (l : nat) (fl : string) (b : bool) (h : Heap) : Heap :=
  {| h_states := h_states h;
     h_flags := alter (λ m, <[fl := b]> m) l (h_flags h);
     h_history := h_history h |}.

(** [flagHistory.push(e)] on the array at reference [l]. *)
Definition push_history (l : nat) (e : FlagHistoryEntry) (h : Heap) : Heap :=
  {| h_states := h_states h;
     h_flags := h_flags h;
     h_history := alter (λ es, es ++ [e]) l (h_history h) |}.

(** Reading through references. *)
Definition flags_at (h : Heap) (l : nat) : gmap string bool := default ∅ (h_flags h !! l).
Definition history_at (h : Heap) (l : nat) : list FlagHistoryEntry := default [] (h_history h !! l).

(** The flag map of the state object at reference [st] ([state.flags]). *)
Definition state_flags (h : Heap) (st : nat) : gmap string bool :=
  match h_states h !! st with
  | Some s => flags_at h (cs_flags s)
  | None => ∅
  end.

Definition state_history (h : Heap) (st : nat) : list FlagHistoryEntry :=
  match h_states h !! st with
  | Some s => history_at h (cs_flagHistory s)
  | None => []
  end.

(** A reference to a state object whose two inner references are allocated
    too. *)
Definition valid_state (h : Heap) (st : nat) : Prop :=
  ∃ s, h_states h !! st = Some s ∧
       (cs_flags s < length (h_flags h))%nat ∧
       (cs_flagHistory s < length (h_history h))%nat.

(** Everything reachable from the state object at [st]: the object itself,
    its flag map and its history. *)
Definition snapshot (h : Heap) (st : nat)
    : option (ConversationState * gmap string bool * list FlagHistoryEntry) :=
  s ← h_states h !! st;
  m ← h_flags h !! cs_flags s;
  es ← h_history h !! cs_flagHistory s;
  Some (s, m, es).

(** [h'] has every object of [h], unchanged. *)
Definition heap_extends (h h' : Heap) : Prop :=
  h_states h `prefix_of` h_states h' ∧
  h_flags h `prefix_of` h_flags h' ∧
  h_history h `prefix_of` h_history h'.

(** ** JS [Map] with string keys, where insertion order is observable *)

Fixpoint amap_get {V} (k : string) (l : list (string * V)) : option V :=
  match l with
  | [] => None
  | (k', v) :: l' => if decide (k = k') then Some v else amap_get k l'
  end.

Fixpoint amap_set {V} (k : string) (v : V) (l : list (string * V)) : list (string * V) :=
  match l with
  | [] => [(k, v)]
  | (k', v') :: l' => if decide (k = k') then (k, v) :: l' else (k', v') :: amap_set k v l'
  end.

Fixpoint amap_delete {V} (k : string) (l : list (string * V)) : list (string * V) :=
  match l with
  | [] => []
  | (k', v') :: l' => if decide (k = k') then amap_delete k l' else (k', v') :: amap_delete k l'
  end.

(** The key both [StateCache.getKey] and [ThresholdTracker.getKey] build:
    [`${tokenId}:${conversationId}:${accountId || ''}`]. *)
Definition getKey (tokenId conversationId : string) (accountId : option string) : string :=
  tokenId +:+ ":" +:+ conversationId +:+ ":" +:+ default "" accountId.

(** ** StateCache *)

Module StateCache.

Record entry := {
  state : nat;
  lastAccess : Z;
  dirty : bool
}.

Record t := {
  cache : list (string * entry);
  writeQueue : gset string;
  writeBatchTimer : bool
}.

Definition maxSize : Z := 10000.
Definition ttl : Z := 300000.

Definition empty : t := {| cache := []; writeQueue := ∅; writeBatchTimer := false |}.

Definition get (now : Z) (tokenId conversationId : string) (accountId : option string)
    (sc : t) : t * option nat :=
  let key := getKey tokenId conversationId accountId in
  match amap_get key (cache sc) with
  | Some cached =>
      if now - lastAccess cached <? ttl then
        ({| cache := amap_set key {| state := state cached; lastAccess := now;
                                     dirty := dirty cached |} (cache sc);
            writeQueue := writeQueue sc;
            writeBatchTimer := writeBatchTimer sc |},
         Some (state cached))
      else (sc, None)
  | None => (sc, None)
  end.

(** The entry [set] evicts: the head of the entries stably sorted by
    [lastAccess]. *)
Definition oldest (c : list (string * entry)) : option (string * entry) :=
  head (sort_by (λ e, lastAccess e.2) c).

Definition set (now : Z) (tokenId conversationId : string) (st : nat)
    (accountId : option string) (sc : t) : t :=
  let key := getKey tokenId conversationId accountId in
  let c :=
    if Z.of_nat (length (cache sc)) >=? maxSize then
      match oldest (cache sc) with
      | Some o => amap_delete o.1 (cache sc)
      | None => cache sc
      end
    else cache sc in
  {| cache := amap_set key {| state := st; lastAccess := now; dirty := false |} c;
     writeQueue := writeQueue sc;
     writeBatchTimer := writeBatchTimer sc |}.

(** [scheduleBatchWrite] arms the timer unless it is armed already. *)
Definition markDirty (tokenId conversationId : string) (accountId : option string)
    (sc : t) : t :=
  let key := getKey tokenId conversationId accountId in
  match amap_get key (cache sc) with
  | Some cached =>
      {| cache := amap_set key {| state := state cached; lastAccess := lastAccess cached;
                                  dirty := true |} (cache sc);
         writeQueue := {[key]} ∪ writeQueue sc;
         writeBatchTimer := true |}
  | None => sc
  end.

Definition flushWrites (sc : t) : t :=
  {| cache := cache sc; writeQueue := ∅; writeBatchTimer := writeBatchTimer sc |}.

(** The timer callback, 100 ms after it was armed. *)
Definition timer_fires (sc : t) : t :=
  {| cache := cache sc; writeQueue := ∅; writeBatchTimer := false |}.

Definition clear (sc : t) : t :=
  {| cache := []; writeQueue := ∅; writeBatchTimer := writeBatchTimer sc |}.

End StateCache.

(** ** ThresholdTracker *)

Module ThresholdTracker.

Record entry := {
  count : Z;
  firstMatch : Z;
  windowEnd : Z
}.

Abbreviation t := (gmap string (gmap string entry)).

Definition check (now : Z) (rule : Rule) (tokenId conversationId : string)
    (accountId : option string) (trackers : t) : t * bool :=
  if negb (truthy_num (r_threshold rule)) || negb (truthy_num (r_window rule)) then
    (trackers, true)
  else
    let threshold := default 0 (r_threshold rule) in
    let window := default 0 (r_window rule) in
    let key := getKey tokenId conversationId accountId in
    let conversationTrackers := default ∅ (trackers !! key) in
    let fresh := {| count := 1; firstMatch := now; windowEnd := now + window * 1000 |} in
    match conversationTrackers !! r_id rule with
    | Some e =>
        if now >? windowEnd e then
          (<[key := <[r_id rule := fresh]> conversationTrackers]> trackers,
           bool_decide (threshold = 1))
        else
          let e' := {| count := count e + 1; firstMatch := firstMatch e;
                       windowEnd := windowEnd e |} in
          if count e' >=? threshold then
            (<[key := delete (r_id rule) conversationTrackers]> trackers, true)
          else
            (<[key := <[r_id rule := e']> conversationTrackers]> trackers, false)
    | None =>
        (<[key := <[r_id rule := fresh]> conversationTrackers]> trackers,
         bool_decide (threshold = 1))
    end.

Definition clear (trackers : t) : t := ∅.

End ThresholdTracker.

(** ** Evaluation contexts, results, completions *)

Record EvaluationContext := {
  c_tokenId : string;
  c_conversationId : string;
  c_accountId : option string;
  c_message : string;
  c_state : option nat
}.

Record EvaluationResult := {
  matched : bool;
  rule : option Rule;
  action : option RuleAction;
  res_state : option nat;
  reason : option string;
  similarity : option Q;
  matchedPattern : option string
}.

Record SemanticMatch := {
  sm_rule : Rule;
  sm_similarity : Q
}.

(** What a state provider hands over: a state object with the flag map and
    the history it refers to. *)
Definition StateImage : Type := ConversationState * gmap string bool * list FlagHistoryEntry.

Inductive exn := SyntaxError (pattern : string).

(** How a call ends: it returns a value or throws. *)
Inductive completion (A : Type) :=
  | Normal (a : A)
  | Threw (e : exn).
Arguments Normal {A} a.
Arguments Threw {A} e.

(** How one iteration of the rule loop ends. *)
Inductive control := Next | Break | Raise (e : exn).

(** The local variables [matched], [matchedPattern], [similarity] of one
    iteration. *)
Record Locals := {
  l_matched : bool;
  l_matchedPattern : option string;
  l_similarity : option Q
}.

(** The object a dangling state reference would read; JS has no such
    reference. *)
Definition no_object : ConversationState :=
  {| cs_id := ""; cs_tokenId := ""; cs_conversationId := ""; cs_accountId := None;
     cs_flags := 0; cs_flagHistory := 0; cs_expiresAt := 0; cs_createdAt := 0;
     cs_updatedAt := 0 |}.

(** [rule.nocase !== false] *)
Definition nocase (r : Rule) : bool := negb (bool_decide (r_nocase r = Some false)).

(** [rule.nocase !== false ? 'gi' : 'g'] *)
Definition regex_flags (r : Rule) : string := if nocase r then "gi" else "g".

(** [rule.semanticThreshold || 0.85] *)
Definition semanticThreshold (r : Rule) : Q :=
  match r_semanticThreshold r with
  | Some q => if Qeq_bool q 0 then 85 # 100 else q
  | None => 85 # 100
  end.

(** [rule.flags.ttl || 86400] *)
Definition flags_ttl (fl : RuleFlags) : Z :=
  if truthy_num (f_ttl fl) then default 0 (f_ttl fl) else 86400.

(** ** The engine *)

Section Engine.

(** The regex engine: [RegExp_new pattern flags] is [None] when
    [new RegExp(pattern, flags)] throws a SyntaxError; [regex_exec] is
    [exec] from [lastIndex = 0], giving [match[0]] or [None] for null. *)
Variable Regex : Type.
Variable RegExp_new : string → string → option Regex.
Variable regex_exec : Regex → string → option string.

(** The collaborators passed to the constructor, both optional. *)
Variable semanticMatcher : option (string → Q → list SemanticMatch).
Variable stateProvider : option (string → string → option string → option StateImage).

(** [(similarity * 100).toFixed(1)] *)
Variable toFixed1 : Q → string.

Record World := {
  rules : list Rule;
  stateCache : StateCache.t;
  regexCache : gmap string Regex;
  thresholdTracker : ThresholdTracker.t;
  heap : Heap;
  saved : list nat
}.

Definition with_stateCache (sc : StateCache.t) (w : World) : World :=
  {| rules := rules w; stateCache := sc; regexCache := regexCache w;
     thresholdTracker := thresholdTracker w; heap := heap w; saved := saved w |}.

Definition with_regexCache (c : gmap string Regex) (w : World) : World :=
  {| rules := rules w; stateCache := stateCache w; regexCache := c;
     thresholdTracker := thresholdTracker w; heap := heap w; saved := saved w |}.

Definition with_thresholdTracker (t : ThresholdTracker.t) (w : World) : World :=
  {| rules := rules w; stateCache := stateCache w; regexCache := regexCache w;
     thresholdTracker := t; heap := heap w; saved := saved w |}.

Definition with_heap (h : Heap) (w : World) : World :=
  {| rules := rules w; stateCache := stateCache w; regexCache := regexCache w;
     thresholdTracker := thresholdTracker w; heap := h; saved := saved w |}.

Definition with_saved (l : list nat) (w : World) : World :=
  {| rules := rules w; stateCache := stateCache w; regexCache := regexCache w;
     thresholdTracker := thresholdTracker w; heap := heap w; saved := l |}.

(** [new RulesEngine(options)] followed by [loadRules(rs)]. *)
Definition new_engine (rs : list Rule) : World :=
  {| rules := loadRules rs; stateCache := StateCache.empty; regexCache := ∅;
     thresholdTracker := ∅; heap := empty_heap; saved := [] |}.

(** *** RegexCache *)

Definition regex_key (pattern flags : string) : string := pattern +:+ ":" +:+ flags.

(** [RegexCache.get]; [None] when the constructor throws, and then the
    cache is as before. *)
Definition regexCache_get (pattern flags : string) (c : gmap string Regex)
    : option (gmap string Regex * Regex) :=
  match c !! regex_key pattern flags with
  | Some regex => Some (c, regex)
  | None =>
      match RegExp_new pattern flags with
      | Some regex => Some (<[regex_key pattern flags := regex]> c, regex)
      | None => None
      end
  end.

(** *** The three stages *)

(** Stage 1; [None] is the [continue]. *)
Definition content_stage (r : Rule) (message : string) (v : Locals) : option Locals :=
  match r_content r with
  | Some ((_ :: _) as content) =>
      let searchContent := if nocase r then toLowerCase message else message in
      let allKeywordsFound :=
        forallb (λ keyword,
          let searchKeyword := if nocase r then toLowerCase keyword else keyword in
          includes searchContent searchKeyword) content in
      if allKeywordsFound then
        Some {| l_matched := true; l_matchedPattern := Some (join ", " content);
                l_similarity := l_similarity v |}
      else None
  | _ => Some v
  end.

(** [rule.pcre.every(...)]: patterns in order, stopping at the first that
    does not match; the callback may write [matchedPattern]. *)
Fixpoint pcre_every (flags message : string) (patterns : list string)
    (c : gmap string Regex) (mp : option string)
    : gmap string Regex * completion (bool * option string) :=
  match patterns with
  | [] => (c, Normal (true, mp))
  | pattern :: rest =>
      match regexCache_get pattern flags c with
      | None => (c, Threw (SyntaxError pattern))
      | Some (c', regex) =>
          let m := regex_exec regex message in
          let mp' := if present m && negb (truthy_str mp) then m else mp in
          if present m then pcre_every flags message rest c' mp'
          else (c', Normal (false, mp'))
      end
  end.

(** Stage 2; [Normal None] is the [continue]. *)
Definition pcre_stage (r : Rule) (message : string) (c : gmap string Regex) (v : Locals)
    : gmap string Regex * completion (option Locals) :=
  match r_pcre r with
  | Some ((_ :: _) as patterns) =>
      let flags := regex_flags r in
      match pcre_every flags message patterns c (l_matchedPattern v) with
      | (c', Threw e) => (c', Threw e)
      | (c', Normal (allPatternsMatch, mp)) =>
          if allPatternsMatch then
            (c', Normal (Some {| l_matched := true; l_matchedPattern := mp;
                                 l_similarity := l_similarity v |}))
          else (c', Normal None)
      end
  | _ => (c, Normal (Some v))
  end.

(** Stage 3; [None] is the [continue]. *)
Definition semantic_stage (r : Rule) (message : string) (v : Locals) : option Locals :=
  match r_semantic r, semanticMatcher with
  | Some (_ :: _), Some queryRules =>
      let threshold := semanticThreshold r in
      let semanticMatches := queryRules message threshold in
      match List.find (λ m, bool_decide (r_id (sm_rule m) = r_id r)) semanticMatches with
      | Some semanticMatch =>
          Some {| l_matched := true;
                  l_matchedPattern :=
                    Some ("semantic match (" +:+
                          toFixed1 (sm_similarity semanticMatch * 100)%Q +:+ "%)");
                  l_similarity := Some (sm_similarity semanticMatch) |}
      | None => if l_matched v then Some v else None
      end
  | _, _ => Some v
  end.

(** Stages 1 to 3 and the final [if (!matched) continue]: [Normal None] when
    the iteration continues with the next rule, [Normal (Some v)] when the
    rule goes on to the threshold check. *)
Definition run_stages (r : Rule) (message : string) (c : gmap string Regex)
    : gmap string Regex * completion (option Locals) :=
  let v0 := {| l_matched := false; l_matchedPattern := None; l_similarity := None |} in
  match content_stage r message v0 with
  | None => (c, Normal None)
  | Some v1 =>
      match pcre_stage r message c v1 with
      | (c', Threw e) => (c', Threw e)
      | (c', Normal None) => (c', Normal None)
      | (c', Normal (Some v2)) =>
          match semantic_stage r message v2 with
          | None => (c', Normal None)
          | Some v3 => if l_matched v3 then (c', Normal (Some v3)) else (c', Normal None)
          end
      end
  end.

(** *** preFilterRules *)

Definition eligible (h : Heap) (st : nat) (r : Rule) : bool :=
  match r_flags r with
  | Some fl =>
      match f_check fl with
      | Some ((_ :: _) as chk) =>
          forallb (λ fl, bool_decide (state_flags h st !! fl = Some true)) chk
      | _ => true
      end
  | None => true
  end.

Definition preFilterRules (rs : list Rule) (h : Heap) (st : nat) : list Rule :=
  List.filter (eligible h st) rs.

(** *** updateState *)

(** One round of [for (const flag of ...) { flags[flag] = b; flagHistory.push(...) }]
    on the copies at [lf] and [lh]. *)
Definition apply_flags (lf lh : nat) (b : bool) (a : FlagAction) (ruleId : string)
    (now : Z) (fls : list string) (h : Heap) : Heap :=
  foldl (λ h fl,
           push_history lh {| fh_flag := fl; fh_action := a; fh_ruleId := ruleId;
                              fh_timestamp := now |}
             (write_flag lf fl b h)) h fls.

(** [{...state, flags, flagHistory, expiresAt: now + ttl * 1000, updatedAt: now}] *)
Definition updated_state (now : Z) (fl : RuleFlags) (old : ConversationState) (lf lh : nat)
    : ConversationState :=
  {| cs_id := cs_id old; cs_tokenId := cs_tokenId old;
     cs_conversationId := cs_conversationId old; cs_accountId := cs_accountId old;
     cs_flags := lf; cs_flagHistory := lh;
     cs_expiresAt := now + flags_ttl fl * 1000;
     cs_createdAt := cs_createdAt old; cs_updatedAt := now |}.

Definition updateState (now : Z) (r : Rule) (ctx : EvaluationContext) (st : nat)
    (w : World) : World * nat :=
  match r_flags r with
  | None => (w, st)
  | Some fl =>
      let h := heap w in
      let '(lf, h1) := alloc_flags (state_flags h st) h in
      let '(lh, h2) := alloc_history (state_history h1 st) h1 in
      let h3 := apply_flags lf lh true act_set (r_id r) now (default [] (f_set fl)) h2 in
      let h4 := apply_flags lf lh false act_unset (r_id r) now (default [] (f_unset fl)) h3 in
      let old := default no_object (h_states h4 !! st) in
      let '(st', h5) := alloc_state (updated_state now fl old lf lh) h4 in
      let sc1 := StateCache.set now (c_tokenId ctx) (c_conversationId ctx) st'
                   (c_accountId ctx) (stateCache w) in
      let sc2 := StateCache.markDirty (c_tokenId ctx) (c_conversationId ctx)
                   (c_accountId ctx) sc1 in
      (with_stateCache sc2 (with_heap h5 w), st')
  end.

(** *** State hydration, the head of [evaluate] *)

Definition import_state (img : StateImage) (h : Heap) : nat * Heap :=
  let '(s, m, es) := img in
  let '(lf, h1) := alloc_flags m h in
  let '(lh, h2) := alloc_history es h1 in
  alloc_state {| cs_id := cs_id s; cs_tokenId := cs_tokenId s;
                 cs_conversationId := cs_conversationId s; cs_accountId := cs_accountId s;
                 cs_flags := lf; cs_flagHistory := lh; cs_expiresAt := cs_expiresAt s;
                 cs_createdAt := cs_createdAt s; cs_updatedAt := cs_updatedAt s |} h2.

Definition synthesize (now : Z) (ctx : EvaluationContext) (w : World) : World * nat :=
  let '(lf, h1) := alloc_flags ∅ (heap w) in
  let '(lh, h2) := alloc_history [] h1 in
  let '(st, h3) :=
    alloc_state {| cs_id := getKey (c_tokenId ctx) (c_conversationId ctx) (c_accountId ctx);
                   cs_tokenId := c_tokenId ctx; cs_conversationId := c_conversationId ctx;
                   cs_accountId := c_accountId ctx; cs_flags := lf; cs_flagHistory := lh;
                   cs_expiresAt := now + 24 * 60 * 60 * 1000;
                   cs_createdAt := now; cs_updatedAt := now |} h2 in
  (with_stateCache
     (StateCache.set now (c_tokenId ctx) (c_conversationId ctx) st (c_accountId ctx)
        (stateCache w))
     (with_heap h3 w), st).

Definition hydrate (now : Z) (ctx : EvaluationContext) (w : World) : World * nat :=
  match c_state ctx with
  | Some st => (w, st)
  | None =>
      let '(sc, cached) :=
        StateCache.get now (c_tokenId ctx) (c_conversationId ctx) (c_accountId ctx)
          (stateCache w) in
      let w1 := with_stateCache sc w in
      match cached with
      | Some st => (w1, st)
      | None =>
          let provided :=
            match stateProvider with
            | Some get => get (c_tokenId ctx) (c_conversationId ctx) (c_accountId ctx)
            | None => None
            end in
          match provided with
          | Some img =>
              let '(st, h) := import_state img (heap w1) in
              (with_heap h w1, st)
          | None => synthesize now ctx w1
          end
      end
  end.

(** *** The rule loop *)

Record LoopState := {
  ls_world : World;
  ls_state : nat;
  ls_results : list EvaluationResult
}.

Definition threshold_reason (r : Rule) : string :=
  "Threshold not met (" +:+ show_Z (default 0 (r_threshold r)) +:+ " in " +:+
  show_Z (default 0 (r_window r)) +:+ "s)".

(** The result pushed when the threshold gate holds the rule back. *)
Definition gated_result (r : Rule) : EvaluationResult :=
  {| matched := false; rule := Some r; action := None; res_state := None;
     reason := Some (threshold_reason r); similarity := None; matchedPattern := None |}.

(** The result pushed when the rule fires. *)
Definition fired_result (r : Rule) (st : nat) (v : Locals) : EvaluationResult :=
  {| matched := true; rule := Some r; action := Some (r_action r); res_state := Some st;
     reason := None; similarity := l_similarity v; matchedPattern := l_matchedPattern v |}.

(** [rule.action === 'block' && rule.severity === 'critical'] *)
Definition critical_block (r : Rule) : bool :=
  bool_decide (r_action r = block) && bool_decide (r_severity r = critical).

(** The body of [for (const rule of eligibleRules)]. *)
Definition eval_rule (now : Z) (ctx : EvaluationContext) (r : Rule) (ls : LoopState)
    : LoopState * control :=
  let w := ls_world ls in
  match run_stages r (c_message ctx) (regexCache w) with
  | (c, Threw e) =>
      ({| ls_world := with_regexCache c w; ls_state := ls_state ls;
          ls_results := ls_results ls |}, Raise e)
  | (c, Normal None) =>
      ({| ls_world := with_regexCache c w; ls_state := ls_state ls;
          ls_results := ls_results ls |}, Next)
  | (c, Normal (Some v)) =>
      let w1 := with_regexCache c w in
      let '(t, thresholdMet) :=
        ThresholdTracker.check now r (c_tokenId ctx) (c_conversationId ctx)
          (c_accountId ctx) (thresholdTracker w1) in
      let w2 := with_thresholdTracker t w1 in
      if negb thresholdMet then
        ({| ls_world := w2; ls_state := ls_state ls;
            ls_results := ls_results ls ++ [gated_result r] |}, Next)
      else
        let '(w3, st) := updateState now r ctx (ls_state ls) w2 in
        ({| ls_world := w3; ls_state := st;
            ls_results := ls_results ls ++ [fired_result r st v] |},
         if critical_block r then Break else Next)
  end.

(** The loop; [Next] when it ran to the end of the list. *)
Fixpoint eval_rules (now : Z) (ctx : EvaluationContext) (rs : list Rule) (ls : LoopState)
    : LoopState * control :=
  match rs with
  | [] => (ls, Next)
  | r :: rest =>
      match eval_rule now ctx r ls with
      | (ls', Next) => eval_rules now ctx rest ls'
      | (ls', k) => (ls', k)
      end
  end.

(** *** evaluate *)

(** The state an [evaluate] call starts its loop with, and the loop
    itself. *)
Definition evaluate_loop (now : Z) (ctx : EvaluationContext) (w : World)
    : LoopState * control :=
  let '(w1, st) := hydrate now ctx w in
  eval_rules now ctx (preFilterRules (rules w1) (heap w1) st)
    {| ls_world := w1; ls_state := st; ls_results := [] |}.

(** [stateProvider.save] is recorded in [saved]. An exception leaves the
    world as it was when thrown and returns no results. *)
Definition evaluate (now : Z) (ctx : EvaluationContext) (w : World)
    : World * completion (list EvaluationResult) :=
  match evaluate_loop now ctx w with
  | (ls, Raise e) => (ls_world ls, Threw e)
  | (ls, _) =>
      let w' := ls_world ls in
      (if present stateProvider
       then with_saved (saved w' ++ omap res_state (ls_results ls)) w'
       else w',
       Normal (ls_results ls))
  end.

(** [getStats]: rulesLoaded, cacheSize, regexCacheSize. *)
Definition getStats (w : World) : nat * nat * nat :=
  (length (rules w), length (StateCache.cache (stateCache w)), size (regexCache w)).

(** [shutdown] *)
Definition shutdown (w : World) : World :=
  {| rules := rules w;
     stateCache := StateCache.clear (StateCache.flushWrites (stateCache w));
     regexCache := ∅; thresholdTracker := ThresholdTracker.clear (thresholdTracker w);
     heap := heap w; saved := saved w |}.

(** *** What the stages decide, as predicates on the rule and the message *)

(** The regex cache holds, under the key of a pattern and flags, what the
    constructor returns for them. *)
Definition cache_sound (c : gmap string Regex) : Prop :=
  ∀ pattern flags regex, (flags = "g" ∨ flags = "gi") →
    c !! regex_key pattern flags = Some regex → RegExp_new pattern flags = Some regex.

Definition content_declared (r : Rule) : bool :=
  match r_content r with
  | Some (_ :: _) => true
  | _ => false
  end.

Definition content_passes (r : Rule) (message : string) : bool :=
  forallb (λ keyword,
    includes (if nocase r then toLowerCase message else message)
             (if nocase r then toLowerCase keyword else keyword))
    (default [] (r_content r)).

Definition pcre_declared (r : Rule) : bool :=
  match r_pcre r with
  | Some (_ :: _) => true
  | _ => false
  end.

(** The pattern compiles and occurs in the message. *)
Definition pattern_matches (flags message pattern : string) : bool :=
  match RegExp_new pattern flags with
  | Some regex => present (regex_exec regex message)
  | None => false
  end.

Definition pcre_passes (r : Rule) (message : string) : bool :=
  forallb (pattern_matches (regex_flags r) message) (default [] (r_pcre r)).

(** The rule has semantic phrases and a matcher is configured. *)
Definition semantic_declared (r : Rule) : bool :=
  match r_semantic r with
  | Some (_ :: _) => present semanticMatcher
  | _ => false
  end.

(** The matcher's results contain an entry for this rule's id. *)
Definition semantic_passes (r : Rule) (message : string) : bool :=
  match semanticMatcher with
  | Some queryRules =>
      existsb (λ m, bool_decide (r_id (sm_rule m) = r_id r))
        (queryRules message (semanticThreshold r))
  | None => false
  end.

(** "A rule is a match iff every stage it declares passes", as the
    specification words it. *)
Definition declared_stages_pass (r : Rule) (message : string) : bool :=
  implb (content_declared r) (content_passes r message) &&
  implb (pcre_declared r) (pcre_passes r message) &&
  implb (semantic_declared r) (semantic_passes r message).

(** What the code decides: the declared content and pcre stages pass, and
    at least one stage has set [matched]. *)
Definition stages_accept (r : Rule) (message : string) : bool :=
  implb (content_declared r) (content_passes r message) &&
  implb (pcre_declared r) (pcre_passes r message) &&
  (content_declared r || pcre_declared r ||
   (semantic_declared r && semantic_passes r message)).

(** Where a result comes from: a rule of the list that the stages accepted;
    it is the gated result of that rule, or a fired one. *)
Definition result_of (message : string) (rs : list Rule) (res : EvaluationResult) : Prop :=
  ∃ r, r ∈ rs ∧ rule res = Some r ∧ stages_accept r message = true ∧
       (res = gated_result r ∨ ∃ st v, res = fired_result r st v).

(** *** Invariants of the worlds the engine reaches *)

(** The state references the cache holds are allocated. *)
Definition cache_valid (w : World) : Prop :=
  ∀ key e, amap_get key (StateCache.cache (stateCache w)) = Some e →
    valid_state (heap w) (StateCache.state e).

Definition world_ok (w : World) : Prop := cache_sound (regexCache w) ∧ cache_valid w.

(** The state a caller passes in is allocated. *)
Definition ctx_ok (w : World) (ctx : EvaluationContext) : Prop :=
  ∀ st, c_state ctx = Some st → valid_state (heap w) st.

End Engine.

Arguments with_stateCache {Regex} sc w.
Arguments with_regexCache {Regex} c w.
Arguments with_thresholdTracker {Regex} t w.
Arguments with_heap {Regex} h w.
Arguments with_saved {Regex} l w.
Arguments regexCache_get {Regex} RegExp_new pattern flags c.
Arguments pcre_every {Regex} RegExp_new regex_exec flags message patterns c mp.
Arguments pcre_stage {Regex} RegExp_new regex_exec r message c v.
Arguments run_stages {Regex} RegExp_new regex_exec semanticMatcher toFixed1 r message c.
Arguments updateState {Regex} now r ctx st w.
Arguments synthesize {Regex} now ctx w.
Arguments hydrate {Regex} stateProvider now ctx w.
Arguments eval_rule {Regex} RegExp_new regex_exec semanticMatcher toFixed1 now ctx r ls.
Arguments eval_rules {Regex} RegExp_new regex_exec semanticMatcher toFixed1 now ctx rs ls.
Arguments evaluate_loop {Regex} RegExp_new regex_exec semanticMatcher stateProvider toFixed1
  now ctx w.
Arguments evaluate {Regex} RegExp_new regex_exec semanticMatcher stateProvider toFixed1
  now ctx w.
Arguments shutdown {Regex} w.
Arguments getStats {Regex} w.
Arguments cache_sound {Regex} RegExp_new c.
Arguments result_of {Regex} RegExp_new regex_exec semanticMatcher message rs res.
Arguments cache_valid {Regex} w.
Arguments world_ok {Regex} RegExp_new w.
Arguments ctx_ok {Regex} w ctx.
Arguments pattern_matches {Regex} RegExp_new regex_exec flags message pattern.
Arguments pcre_passes {Regex} RegExp_new regex_exec r message.
Arguments declared_stages_pass {Regex} RegExp_new regex_exec semanticMatcher r message.
Arguments stages_accept {Regex} RegExp_new regex_exec semanticMatcher r message.
Arguments Build_LoopState {Regex} ls_world ls_state ls_results.
Arguments rules {Regex} w.
Arguments stateCache {Regex} w.
Arguments regexCache {Regex} w.
Arguments thresholdTracker {Regex} w.
Arguments heap {Regex} w.
Arguments saved {Regex} w.
Arguments ls_world {Regex} l.
Arguments ls_state {Regex} l.
Arguments ls_results {Regex} l.

(** ** Concrete collaborators and rules for the examples *)

(** A regex engine for patterns made of ordinary characters, each standing
    for itself; the one-character pattern [(] is the unterminated group
    that [new RegExp] rejects. A compiled regex is the pattern with the
    case-insensitivity flag. *)
Fixpoint prefix_match (ci : bool) (p s : string) : bool :=
  match p, s with
  | EmptyString, _ => true
  | String a p', String b s' =>
      (if ci then bool_decide (toLowerCase_ascii a = toLowerCase_ascii b)
       else bool_decide (a = b)) && prefix_match ci p' s'
  | String _ _, EmptyString => false
  end.

Fixpoint first_match (ci : bool) (p s : string) : option string :=
  if prefix_match ci p s then Some (String.substring 0 (String.length p) s)
  else match s with
       | EmptyString => None
       | String _ s' => first_match ci p s'
       end.

Definition lit_RegExp_new (pattern flags : string) : option (string * bool) :=
  if bool_decide (pattern = "(") then None
  else Some (pattern, bool_decide (flags = "gi")).

Definition lit_exec (regex : string * bool) (message : string) : option string :=
  first_match regex.2 regex.1 message.

(** A semantic matcher that is configured and finds nothing. *)
Definition silent_matcher : option (string → Q → list SemanticMatch) := Some (λ _ _, []).

Definition no_toFixed1 (q : Q) : string := "".

(** The engine without collaborators, and with the silent matcher. *)
Definition evaluate0 := evaluate lit_RegExp_new lit_exec None None no_toFixed1.
Definition evaluate_sem :=
  evaluate lit_RegExp_new lit_exec silent_matcher None no_toFixed1.
Definition new_engine0 : list Rule → World (string * bool) := new_engine (string * bool).

Definition sample_ctx (tokenId conversationId : string) (accountId : option string)
    (message : string) : EvaluationContext :=
  {| c_tokenId := tokenId; c_conversationId := conversationId; c_accountId := accountId;
     c_message := message; c_state := None |}.

(** A rule with a content stage only. *)
Definition content_rule (id : string) (content : list string) (a : RuleAction)
    (s : RuleSeverity) : Rule :=
  {| r_id := id; r_content := Some content; r_pcre := None; r_semantic := None;
     r_semanticThreshold := None; r_flags := None; r_threshold := None; r_window := None;
     r_severity := s; r_action := a; r_enabled := true; r_nocase := None |}.

(** [{content: ["buy"], threshold, window, action: block}] *)
Definition rate_rule (threshold window : Z) : Rule :=
  {| r_id := "rate-limit"; r_content := Some ["buy"]; r_pcre := None; r_semantic := None;
     r_semanticThreshold := None; r_flags := None; r_threshold := Some threshold;
     r_window := Some window; r_severity := medium; r_action := block; r_enabled := true;
     r_nocase := None |}.

(** [{content: ["verify"], semantic: ["urgent account verify"], action: block}] *)
Definition hybrid_rule : Rule :=
  {| r_id := "hybrid"; r_content := Some ["verify"]; r_pcre := None;
     r_semantic := Some ["urgent account verify"]; r_semanticThreshold := None;
     r_flags := None; r_threshold := None; r_window := None; r_severity := high;
     r_action := block; r_enabled := true; r_nocase := None |}.

(** The same with [threshold: 3, window: 10]. *)
Definition gated_hybrid_rule : Rule :=
  {| r_id := "gated-hybrid"; r_content := Some ["verify"]; r_pcre := None;
     r_semantic := Some ["urgent account verify"]; r_semanticThreshold := None;
     r_flags := None; r_threshold := Some 3; r_window := Some 10; r_severity := high;
     r_action := block; r_enabled := true; r_nocase := None |}.

(** [{content: ["verify"], flags: {set: ["stage1"]}, action: pass}] *)
Definition setter_rule : Rule :=
  {| r_id := "setter"; r_content := Some ["verify"]; r_pcre := None; r_semantic := None;
     r_semanticThreshold := None;
     r_flags := Some {| f_set := Some ["stage1"]; f_unset := None; f_check := None;
                        f_ttl := None |};
     r_threshold := None; r_window := None; r_severity := low; r_action := pass;
     r_enabled := true; r_nocase := None |}.

(** [{content: ["password"], flags: {check: ["stage1"]}, action: block}] *)
Definition checker_rule : Rule :=
  {| r_id := "checker"; r_content := Some ["password"]; r_pcre := None; r_semantic := None;
     r_semanticThreshold := None;
     r_flags := Some {| f_set := None; f_unset := None; f_check := Some ["stage1"];
                        f_ttl := None |};
     r_threshold := None; r_window := None; r_severity := high; r_action := block;
     r_enabled := true; r_nocase := None |}.

(** A purely stateful rule: [{flags: {check: ["stage1"]}, action: block}] *)
Definition flags_only_rule : Rule :=
  {| r_id := "stateful"; r_content := None; r_pcre := None; r_semantic := None;
     r_semanticThreshold := None;
     r_flags := Some {| f_set := None; f_unset := None; f_check := Some ["stage1"];
                        f_ttl := None |};
     r_threshold := None; r_window := None; r_severity := high; r_action := block;
     r_enabled := true; r_nocase := None |}.

(** [{pcre: ["("], action: block}]: the pattern is an unterminated group. *)
Definition bad_regex_rule : Rule :=
  {| r_id := "bad-regex"; r_content := None; r_pcre := Some ["("]; r_semantic := None;
     r_semanticThreshold := None; r_flags := None; r_threshold := None; r_window := None;
     r_severity := high; r_action := block; r_enabled := true; r_nocase := None |}.

(** [{content: ["verify"], flags: {set: ["stage2"], unset: ["stage1"]}, action: flag}] *)
Definition resetter_rule : Rule :=
  {| r_id := "resetter"; r_content := Some ["verify"]; r_pcre := None; r_semantic := None;
     r_semanticThreshold := None;
     r_flags := Some {| f_set := Some ["stage2"]; f_unset := Some ["stage1"];
                        f_check := None; f_ttl := None |};
     r_threshold := None; r_window := None; r_severity := low; r_action := flag;
     r_enabled := true; r_nocase := None |}.

(** The results of a call that returned. *)
Definition results_of (c : completion (list EvaluationResult)) : list EvaluationResult :=
  match c with
  | Normal rs => rs
  | Threw _ => []
  end.

(** The [matched] fields and rule ids of a result list. *)
Definition verdicts (c : completion (list EvaluationResult)) : option (list (string * bool)) :=
  match c with
  | Normal rs => Some (map (λ res, (default "" (r_id <$> rule res), matched res)) rs)
  | Threw _ => None
  end.

(** ** Notions the statements use *)

(** The counter the tracker keeps for a rule under a key. *)
Definition tracker_entry (trackers : ThresholdTracker.t) (key ruleId : string)
    : option ThresholdTracker.entry :=
  default ∅ (trackers !! key) !! ruleId.

(** A string without the separator [:]. *)
Definition colon_free (s : string) : Prop := ":"%char ∉ String.list_ascii_of_string s.

(** The flag map after [flags[fl] = b] for each [fl] of a list. *)
Definition set_flags (b : bool) (fls : list string) (m : gmap string bool) : gmap string bool :=
  foldl (λ m fl, <[fl := b]> m) m fls.

(** The history entries one round of flag writes pushes. *)
Definition history_entries (a : FlagAction) (ruleId : string) (now : Z) (fls : list string)
    : list FlagHistoryEntry :=
  map (λ fl, {| fh_flag := fl; fh_action := a; fh_ruleId := ruleId; fh_timestamp := now |}) fls.

(** The flag map and the history a firing rule with flags [fl] leaves. *)
Definition updated_flags (fl : RuleFlags) (m : gmap string bool) : gmap string bool :=
  set_flags false (default [] (f_unset fl)) (set_flags true (default [] (f_set fl)) m).

Definition updated_history (fl : RuleFlags) (ruleId : string) (now : Z)
    (es : list FlagHistoryEntry) : list FlagHistoryEntry :=
  (es ++ history_entries act_set ruleId now (default [] (f_set fl)))
     ++ history_entries act_unset ruleId now (default [] (f_unset fl)).

(** The heap after [updateState] for a rule with flags [fl]: three new
    objects at the end, nothing else touched. *)
Definition updated_heap (now : Z) (r : Rule) (fl : RuleFlags) (st : nat) (h : Heap) : Heap :=
  {| h_states := h_states h ++
       [updated_state now fl (default no_object (h_states h !! st))
          (length (h_flags h)) (length (h_history h))];
     h_flags := h_flags h ++ [updated_flags fl (state_flags h st)];
     h_history := h_history h ++ [updated_history fl (r_id r) now (state_history h st)] |}.

(** A flag map shows the writes of a rule with flags [fl]: the flags it
    unsets are false, the flags it sets and does not unset are true. *)
Definition flags_written (fl : RuleFlags) (m : gmap string bool) : Prop :=
  (∀ f, f ∈ default [] (f_unset fl) → m !! f = Some false) ∧
  (∀ f, f ∈ default [] (f_set fl) → f ∉ default [] (f_unset fl) → m !! f = Some true).

(** The result is the last one of the list that a rule with flags fired. *)
Definition last_flag_write (results : list EvaluationResult) (res : EvaluationResult)
    (fl : RuleFlags) : Prop :=
  ∃ pre post r, results = pre ++ res :: post ∧
    matched res = true ∧ rule res = Some r ∧ r_flags r = Some fl ∧
    ∀ res' r', res' ∈ post → matched res' = true → rule res' = Some r' → r_flags r' = None.

(** The loop invariant behind the write-through: the last result a rule
    with flags has fired carries the loop's current state; the cache holds
    that state under the call's key, stamped [now] and dirty; the key is
    queued for writing; and the state's flag map shows the rule's writes. *)
Definition written_through {Regex : Type} (now : Z) (ctx : EvaluationContext)
    (ls : LoopState Regex) : Prop :=
  ∀ res fl, last_flag_write (ls_results ls) res fl →
    let key := getKey (c_tokenId ctx) (c_conversationId ctx) (c_accountId ctx) in
    let sc := stateCache (ls_world ls) in
    res_state res = Some (ls_state ls) ∧
    amap_get key (StateCache.cache sc) =
      Some {| StateCache.state := ls_state ls; StateCache.lastAccess := now;
              StateCache.dirty := true |} ∧
    key ∈ StateCache.writeQueue sc ∧
    valid_state (heap (ls_world ls)) (ls_state ls) ∧
    flags_written fl (state_flags (heap (ls_world ls)) (ls_state ls)).

(** Two worlds that differ at most in what the state cache and the
    threshold tracker hold under keys other than [key] (and in the write
    queue and the save log). *)
Definition agree_on {Regex : Type} (key : string) (w1 w2 : World Regex) : Prop :=
  rules w1 = rules w2 ∧ regexCache w1 = regexCache w2 ∧ heap w1 = heap w2 ∧
  thresholdTracker w1 !! key = thresholdTracker w2 !! key ∧
  amap_get key (StateCache.cache (stateCache w1)) =
    amap_get key (StateCache.cache (stateCache w2)).

(** The state cache has room for the entry of [key]: no [set] under this
    key evicts. *)
Definition has_room (key : string) (sc : StateCache.t) : Prop :=
  Z.of_nat (length (StateCache.cache sc)) < StateCache.maxSize ∧
  (present (amap_get key (StateCache.cache sc)) = true ∨
   Z.of_nat (length (StateCache.cache sc)) + 1 < StateCache.maxSize).

(** From [w0] to [w], nothing changed outside [key]: the trackers of the
    other keys are as they were, every object of the heap is as it was, and
    if the cache had room, the cache entries of the other keys are as they
    were. *)
Definition untouched_outside {Regex : Type} (key : string) (w0 w : World Regex) : Prop :=
  (∀ key2, key2 ≠ key → thresholdTracker w !! key2 = thresholdTracker w0 !! key2) ∧
  heap_extends (heap w0) (heap w) ∧
  (has_room key (stateCache w0) →
   has_room key (stateCache w) ∧
   ∀ key2, key2 ≠ key →
     amap_get key2 (StateCache.cache (stateCache w)) =
       amap_get key2 (StateCache.cache (stateCache w0))).

(** Two loop states that agree on [key], on the state reference and on the
    results so far. *)
Definition loops_agree {Regex : Type} (key : string) (ls1 ls2 : LoopState Regex) : Prop :=
  agree_on key (ls_world ls1) (ls_world ls2) ∧ ls_state ls1 = ls_state ls2 ∧
  ls_results ls1 = ls_results ls2.

(** ** Notions the further properties use *)

(** Two worlds that differ at most in the regex cache. *)
Definition same_but_regexCache {Regex : Type} (w1 w2 : World Regex) : Prop :=
  rules w1 = rules w2 ∧ stateCache w1 = stateCache w2 ∧
  thresholdTracker w1 = thresholdTracker w2 ∧ heap w1 = heap w2 ∧ saved w1 = saved w2.

(** The checks of one rule for one tuple at the times [ts], one after the
    other: what each returned, and the tracker they leave. *)
Fixpoint check_at_times (r : Rule) (tokenId conversationId : string)
    (accountId : option string) (ts : list Z) (trackers : ThresholdTracker.t)
    : list bool * ThresholdTracker.t :=
  match ts with
  | [] => ([], trackers)
  | t :: ts' =>
      let '(trackers1, b) :=
        ThresholdTracker.check t r tokenId conversationId accountId trackers in
      let '(bs, trackers2) :=
        check_at_times r tokenId conversationId accountId ts' trackers1 in
      (b :: bs, trackers2)
  end.

(** A counter as the tracker keeps it for a rule with threshold [th] and
    window [win]: at least 1, below the threshold, over a window of
    [win] seconds. *)
Definition entry_in_range (th win : Z) (o : option ThresholdTracker.entry) : Prop :=
  match o with
  | Some e =>
      1 ≤ ThresholdTracker.count e < th ∧
      ThresholdTracker.windowEnd e = ThresholdTracker.firstMatch e + win * 1000
  | None => True
  end.

(** [!rule.flags?.check || rule.flags.check.length === 0]: the rule asks for
    no flag. *)
Definition checks_no_flag (r : Rule) : bool :=
  match r_flags r with
  | Some fl =>
      match f_check fl with
      | Some (_ :: _) => false
      | _ => true
      end
  | None => true
  end.

(** The call finds no state: none passed in, none (or only an expired one)
    in the cache, none with the provider. *)
Definition finds_no_state {Regex : Type}
    (stateProvider : option (string → string → option string → option StateImage))
    (now : Z) (ctx : EvaluationContext) (w : World Regex) : Prop :=
  c_state ctx = None ∧
  (StateCache.get now (c_tokenId ctx) (c_conversationId ctx) (c_accountId ctx)
     (stateCache w)).2 = None ∧
  match stateProvider with
  | Some get => get (c_tokenId ctx) (c_conversationId ctx) (c_accountId ctx)
  | None => None
  end = None.

(** ** LanceDBSemanticMatcher (dist/semantic-matcher.js)

    The vector database and the embedding model are external: the database
    is a value of type [Store] that the matcher carries along, a table handle
    is a [Table], an embedding a [Vector]; the library calls are section
    variables, with [None] (or [false]) where the call throws. Logging is
    left out. *)

Module LanceDBSemanticMatcher.

Inductive error :=
  | NotInitialized               (* 'SemanticMatcher not initialized' *)
  | EmbeddingModelNotInitialized (* 'Embedding model not initialized' *)
  | LibraryError.                (* whatever a library call, or a call on null, throws *)

Inductive outcome (A : Type) :=
  | Returned (a : A)
  | Failed (e : error).
Arguments Returned {A} a.
Arguments Failed {A} e.

(** A row handed to [createTable]. The field [category], copied from the
    rule like [severity] and [action], is not a field of [Rule] here. *)
Record Embedding (Vector : Type) := {
  e_text : string;
  e_vector : Vector;
  e_rule_id : string;
  e_severity : RuleSeverity;
  e_action : RuleAction;
  e_threshold : Q
}.
Arguments e_text {Vector} _.
Arguments e_vector {Vector} _.
Arguments e_rule_id {Vector} _.
Arguments e_severity {Vector} _.
Arguments e_action {Vector} _.
Arguments e_threshold {Vector} _.

(** A search result, as far as [queryRules] reads it: [result.rule_id] and
    [result._distance]. *)
Record Row := {
  row_rule_id : string;
  row_distance : option Q
}.

(** [r.semantic && r.semantic.length > 0] *)
Definition has_semantic (r : Rule) : bool :=
  match r_semantic r with
  | Some (_ :: _) => true
  | _ => false
  end.

(** [1 - (result._distance || 0)] *)
Definition similarity_of (result : Row) : Q := (1 - default 0 (row_distance result))%Q.

Section Matcher.

Variables Vector Table Store : Type.

(** The two dynamic imports and [transformers.pipeline(...)] succeed. *)
Variable load_model : bool.
(** The loaded model on a text, as an array; [None] when it throws. *)
Variable pipeline : string → option Vector.
(** [lancedb.connect(dbPath)] succeeds. *)
Variable connect : bool.
(** [db.openTable('threat_patterns')]; [None] when it throws. *)
Variable openTable : Store → option Table.
(** [db.dropTable('threat_patterns')]; what it throws is caught and ignored. *)
Variable dropTable : Store → Store.
(** [db.createTable('threat_patterns', embeddings)]; no table when it throws. *)
Variable createTable : Store → list (Embedding Vector) → Store * option Table.
(** [table.search(vector).limit(n).execute()]; [None] when it throws. *)
Variable search : Store → Table → Vector → nat → option (list Row).
(** [table.countRows()]; [None] when it throws. *)
Variable countRows : Store → Table → option nat.

(** The fields of the matcher ([db] and [pipeline] are null or set), and the
    database behind it. *)
Record t := {
  db : bool;
  table : option Table;
  pipeline_loaded : bool;
  rules : list Rule;
  initialized : bool;
  store : Store
}.

(** [new LanceDBSemanticMatcher(config)], over the database [s]. *)
Definition new (s : Store) : t :=
  {| db := false; table := None; pipeline_loaded := false; rules := [];
     initialized := false; store := s |}.

Definition initialize (m : t) : t * outcome unit :=
  if initialized m then (m, Returned tt)
  else if negb load_model then (m, Failed LibraryError)
  else
    let m1 := {| db := db m; table := table m; pipeline_loaded := true; rules := rules m;
                 initialized := initialized m; store := store m |} in
    if negb connect then (m1, Failed LibraryError)
    else
      ({| db := true;
          table := match openTable (store m1) with
                   | Some tb => Some tb
                   | None => table m1
                   end;
          pipeline_loaded := pipeline_loaded m1; rules := rules m1;
          initialized := true; store := store m1 |},
       Returned tt).

Definition generateEmbedding (m : t) (text : string) : outcome Vector :=
  if negb (pipeline_loaded m) then Failed EmbeddingModelNotInitialized
  else
    match pipeline text with
    | Some output => Returned output
    | None => Failed LibraryError
    end.

(** The rows [loadRules] builds: one per rule and pattern, in order, without
    the patterns whose embedding threw. *)
Definition embeddings_of (m : t) (semanticRules : list Rule) : list (Embedding Vector) :=
  flat_map (λ rule,
    omap (λ pattern,
      match generateEmbedding m pattern with
      | Returned vector =>
          Some {| e_text := pattern; e_vector := vector; e_rule_id := r_id rule;
                  e_severity := r_severity rule; e_action := r_action rule;
                  e_threshold := semanticThreshold rule |}
      | Failed _ => None
      end) (default [] (r_semantic rule))) semanticRules.

Definition loadRules (rs : list Rule) (m : t) : t * outcome unit :=
  if negb (initialized m) then (m, Failed NotInitialized)
  else
    match List.filter has_semantic rs with
    | [] => (m, Returned tt)
    | (_ :: _) as semanticRules =>
        let m1 := {| db := db m; table := table m; pipeline_loaded := pipeline_loaded m;
                     rules := semanticRules; initialized := initialized m;
                     store := store m |} in
        match embeddings_of m1 semanticRules with
        | [] => (m1, Returned tt)
        | (_ :: _) as embeddings =>
            if negb (db m1) then (m1, Failed LibraryError)
            else
              match createTable (dropTable (store m1)) embeddings with
              | (s, Some tb) =>
                  ({| db := db m1; table := Some tb; pipeline_loaded := pipeline_loaded m1;
                      rules := rules m1; initialized := initialized m1; store := s |},
                   Returned tt)
              | (s, None) =>
                  ({| db := db m1; table := table m1; pipeline_loaded := pipeline_loaded m1;
                      rules := rules m1; initialized := initialized m1; store := s |},
                   Failed LibraryError)
              end
        end
    end.

(** The body of the loop over the search results: the match pushed for a
    result, if any. *)
Definition match_of (m : t) (threshold : Q) (result : Row) : option SemanticMatch :=
  let similarity := similarity_of result in
  if Qle_bool threshold similarity then
    match List.find (λ r, bool_decide (r_id r = row_rule_id result)) (rules m) with
    | Some rule => Some {| sm_rule := rule; sm_similarity := similarity |}
    | None => None
    end
  else None.

Definition queryRules (m : t) (message : string) (threshold : Q) : list SemanticMatch :=
  match table m with
  | None => []
  | Some tb =>
      match generateEmbedding m message with
      | Failed _ => []
      | Returned messageVector =>
          match search (store m) tb messageVector 10 with
          | Some results => omap (match_of m threshold) results
          | None => []
          end
      end
  end.

Definition count (m : t) : nat :=
  match table m with
  | None => 0%nat
  | Some tb => default 0%nat (countRows (store m) tb)
  end.

Definition shutdown (m : t) : t :=
  {| db := db m; table := table m; pipeline_loaded := pipeline_loaded m; rules := rules m;
     initialized := false; store := store m |}.

(** Once initialized, the model is loaded and the database connected. *)
Definition ready (m : t) : Prop :=
  initialized m = true → db m = true ∧ pipeline_loaded m = true.

(** What [search] finds for a message, if the matcher has a table and the
    message embeds. *)
Definition nearest (m : t) (message : string) : list Row :=
  match table m with
  | None => []
  | Some tb =>
      match generateEmbedding m message with
      | Failed _ => []
      | Returned messageVector => default [] (search (store m) tb messageVector 10)
      end
  end.

End Matcher.

Arguments db {Table Store} _.
Arguments table {Table Store} _.
Arguments pipeline_loaded {Table Store} _.
Arguments rules {Table Store} _.
Arguments initialized {Table Store} _.
Arguments store {Table Store} _.
Arguments new {Table Store} s.
Arguments initialize {Table Store} load_model connect openTable m.
Arguments generateEmbedding {Vector Table Store} pipeline m text.
Arguments embeddings_of {Vector Table Store} pipeline m semanticRules.
Arguments loadRules {Vector Table Store} pipeline dropTable createTable rs m.
Arguments match_of {Table Store} m threshold result.
Arguments queryRules {Vector Table Store} pipeline search m message threshold.
Arguments count {Table Store} countRows m.
Arguments shutdown {Table Store} m.
Arguments ready {Table Store} m.
Arguments nearest {Vector Table Store} pipeline search m message.

End LanceDBSemanticMatcher.

(** ** What [matchedPattern] reports *)

(** [match[0]] of a pattern on a message, if the pattern compiles and
    matches. *)
Definition match0 {Regex : Type} (RegExp_new : string → string → option Regex)
    (regex_exec : Regex → string → option string) (flags message pattern : string)
    : option string :=
  match RegExp_new pattern flags with
  | Some regex => regex_exec regex message
  | None => None
  end.

(** The report after the pcre stage, from the report [mp] of the content
    stage and the matches [ms] of the patterns: [mp] if it is a non-empty
    string; else the first non-empty match; else the empty string, or [mp]
    again when there was no pattern. *)
Definition reported (mp : option string) (ms : list string) : option string :=
  if truthy_str mp then mp
  else
    match List.find (λ m, negb (String.eqb m "")) ms with
    | Some m => Some m
    | None =>
        match ms with
        | [] => mp
        | _ :: _ => Some ""
        end
    end.

(** The semantic match the engine finds for a rule: the first of the
    matcher's answers that carries the rule's id. *)
Definition semantic_hit (semanticMatcher : option (string → Q → list SemanticMatch))
    (r : Rule) (message : string) : option SemanticMatch :=
  match r_semantic r, semanticMatcher with
  | Some (_ :: _), Some queryRules =>
      List.find (λ m, bool_decide (r_id (sm_rule m) = r_id r))
        (queryRules message (semanticThreshold r))
  | _, _ => None
  end.

(** ** Closed examples for the further properties *)

(** A disabled rule. *)
Definition disabled_rule : Rule :=
  {| r_id := "off"; r_content := Some ["x"]; r_pcre := None; r_semantic := None;
     r_semanticThreshold := None; r_flags := None; r_threshold := None; r_window := None;
     r_severity := low; r_action := block; r_enabled := false; r_nocase := None |}.

(** [{content: ["zzz"], pcre: ["("], action: block}]: the invalid pattern
    sits behind a keyword. *)
Definition guarded_bad_regex_rule : Rule :=
  {| r_id := "guarded"; r_content := Some ["zzz"]; r_pcre := Some ["("]; r_semantic := None;
     r_semanticThreshold := None; r_flags := None; r_threshold := None; r_window := None;
     r_severity := high; r_action := block; r_enabled := true; r_nocase := None |}.

(** [{pcre: ["ell", "o"], action: alert}] *)
Definition two_pattern_rule : Rule :=
  {| r_id := "two"; r_content := None; r_pcre := Some ["ell"; "o"]; r_semantic := None;
     r_semanticThreshold := None; r_flags := None; r_threshold := None; r_window := None;
     r_severity := low; r_action := alert; r_enabled := true; r_nocase := None |}.

(** A vector database with one table, whose search finds one row, of the
    rule [hybrid] at distance 0.1; embedding, connecting and creating the
    table succeed, opening it does not. *)
Definition toy_pipeline (text : string) : option unit := Some tt.
Definition toy_openTable (s : unit) : option unit := None.
Definition toy_dropTable (s : unit) : unit := s.
Definition toy_createTable (s : unit) (embeddings : list (LanceDBSemanticMatcher.Embedding unit))
    : unit * option unit := (s, Some tt).
Definition toy_search (s tb v : unit) (n : nat) : option (list LanceDBSemanticMatcher.Row) :=
  Some [{| LanceDBSemanticMatcher.row_rule_id := "hybrid";
           LanceDBSemanticMatcher.row_distance := Some (1 # 10) |}].

(** The matcher after [initialize] and [loadRules] with the hybrid rule and
    a content rule. *)
Definition toy_matcher : LanceDBSemanticMatcher.t unit unit :=
  (LanceDBSemanticMatcher.loadRules toy_pipeline toy_dropTable toy_createTable
     [hybrid_rule; content_rule "plain" ["x"] block low]
     (LanceDBSemanticMatcher.initialize true true toy_openTable
        (LanceDBSemanticMatcher.new tt)).1).1.

(** * Theorems *)

(** ** Rule set *)

Lemma sort_insert_Forall {A} (key : A → Z) (P : A → Prop) x l :
  P x → Forall P l → Forall P (sort_insert key x l).
Proof.
  intros Hx. induction 1 as [|y ys Hy Hys IH]; simpl.
  - constructor; [assumption | constructor].
  - destruct (key x <=? key y); repeat constructor; assumption.
Qed.

Lemma sort_insert_nondecreasing {A} (key : A → Z) x l :
  nondecreasing key l → nondecreasing key (sort_insert key x l).
Proof.
  induction l as [|y ys IH]; simpl.
  - intros _. split; [constructor | exact I].
  - intros [Hy Hys]. destruct (Z.leb_spec (key x) (key y)) as [Hle|Hgt]; simpl.
    + split; [|split; assumption].
      constructor; [assumption|].
      eapply Forall_impl; [exact Hy|]. simpl. intros; lia.
    + split; [|apply IH; assumption].
      apply sort_insert_Forall; [lia | assumption].
Qed.

Lemma sort_by_nondecreasing {A} (key : A → Z) l : nondecreasing key (sort_by key l).
Proof.
  induction l as [|x xs IH]; simpl; [exact I|].
  apply sort_insert_nondecreasing, IH.
Qed.

(** The loaded rule list is in non-decreasing order of the key the code
    computes. *)
Lemma loadRules_nondecreasing rs : nondecreasing getRulePriority (loadRules rs).
Proof. apply sort_by_nondecreasing. Qed.

(** The code's key of a [pass] rule: the weight 0 of the table is replaced
    by the default 5. *)
Lemma getRulePriority_pass r : r_action r = pass → getRulePriority r = 50 + typeCost r.
Proof. unfold getRulePriority. intros ->. reflexivity. Qed.

(** C2, at the failing input: a [pass] rule and a [block] rule, both with a
    content stage only. The specification's key puts the [pass] rule first
    (1 against 41); the code computes 51 for it, loads it after the [block]
    rule, and reports it after the [block] rule in the result list. *)
Theorem pass_rule_sorted_after_block :
  let p := content_rule "p" ["x"] pass low in
  let b := content_rule "b" ["x"] block low in
  spec_priority p = 1 ∧ spec_priority b = 41 ∧
  getRulePriority p = 51 ∧ getRulePriority b = 41 ∧
  loadRules [p; b] = [b; p] ∧
  verdicts (evaluate0 0 (sample_ctx "t" "c" None "x") (new_engine0 [p; b])).2
    = Some [("b", true); ("p", true)].
Proof. vm_compute. repeat split. Qed.

(** ** Threshold tracker *)

Lemma tracker_entry_insert (trackers : ThresholdTracker.t) key m ruleId :
  tracker_entry (<[key := m]> trackers) key ruleId = m !! ruleId.
Proof. unfold tracker_entry. by rewrite lookup_insert_eq. Qed.

Lemma tracker_entry_insert_ne (trackers : ThresholdTracker.t) key key' m ruleId :
  key ≠ key' → tracker_entry (<[key := m]> trackers) key' ruleId = tracker_entry trackers key' ruleId.
Proof. intros Hne. unfold tracker_entry. by rewrite lookup_insert_ne. Qed.

(** A rule whose threshold and window are both set and non-zero is gated. *)
Lemma check_gated now r tok conv acc trackers th win :
  r_threshold r = Some th → th ≠ 0 → r_window r = Some win → win ≠ 0 →
  ThresholdTracker.check now r tok conv acc trackers =
    let key := getKey tok conv acc in
    let conversationTrackers := default ∅ (trackers !! key) in
    let fresh := {| ThresholdTracker.count := 1; ThresholdTracker.firstMatch := now;
                    ThresholdTracker.windowEnd := now + win * 1000 |} in
    match conversationTrackers !! r_id r with
    | Some e =>
        if now >? ThresholdTracker.windowEnd e then
          (<[key := <[r_id r := fresh]> conversationTrackers]> trackers, bool_decide (th = 1))
        else
          if ThresholdTracker.count e + 1 >=? th then
            (<[key := delete (r_id r) conversationTrackers]> trackers, true)
          else
            (<[key := <[r_id r :=
                 {| ThresholdTracker.count := ThresholdTracker.count e + 1;
                    ThresholdTracker.firstMatch := ThresholdTracker.firstMatch e;
                    ThresholdTracker.windowEnd := ThresholdTracker.windowEnd e |}]>
               conversationTrackers]> trackers, false)
    | None =>
        (<[key := <[r_id r := fresh]> conversationTrackers]> trackers, bool_decide (th = 1))
    end.
Proof.
  intros Hth Hth0 Hwin Hwin0. unfold ThresholdTracker.check.
  rewrite Hth, Hwin. simpl.
  destruct (Z.eqb_spec th 0); [contradiction|].
  destruct (Z.eqb_spec win 0); [contradiction|].
  reflexivity.
Qed.

(** A rule whose threshold or window is unset, or zero, is never gated and
    leaves the tracker as it is. *)
Lemma check_ungated now r tok conv acc trackers :
  truthy_num (r_threshold r) = false ∨ truthy_num (r_window r) = false →
  ThresholdTracker.check now r tok conv acc trackers = (trackers, true).
Proof.
  intros H. unfold ThresholdTracker.check.
  destruct H as [-> | ->]; simpl; [reflexivity|].
  by rewrite orb_true_r.
Qed.

(** C5 as stated fails for a window that is set to 0: the rule
    [{threshold: 3, window: 0}] passes the check on a tracker without an
    entry, although its threshold is not 1, and no entry is created. *)
Lemma check_zero_window_counterexample :
  let r := rate_rule 3 0 in
  1 ≤ 3 ∧ r_threshold r = Some 3 ∧ r_window r = Some 0 ∧
  tracker_entry ∅ (getKey "t" "c" None) (r_id r) = None ∧
  ThresholdTracker.check 0 r "t" "c" None ∅ = (∅, true).
Proof. vm_compute. repeat split; discriminate. Qed.

(** C5, amended to a non-zero window. For a rule with threshold [th >= 1]
    and window [win <> 0]:
    - when the tracker has no entry for the rule under the key, or [now] is
      past the entry's [windowEnd], the check creates the entry
      [{count: 1, firstMatch: now, windowEnd: now + win * 1000}] and returns
      true iff [th = 1];
    - otherwise it returns true iff the incremented count reaches [th], and
      then the entry is deleted; else the entry stays with the incremented
      count;
    - for [th = 3] and [win = 10], starting without an entry, three checks
      within 10 seconds return false, false, true, and a fourth check 11
      seconds later returns false. *)
Theorem check_threshold_window now r tok conv acc (trackers : ThresholdTracker.t) th win :
  r_threshold r = Some th → 1 ≤ th → r_window r = Some win → win ≠ 0 →
  let key := getKey tok conv acc in
  let check t := ThresholdTracker.check t r tok conv acc in
  ((tracker_entry trackers key (r_id r) = None ∨
    (∃ e, tracker_entry trackers key (r_id r) = Some e ∧ now > ThresholdTracker.windowEnd e)) →
   ((check now trackers).2 = true ↔ th = 1) ∧
   tracker_entry (check now trackers).1 key (r_id r) =
     Some {| ThresholdTracker.count := 1; ThresholdTracker.firstMatch := now;
             ThresholdTracker.windowEnd := now + win * 1000 |}) ∧
  (∀ e, tracker_entry trackers key (r_id r) = Some e → now ≤ ThresholdTracker.windowEnd e →
   ((check now trackers).2 = true ↔ th ≤ ThresholdTracker.count e + 1) ∧
   tracker_entry (check now trackers).1 key (r_id r) =
     if ThresholdTracker.count e + 1 >=? th then None
     else Some {| ThresholdTracker.count := ThresholdTracker.count e + 1;
                  ThresholdTracker.firstMatch := ThresholdTracker.firstMatch e;
                  ThresholdTracker.windowEnd := ThresholdTracker.windowEnd e |}) ∧
  (th = 3 → win = 10 → tracker_entry trackers key (r_id r) = None →
   ∀ t1 t2 t3, now ≤ t1 → t1 ≤ t2 → t2 ≤ now + 10000 → t3 = t2 + 11000 →
   let c0 := check now trackers in
   let c1 := check t1 c0.1 in
   let c2 := check t2 c1.1 in
   let c3 := check t3 c2.1 in
   c0.2 = false ∧ c1.2 = false ∧ c2.2 = true ∧ c3.2 = false).
Proof.
  intros Hth Hge Hwin Hwin0 key check.
  assert (Hth0 : th ≠ 0) by lia.
  assert (Hcheck : ∀ t trs, check t trs = _) by
    (intros t trs; exact (check_gated t r tok conv acc trs th win Hth Hth0 Hwin Hwin0)).
  cbv zeta in Hcheck. fold key in Hcheck.
  split; [|split].
  - intros Hfresh. rewrite Hcheck. unfold tracker_entry in Hfresh.
    destruct Hfresh as [Hnone | (e & He & Hpast)].
    + rewrite Hnone. simpl. rewrite tracker_entry_insert, lookup_insert_eq.
      split; [|reflexivity]. apply bool_decide_eq_true.
    + rewrite He. destruct (Z.gtb_spec now (ThresholdTracker.windowEnd e)); [|lia].
      simpl. rewrite tracker_entry_insert, lookup_insert_eq.
      split; [|reflexivity]. apply bool_decide_eq_true.
  - intros e He Hin. rewrite Hcheck. unfold tracker_entry in He. rewrite He.
    destruct (Z.gtb_spec now (ThresholdTracker.windowEnd e)); [lia|].
    destruct (Z.geb_spec (ThresholdTracker.count e + 1) th); simpl.
    + rewrite tracker_entry_insert, lookup_delete_eq. split; [|reflexivity].
      split; [lia | reflexivity].
    + rewrite tracker_entry_insert, lookup_insert_eq. split; [|reflexivity].
      split; [discriminate | lia].
  - intros -> -> Hnone t1 t2 t3 H01 H12 H2 ->. cbv zeta.
    unfold tracker_entry in Hnone.
    rewrite (Hcheck now trackers), Hnone. simpl.
    rewrite (Hcheck t1), lookup_insert_eq. simpl. rewrite lookup_insert_eq. simpl.
    destruct (Z.gtb_spec t1 (now + 10 * 1000)); [lia|]. simpl.
    rewrite (Hcheck t2), lookup_insert_eq. simpl. rewrite lookup_insert_eq. simpl.
    destruct (Z.gtb_spec t2 (now + 10 * 1000)); [lia|]. simpl.
    rewrite (Hcheck (t2 + 11000)), lookup_insert_eq. simpl. rewrite lookup_delete_eq.
    simpl. repeat split; reflexivity.
Qed.

(** The theorem at the rule [{threshold: 3, window: 10}], an empty tracker
    and the clock at 0. *)
Lemma check_threshold_window_witness :
  let r := rate_rule 3 10 in
  let check t := ThresholdTracker.check t r "t" "c" None in
  let c0 := check 0 ∅ in
  let c1 := check 4000 c0.1 in
  let c2 := check 9000 c1.1 in
  let c3 := check 20000 c2.1 in
  c0.2 = false ∧ c1.2 = false ∧ c2.2 = true ∧ c3.2 = false.
Proof.
  refine (proj2 (proj2 (check_threshold_window 0 (rate_rule 3 10) "t" "c" None ∅ 3 10
            _ _ _ _)) _ _ _ 4000 9000 20000 _ _ _ _);
    first [reflexivity | lia | discriminate].
Defined.

(** The scenario on the engine: [{content: ["buy"], threshold: 3, window: 10}]
    and four messages "buy now" at 0 s, 4 s, 9 s and 20 s. *)
Example threshold_scenario :
  let ctx := sample_ctx "user1" "conv1" None "buy now" in
  let '(w1, r1) := evaluate0 0 ctx (new_engine0 [rate_rule 3 10]) in
  let '(w2, r2) := evaluate0 4000 ctx w1 in
  let '(w3, r3) := evaluate0 9000 ctx w2 in
  let '(w4, r4) := evaluate0 20000 ctx w3 in
  map verdicts [r1; r2; r3; r4] =
    [Some [("rate-limit", false)]; Some [("rate-limit", false)];
     Some [("rate-limit", true)]; Some [("rate-limit", false)]].
Proof. vm_compute. reflexivity. Qed.

(** ** Keys *)

Lemma list_ascii_of_string_app a b :
  String.list_ascii_of_string (a +:+ b) = String.list_ascii_of_string a ++ String.list_ascii_of_string b.
Proof. induction a as [|c a IH]; simpl; [reflexivity | by rewrite IH]. Qed.

Lemma list_ascii_of_string_inj a b :
  String.list_ascii_of_string a = String.list_ascii_of_string b → a = b.
Proof.
  intros H. rewrite <- (String.string_of_list_ascii_of_string a), <- (String.string_of_list_ascii_of_string b).
  by rewrite H.
Qed.

Lemma string_app_inv_tail a b s : a +:+ s = b +:+ s → a = b.
Proof.
  intros H. apply list_ascii_of_string_inj.
  apply (f_equal String.list_ascii_of_string) in H. rewrite !list_ascii_of_string_app in H.
  by apply app_inv_tail in H.
Qed.

(** The regex cache key determines the pattern and the flags, for the two
    flag strings the engine uses. *)
Lemma regex_key_inj p f p' f' :
  (f = "g" ∨ f = "gi") → (f' = "g" ∨ f' = "gi") →
  regex_key p f = regex_key p' f' → p = p' ∧ f = f'.
Proof.
  unfold regex_key. intros Hf Hf' H.
  assert (Hff : f = f').
  { apply (f_equal String.list_ascii_of_string) in H. rewrite !list_ascii_of_string_app in H.
    destruct Hf as [-> | ->], Hf' as [-> | ->]; try reflexivity; exfalso; simpl in H.
    - change (String.list_ascii_of_string p ++ [":"; "g"]%char)
        with (String.list_ascii_of_string p ++ [":"%char] ++ ["g"%char]) in H.
      change (String.list_ascii_of_string p' ++ [":"; "g"; "i"]%char)
        with (String.list_ascii_of_string p' ++ [":"; "g"]%char ++ ["i"%char]) in H.
      rewrite !app_assoc in H. apply app_inj_tail in H. destruct H as [_ H]. discriminate.
    - change (String.list_ascii_of_string p' ++ [":"; "g"]%char)
        with (String.list_ascii_of_string p' ++ [":"%char] ++ ["g"%char]) in H.
      change (String.list_ascii_of_string p ++ [":"; "g"; "i"]%char)
        with (String.list_ascii_of_string p ++ [":"; "g"]%char ++ ["i"%char]) in H.
      rewrite !app_assoc in H. apply app_inj_tail in H. destruct H as [_ H]. discriminate. }
  subst f'. split; [|reflexivity]. by apply string_app_inv_tail in H.
Qed.

Lemma colon_split (a b a' b' : list ascii) :
  ":"%char ∉ a → ":"%char ∉ a' →
  a ++ ":"%char :: b = a' ++ ":"%char :: b' → a = a' ∧ b = b'.
Proof.
  revert a'. induction a as [|x a IH]; intros [|x' a'] Ha Ha' H; simpl in H.
  - by inversion H.
  - inversion H; subst. exfalso. apply Ha'. left.
  - inversion H; subst. exfalso. apply Ha. left.
  - inversion H; subst. destruct (IH a') as [-> ->]; try assumption; [| |done].
    + intros Hin. apply Ha. by right.
    + intros Hin. apply Ha'. by right.
Qed.

(** Without [:] in the token and conversation ids, the key determines the
    tuple, up to reading an absent account id as the empty string. *)
Lemma getKey_inj t c a t' c' a' :
  colon_free t → colon_free c → colon_free t' → colon_free c' →
  getKey t c a = getKey t' c' a' → t = t' ∧ c = c' ∧ default "" a = default "" a'.
Proof.
  unfold getKey, colon_free. intros Ht Hc Ht' Hc' H.
  apply (f_equal String.list_ascii_of_string) in H. rewrite !list_ascii_of_string_app in H.
  simpl in H.
  apply colon_split in H; [|assumption..]. destruct H as [Ht1 H].
  apply colon_split in H; [|assumption..]. destruct H as [Hc1 Ha1].
  repeat split; by apply list_ascii_of_string_inj.
Qed.

(** ** The stages *)

Section Stages.

Context {Regex : Type}.
Variable RegExp_new : string → string → option Regex.
Variable regex_exec : Regex → string → option string.
Variable semanticMatcher : option (string → Q → list SemanticMatch).
Variable toFixed1 : Q → string.

Lemma regexCache_get_sound pattern flags (c : gmap string Regex) :
  cache_sound RegExp_new c → (flags = "g" ∨ flags = "gi") →
  match RegExp_new pattern flags with
  | Some regex =>
      ∃ c', regexCache_get RegExp_new pattern flags c = Some (c', regex) ∧
            cache_sound RegExp_new c'
  | None => regexCache_get RegExp_new pattern flags c = None
  end.
Proof.
  intros Hc Hf. unfold regexCache_get.
  destruct (c !! regex_key pattern flags) as [regex|] eqn:Hlook.
  - rewrite (Hc _ _ _ Hf Hlook). eauto.
  - destruct (RegExp_new pattern flags) as [regex|] eqn:Hnew; [|reflexivity].
    eexists; split; [reflexivity|].
    intros p f rx Hf' Hl.
    destruct (decide (regex_key pattern flags = regex_key p f)) as [Heq|Hne].
    + rewrite Heq, lookup_insert_eq in Hl. inversion Hl; subst.
      apply regex_key_inj in Heq; [|assumption..]. destruct Heq as [<- <-]. assumption.
    + rewrite lookup_insert_ne in Hl by assumption. eauto.
Qed.

(** [every] over the patterns: with a sound cache it returns true exactly
    when every pattern compiles and occurs in the message; otherwise it
    returns false or throws. The cache stays sound. *)
Lemma pcre_every_spec flags message patterns (c : gmap string Regex) mp :
  cache_sound RegExp_new c → (flags = "g" ∨ flags = "gi") →
  ∃ c' out, pcre_every RegExp_new regex_exec flags message patterns c mp = (c', out) ∧
    cache_sound RegExp_new c' ∧
    if forallb (pattern_matches RegExp_new regex_exec flags message) patterns
    then ∃ mp', out = Normal (true, mp')
    else (∃ mp', out = Normal (false, mp')) ∨ (∃ e, out = Threw e).
Proof.
  intros Hc Hf. revert c mp Hc.
  induction patterns as [|p ps IH]; intros c mp Hc; simpl.
  - eauto 6.
  - unfold pattern_matches at 1.
    pose proof (regexCache_get_sound p flags c Hc Hf) as Hget.
    destruct (RegExp_new p flags) as [regex|].
    + destruct Hget as (c1 & -> & Hc1).
      destruct (regex_exec regex message) as [m|]; simpl.
      * apply IH, Hc1.
      * eauto 8.
    + rewrite Hget. simpl. eauto 8.
Qed.

Lemma content_stage_spec r message v :
  content_stage r message v =
    if content_declared r then
      if content_passes r message then
        Some {| l_matched := true;
                l_matchedPattern := Some (join ", " (default [] (r_content r)));
                l_similarity := l_similarity v |}
      else None
    else Some v.
Proof.
  unfold content_stage, content_declared, content_passes.
  destruct (r_content r) as [[|k ks]|]; reflexivity.
Qed.

Lemma semantic_stage_spec r message v :
  ∃ v', semantic_stage semanticMatcher toFixed1 r message v =
    (if semantic_declared semanticMatcher r then
       if semantic_passes semanticMatcher r message then Some v'
       else if l_matched v then Some v else None
     else Some v)
  ∧ l_matched v' = true.
Proof.
  unfold semantic_stage, semantic_declared, semantic_passes.
  destruct (r_semantic r) as [[|k ks]|]; try (exists {| l_matched := true;
    l_matchedPattern := None; l_similarity := None |}; split; reflexivity).
  destruct semanticMatcher as [queryRules|]; simpl.
  - destruct (List.find _ _) as [m|] eqn:Hfind.
    + apply find_some in Hfind. destruct Hfind as [Hin Hm].
      assert (existsb (λ m, bool_decide (r_id (sm_rule m) = r_id r))
                (queryRules message (semanticThreshold r)) = true) as ->.
      { apply existsb_exists. eauto. }
      eexists; split; reflexivity.
    + exists {| l_matched := true; l_matchedPattern := None; l_similarity := None |}.
      split; [|reflexivity].
      assert (existsb (λ m, bool_decide (r_id (sm_rule m) = r_id r))
                (queryRules message (semanticThreshold r)) = false) as ->.
      { apply not_true_is_false. intros Hex. apply existsb_exists in Hex.
        destruct Hex as (m & Hin & Hm).
        eapply find_none in Hfind; [|exact Hin]. simpl in Hfind. congruence. }
      reflexivity.
  - exists {| l_matched := true; l_matchedPattern := None; l_similarity := None |}.
    split; reflexivity.
Qed.

Lemma regex_flags_cases r : regex_flags r = "g" ∨ regex_flags r = "gi".
Proof. unfold regex_flags. destruct (nocase r); auto. Qed.

Lemma pcre_stage_spec r message (c : gmap string Regex) v :
  cache_sound RegExp_new c →
  ∃ c' out, pcre_stage RegExp_new regex_exec r message c v = (c', out) ∧
    cache_sound RegExp_new c' ∧
    if pcre_declared r then
      if pcre_passes RegExp_new regex_exec r message
      then ∃ mp, out = Normal (Some {| l_matched := true; l_matchedPattern := mp;
                                       l_similarity := l_similarity v |})
      else out = Normal None ∨ (∃ e, out = Threw e)
    else out = Normal (Some v).
Proof.
  intros Hc. unfold pcre_stage, pcre_declared, pcre_passes.
  destruct (r_pcre r) as [[|p ps]|]; [eauto 6 | | eauto 6].
  destruct (pcre_every_spec (regex_flags r) message (p :: ps) c (l_matchedPattern v) Hc
              (regex_flags_cases r)) as (c' & out & -> & Hc' & Hout).
  cbn [default] in *.
  destruct (forallb _ _).
  - destruct Hout as [mp' ->]. eauto 8.
  - destruct Hout as [[mp' ->] | [e ->]]; eauto 8.
Qed.

(** Stages 1 to 3 with a sound cache: the rule goes on to the threshold
    check exactly when [stages_accept] holds; otherwise the iteration
    continues or throws. The cache stays sound. *)
Lemma run_stages_spec r message (c : gmap string Regex) :
  cache_sound RegExp_new c →
  ∃ c' out,
    run_stages RegExp_new regex_exec semanticMatcher toFixed1 r message c = (c', out) ∧
    cache_sound RegExp_new c' ∧
    if stages_accept RegExp_new regex_exec semanticMatcher r message
    then ∃ v, out = Normal (Some v)
    else out = Normal None ∨ (∃ e, out = Threw e).
Proof.
  intros Hc. unfold run_stages, stages_accept.
  rewrite content_stage_spec.
  destruct (content_declared r) eqn:Hcd; cbn [implb orb andb].
  - destruct (content_passes r message) eqn:Hcp; cbn [implb orb andb]; [|eauto 6].
    match goal with |- context [pcre_stage _ _ _ _ _ ?v] =>
      destruct (pcre_stage_spec r message c v Hc) as (c' & out & -> & Hc' & Hout) end.
    destruct (pcre_declared r); cbn [implb orb andb].
    + destruct (pcre_passes RegExp_new regex_exec r message); cbn [implb orb andb].
      * destruct Hout as [mp ->].
        match goal with |- context [semantic_stage _ _ _ _ ?v] =>
          destruct (semantic_stage_spec r message v) as (v' & -> & Hv') end.
        destruct (semantic_declared semanticMatcher r); [|eauto 6].
        destruct (semantic_passes semanticMatcher r message); cbn [l_matched];
          [rewrite Hv'|]; eauto 6.
      * destruct Hout as [-> | [e ->]]; eauto 8.
    + rewrite Hout.
      match goal with |- context [semantic_stage _ _ _ _ ?v] =>
        destruct (semantic_stage_spec r message v) as (v' & -> & Hv') end.
      destruct (semantic_declared semanticMatcher r); [|eauto 6].
      destruct (semantic_passes semanticMatcher r message); cbn [l_matched];
        [rewrite Hv'|]; eauto 6.
  - match goal with |- context [pcre_stage _ _ _ _ _ ?v] =>
      destruct (pcre_stage_spec r message c v Hc) as (c' & out & -> & Hc' & Hout) end.
    destruct (pcre_declared r); cbn [implb orb andb].
    + destruct (pcre_passes RegExp_new regex_exec r message); cbn [implb orb andb].
      * destruct Hout as [mp ->].
        match goal with |- context [semantic_stage _ _ _ _ ?v] =>
          destruct (semantic_stage_spec r message v) as (v' & -> & Hv') end.
        destruct (semantic_declared semanticMatcher r); [|eauto 6].
        destruct (semantic_passes semanticMatcher r message); cbn [l_matched];
          [rewrite Hv'|]; eauto 6.
      * destruct Hout as [-> | [e ->]]; eauto 8.
    + rewrite Hout.
      match goal with |- context [semantic_stage _ _ _ _ ?v] =>
        destruct (semantic_stage_spec r message v) as (v' & -> & Hv') end.
      destruct (semantic_declared semanticMatcher r); cbn [implb orb andb]; [|eauto 6].
      destruct (semantic_passes semanticMatcher r message); cbn [l_matched andb];
        [rewrite Hv'|]; eauto 6.
Qed.

End Stages.

(** ** The heap *)

Lemma heap_extends_refl h : heap_extends h h.
Proof. by repeat split. Qed.

Lemma heap_extends_trans h1 h2 h3 :
  heap_extends h1 h2 → heap_extends h2 h3 → heap_extends h1 h3.
Proof.
  intros (? & ? & ?) (? & ? & ?). repeat split; etrans; eassumption.
Qed.

Lemma valid_state_extends h h' st :
  heap_extends h h' → valid_state h st → valid_state h' st.
Proof.
  intros (Hs & Hf & Hh) (s & Hst & Hlf & Hlh).
  exists s. split; [by eapply prefix_lookup_Some|].
  apply prefix_length in Hf, Hh. lia.
Qed.

Lemma snapshot_extends h h' st x :
  heap_extends h h' → snapshot h st = Some x → snapshot h' st = Some x.
Proof.
  intros (Hs & Hf & Hh). unfold snapshot. intros H.
  destruct (h_states h !! st) as [s|] eqn:Hst; [|discriminate]. simpl in H.
  destruct (h_flags h !! cs_flags s) as [m|] eqn:Hm; [|discriminate]. simpl in H.
  destruct (h_history h !! cs_flagHistory s) as [es|] eqn:Hes; [|discriminate].
  simpl in H. inversion H; subst.
  rewrite (prefix_lookup_Some _ _ _ _ Hst Hs). simpl.
  rewrite (prefix_lookup_Some _ _ _ _ Hm Hf). simpl.
  by rewrite (prefix_lookup_Some _ _ _ _ Hes Hh).
Qed.

Lemma valid_state_snapshot h st : valid_state h st → is_Some (snapshot h st).
Proof.
  intros (s & Hst & Hlf & Hlh). unfold snapshot. rewrite Hst. simpl.
  destruct (lookup_lt_is_Some_2 _ _ Hlf) as [m ->].
  destruct (lookup_lt_is_Some_2 _ _ Hlh) as [es ->]. simpl. eauto.
Qed.

Lemma state_flags_extends h h' st :
  heap_extends h h' → valid_state h st → state_flags h' st = state_flags h st.
Proof.
  intros (Hs & Hf & Hh) (s & Hst & Hlf & Hlh). unfold state_flags, flags_at.
  rewrite Hst, (prefix_lookup_Some _ _ _ _ Hst Hs).
  destruct (lookup_lt_is_Some_2 _ _ Hlf) as [m Hm].
  by rewrite Hm, (prefix_lookup_Some _ _ _ _ Hm Hf).
Qed.

(** One round of flag writes on the two newest objects of the heap. *)
Lemma apply_flags_spec S F m H es b a ruleId now fls :
  apply_flags (length F) (length H) b a ruleId now fls
    {| h_states := S; h_flags := F ++ [m]; h_history := H ++ [es] |} =
  {| h_states := S; h_flags := F ++ [set_flags b fls m];
     h_history := H ++ [es ++ history_entries a ruleId now fls] |}.
Proof.
  unfold apply_flags. revert m es. induction fls as [|fl fls IH]; intros m es; simpl.
  - by rewrite app_nil_r.
  - unfold write_flag at 2, push_history at 2. simpl.
    rewrite !alter_app_r_alt by lia. rewrite !Nat.sub_diag. simpl.
    rewrite IH. by rewrite <- app_assoc.
Qed.

(** ** Maps in insertion order *)

Lemma amap_get_set_eq {V} k (v : V) l : amap_get k (amap_set k v l) = Some v.
Proof.
  induction l as [|[k' v'] l IH]; simpl.
  - by rewrite decide_True.
  - destruct (decide (k = k')) as [->|Hne]; simpl.
    + by rewrite decide_True.
    + by rewrite decide_False.
Qed.

Lemma amap_get_set_ne {V} k k' (v : V) l :
  k ≠ k' → amap_get k' (amap_set k v l) = amap_get k' l.
Proof.
  intros Hne. induction l as [|[k0 v0] l IH]; simpl.
  - by rewrite decide_False.
  - destruct (decide (k = k0)) as [->|Hne0]; simpl.
    + by rewrite !decide_False.
    + by rewrite IH.
Qed.

Lemma amap_get_delete_ne {V} k k' (l : list (string * V)) :
  k ≠ k' → amap_get k' (amap_delete k l) = amap_get k' l.
Proof.
  intros Hne. induction l as [|[k0 v0] l IH]; simpl; [reflexivity|].
  destruct (decide (k = k0)) as [->|Hne0]; simpl.
  - by rewrite decide_False.
  - by rewrite IH.
Qed.

Lemma amap_get_delete_eq {V} k (l : list (string * V)) : amap_get k (amap_delete k l) = None.
Proof.
  induction l as [|[k0 v0] l IH]; simpl; [reflexivity|].
  destruct (decide (k = k0)) as [->|Hne]; simpl; [assumption|].
  by rewrite decide_False.
Qed.

Lemma amap_get_delete_Some {V} k k' (l : list (string * V)) v :
  amap_get k' (amap_delete k l) = Some v → amap_get k' l = Some v.
Proof.
  destruct (decide (k = k')) as [->|Hne].
  - by rewrite amap_get_delete_eq.
  - by rewrite amap_get_delete_ne.
Qed.

Lemma amap_set_length {V} k (v : V) l :
  length (amap_set k v l) = if present (amap_get k l) then length l else S (length l).
Proof.
  induction l as [|[k0 v0] l IH]; simpl; [reflexivity|].
  destruct (decide (k = k0)); simpl; [reflexivity|].
  rewrite IH. by destruct (amap_get k l).
Qed.

(** ** StateCache *)

Lemma StateCache_set_get now t c st a sc :
  amap_get (getKey t c a) (StateCache.cache (StateCache.set now t c st a sc)) =
    Some {| StateCache.state := st; StateCache.lastAccess := now; StateCache.dirty := false |}.
Proof. unfold StateCache.set. simpl. apply amap_get_set_eq. Qed.

(** What [set] leaves under any key was put there by this call or was there
    before. *)
Lemma StateCache_set_inv now t c st a sc key e :
  amap_get key (StateCache.cache (StateCache.set now t c st a sc)) = Some e →
  (key = getKey t c a ∧ StateCache.state e = st) ∨ amap_get key (StateCache.cache sc) = Some e.
Proof.
  unfold StateCache.set. simpl.
  destruct (decide (getKey t c a = key)) as [<-|Hne].
  - rewrite amap_get_set_eq. intros [= <-]. by left.
  - rewrite amap_get_set_ne by assumption. intros H. right.
    destruct (_ >=? _); [|assumption].
    destruct (StateCache.oldest _) as [o|]; [|assumption].
    by eapply amap_get_delete_Some.
Qed.

(** Below capacity, [set] evicts nothing: the other keys keep their
    entries. *)
Lemma StateCache_set_other now t c st a sc key :
  Z.of_nat (length (StateCache.cache sc)) < StateCache.maxSize → key ≠ getKey t c a →
  amap_get key (StateCache.cache (StateCache.set now t c st a sc)) =
    amap_get key (StateCache.cache sc).
Proof.
  intros Hlen Hne. unfold StateCache.set. simpl.
  destruct (Z.geb_spec (Z.of_nat (length (StateCache.cache sc))) StateCache.maxSize); [lia|].
  by rewrite amap_get_set_ne.
Qed.

Lemma StateCache_set_length now t c st a sc :
  Z.of_nat (length (StateCache.cache sc)) < StateCache.maxSize →
  length (StateCache.cache (StateCache.set now t c st a sc)) =
    if present (amap_get (getKey t c a) (StateCache.cache sc))
    then length (StateCache.cache sc) else S (length (StateCache.cache sc)).
Proof.
  intros Hlen. unfold StateCache.set. simpl.
  destruct (Z.geb_spec (Z.of_nat (length (StateCache.cache sc))) StateCache.maxSize); [lia|].
  apply amap_set_length.
Qed.

Lemma StateCache_markDirty_get t c a sc key :
  amap_get key (StateCache.cache (StateCache.markDirty t c a sc)) =
    if decide (key = getKey t c a) then
      (λ e, {| StateCache.state := StateCache.state e;
               StateCache.lastAccess := StateCache.lastAccess e;
               StateCache.dirty := true |}) <$> amap_get key (StateCache.cache sc)
    else amap_get key (StateCache.cache sc).
Proof.
  unfold StateCache.markDirty.
  destruct (amap_get (getKey t c a) (StateCache.cache sc)) as [e|] eqn:He; simpl.
  - destruct (decide (key = getKey t c a)) as [->|Hne].
    + by rewrite amap_get_set_eq, He.
    + by rewrite amap_get_set_ne.
  - destruct (decide (key = getKey t c a)) as [->|Hne]; [by rewrite He | reflexivity].
Qed.

Lemma StateCache_markDirty_length t c a sc :
  length (StateCache.cache (StateCache.markDirty t c a sc)) = length (StateCache.cache sc).
Proof.
  unfold StateCache.markDirty.
  destruct (amap_get _ _) as [e|] eqn:He; simpl; [|reflexivity].
  rewrite amap_set_length. by rewrite He.
Qed.

Lemma StateCache_get_get now t c a sc key :
  amap_get key (StateCache.cache (StateCache.get now t c a sc).1) =
    if decide (key = getKey t c a) then
      match amap_get key (StateCache.cache sc) with
      | Some e =>
          Some {| StateCache.state := StateCache.state e;
                  StateCache.lastAccess :=
                    if now - StateCache.lastAccess e <? StateCache.ttl then now
                    else StateCache.lastAccess e;
                  StateCache.dirty := StateCache.dirty e |}
      | None => None
      end
    else amap_get key (StateCache.cache sc).
Proof.
  unfold StateCache.get.
  destruct (amap_get (getKey t c a) (StateCache.cache sc)) as [e|] eqn:He; simpl.
  - destruct (now - StateCache.lastAccess e <? StateCache.ttl) eqn:Hlt; simpl.
    + destruct (decide (key = getKey t c a)) as [->|Hne].
      * by rewrite amap_get_set_eq, He, Hlt.
      * by rewrite amap_get_set_ne.
    + destruct (decide (key = getKey t c a)) as [->|Hne]; [|reflexivity].
      rewrite He, Hlt. by destruct e.
  - destruct (decide (key = getKey t c a)) as [->|Hne]; [by rewrite He | reflexivity].
Qed.

Lemma StateCache_get_length now t c a sc :
  length (StateCache.cache (StateCache.get now t c a sc).1) = length (StateCache.cache sc).
Proof.
  unfold StateCache.get.
  destruct (amap_get _ _) as [e|] eqn:He; simpl; [|reflexivity].
  destruct (_ <? _); simpl; [|reflexivity].
  rewrite amap_set_length. by rewrite He.
Qed.

(** A hit returns the state of the entry under the key. *)
Lemma StateCache_get_hit now t c a sc st :
  (StateCache.get now t c a sc).2 = Some st ↔
  ∃ e, amap_get (getKey t c a) (StateCache.cache sc) = Some e ∧
       now - StateCache.lastAccess e < StateCache.ttl ∧ StateCache.state e = st.
Proof.
  unfold StateCache.get.
  destruct (amap_get _ _) as [e|] eqn:He; simpl.
  - destruct (Z.ltb_spec (now - StateCache.lastAccess e) StateCache.ttl); simpl.
    + split; [intros [= <-]; eauto|]. intros (e' & [= <-] & _ & <-). reflexivity.
    + split; [done|]. intros (e' & [= <-] & ? & _). lia.
  - split; [done|]. intros (e' & ? & _). done.
Qed.

(** ** updateState *)

Section UpdateState.

Context {Regex : Type}.
Implicit Types (w : World Regex).

Lemma updateState_None now r ctx st w :
  r_flags r = None → updateState now r ctx st w = (w, st).
Proof. unfold updateState. by intros ->. Qed.

(** With flags, [updateState] allocates a flag map, a history and a state
    object, writes only to these, stores the new state in the cache and
    marks it dirty. *)
Lemma updateState_Some now r ctx st w fl :
  r_flags r = Some fl →
  updateState now r ctx st w =
    (with_stateCache
       (StateCache.markDirty (c_tokenId ctx) (c_conversationId ctx) (c_accountId ctx)
          (StateCache.set now (c_tokenId ctx) (c_conversationId ctx)
             (length (h_states (heap w))) (c_accountId ctx) (stateCache w)))
       (with_heap (updated_heap now r fl st (heap w)) w),
     length (h_states (heap w))).
Proof.
  unfold updateState. intros ->.
  unfold alloc_flags, alloc_history. cbv zeta. cbn [h_states h_flags h_history].
  rewrite !apply_flags_spec. reflexivity.
Qed.

Lemma updated_heap_extends now r fl st h : heap_extends h (updated_heap now r fl st h).
Proof. repeat split; simpl; by apply prefix_app_r. Qed.

Lemma updated_heap_valid now r fl st h :
  valid_state (updated_heap now r fl st h) (length (h_states h)).
Proof.
  eexists. simpl. split; [apply list_lookup_middle; reflexivity|].
  rewrite !length_app. simpl. lia.
Qed.

(** The snapshot of the new state: the copied and then mutated flag map and
    history. *)
Lemma updated_heap_snapshot now r fl st h :
  snapshot (updated_heap now r fl st h) (length (h_states h)) =
    Some (updated_state now fl (default no_object (h_states h !! st))
            (length (h_flags h)) (length (h_history h)),
          updated_flags fl (state_flags h st),
          updated_history fl (r_id r) now (state_history h st)).
Proof.
  unfold snapshot. simpl.
  rewrite list_lookup_middle by reflexivity. simpl.
  rewrite list_lookup_middle by reflexivity. simpl.
  rewrite list_lookup_middle by reflexivity. reflexivity.
Qed.

End UpdateState.

(** ** The rule loop *)

Section Loop.

Context {Regex : Type}.
Variable RegExp_new : string → string → option Regex.
Variable regex_exec : Regex → string → option string.
Variable semanticMatcher : option (string → Q → list SemanticMatch).
Variable stateProvider : option (string → string → option string → option StateImage).
Variable toFixed1 : Q → string.

Implicit Types (w : World Regex) (ls : LoopState Regex).

Local Abbreviation run_stages' := (run_stages RegExp_new regex_exec semanticMatcher toFixed1).
Local Abbreviation eval_rule' := (eval_rule RegExp_new regex_exec semanticMatcher toFixed1).
Local Abbreviation eval_rules' := (eval_rules RegExp_new regex_exec semanticMatcher toFixed1).
Local Abbreviation evaluate_loop' :=
  (evaluate_loop RegExp_new regex_exec semanticMatcher stateProvider toFixed1).
Local Abbreviation evaluate' :=
  (evaluate RegExp_new regex_exec semanticMatcher stateProvider toFixed1).
Local Abbreviation stages_accept' := (stages_accept RegExp_new regex_exec semanticMatcher).
Local Abbreviation result_of' := (result_of RegExp_new regex_exec semanticMatcher).
Local Abbreviation check' ctx now r :=
  (ThresholdTracker.check now r (c_tokenId ctx) (c_conversationId ctx) (c_accountId ctx)).

(** The four ways one iteration ends: the stages skip the rule, a pattern
    fails to compile, the threshold gate holds the rule back, the rule
    fires. *)
Lemma eval_rule_cases now ctx r ls :
  let w := ls_world ls in
  ∃ c,
    (run_stages' r (c_message ctx) (regexCache w) = (c, Normal None) ∧
     eval_rule' now ctx r ls =
       (Build_LoopState (with_regexCache c w) (ls_state ls) (ls_results ls), Next))
    ∨ (∃ e, run_stages' r (c_message ctx) (regexCache w) = (c, Threw e) ∧
       eval_rule' now ctx r ls =
         (Build_LoopState (with_regexCache c w) (ls_state ls) (ls_results ls), Raise e))
    ∨ (∃ v t, run_stages' r (c_message ctx) (regexCache w) = (c, Normal (Some v)) ∧
       check' ctx now r (thresholdTracker w) = (t, false) ∧
       eval_rule' now ctx r ls =
         (Build_LoopState (with_thresholdTracker t (with_regexCache c w)) (ls_state ls)
            (ls_results ls ++ [gated_result r]), Next))
    ∨ (∃ v t, run_stages' r (c_message ctx) (regexCache w) = (c, Normal (Some v)) ∧
       check' ctx now r (thresholdTracker w) = (t, true) ∧
       let u := updateState now r ctx (ls_state ls)
                  (with_thresholdTracker t (with_regexCache c w)) in
       eval_rule' now ctx r ls =
         (Build_LoopState u.1 u.2 (ls_results ls ++ [fired_result r u.2 v]),
          if critical_block r then Break else Next)).
Proof.
  intros w. unfold eval_rule. fold w.
  destruct (run_stages' r (c_message ctx) (regexCache w)) as [c [[v|]|e]].
  - exists c. right. right. simpl.
    destruct (check' ctx now r (thresholdTracker w)) as [t [|]] eqn:Hcheck; simpl.
    + right. exists v, t. repeat split.
      by destruct (updateState _ _ _ _ _).
    + left. exists v, t. by repeat split.
  - exists c. by left.
  - exists c. right. left. by exists e.
Qed.

Lemma eval_rules_app now ctx l1 l2 ls :
  eval_rules' now ctx (l1 ++ l2) ls =
    match eval_rules' now ctx l1 ls with
    | (ls1, Next) => eval_rules' now ctx l2 ls1
    | other => other
    end.
Proof.
  revert ls. induction l1 as [|r l1 IH]; intros ls; simpl; [reflexivity|].
  destruct (eval_rule' now ctx r ls) as [ls' [| |e]]; [apply IH | reflexivity..].
Qed.

(** A property of the loop state that every iteration keeps, holds when the
    loop ends. *)
Lemma eval_rules_invariant (P : LoopState Regex → Prop) now ctx rs ls :
  P ls → (∀ r ls0, r ∈ rs → P ls0 → P (eval_rule' now ctx r ls0).1) →
  P (eval_rules' now ctx rs ls).1.
Proof.
  revert ls. induction rs as [|r rs IH]; intros ls HP Hstep; simpl; [assumption|].
  pose proof (Hstep r ls (list_elem_of_here _ _) HP) as HP'.
  destruct (eval_rule' now ctx r ls) as [ls' [| |e]]; simpl in *; try assumption.
  apply IH; [assumption|]. intros r0 ls0 Hin. apply Hstep. by right.
Qed.

(** *** Early exit *)

Lemma eval_rules_break now ctx rs ls ls' k :
  eval_rules' now ctx rs ls = (ls', k) →
  ∃ new, ls_results ls' = ls_results ls ++ new ∧
    ∀ pre res post r, new = pre ++ res :: post →
      matched res = true → rule res = Some r → critical_block r = true →
      post = [] ∧ k = Break ∧
      ∃ l1 l2, rs = l1 ++ r :: l2 ∧ eval_rules' now ctx (l1 ++ [r]) ls = (ls', Break).
Proof.
  revert ls. induction rs as [|r0 rest IH]; intros ls Hrun; simpl in Hrun.
  - inversion Hrun; subst. exists []. split; [by rewrite app_nil_r|].
    intros pre res post r Hnew. by destruct pre.
  - destruct (eval_rule_cases now ctx r0 ls) as
      (c & [(_ & Hstep) | [(e & _ & Hstep) | [(v & t & _ & _ & Hstep) | (v & t & _ & _ & Hstep)]]]);
      cbv zeta in Hstep; rewrite Hstep in Hrun.
    + destruct (IH _ Hrun) as (new & Hres & Hnew). exists new. split; [exact Hres|].
      intros pre res post r Hsplit Hm Hr Hcb.
      destruct (Hnew pre res post r Hsplit Hm Hr Hcb) as (-> & -> & l1 & l2 & -> & Hpre).
      repeat split. exists (r0 :: l1), l2. split; [reflexivity|].
      simpl. by rewrite Hstep.
    + inversion Hrun; subst. exists []. split; [by rewrite app_nil_r|].
      intros pre res post r Hnew. by destruct pre.
    + destruct (IH _ Hrun) as (new & Hres & Hnew). simpl in Hres.
      exists (gated_result r0 :: new). split; [by rewrite Hres, <- app_assoc|].
      intros pre res post r Hsplit Hm Hr Hcb.
      destruct pre as [|x pre]; simpl in Hsplit; inversion Hsplit; subst; [discriminate|].
      destruct (Hnew pre res post r eq_refl Hm Hr Hcb) as (-> & -> & l1 & l2 & -> & Hpre).
      repeat split. exists (r0 :: l1), l2. split; [reflexivity|].
      simpl. by rewrite Hstep.
    + set (u := updateState _ _ _ _ _) in *.
      destruct (critical_block r0) eqn:Hcb0.
      * inversion Hrun; subst. simpl. exists [fired_result r0 u.2 v]. split; [reflexivity|].
        intros pre res post r Hsplit Hm Hr Hcb.
        destruct pre as [|x pre]; simpl in Hsplit; inversion Hsplit; subst.
        -- simpl in Hr. inversion Hr; subst. repeat split.
           exists [], rest. split; [reflexivity|]. simpl. by rewrite Hstep.
        -- by destruct pre.
      * destruct (IH _ Hrun) as (new & Hres & Hnew). simpl in Hres.
        exists (fired_result r0 u.2 v :: new). split; [by rewrite Hres, <- app_assoc|].
        intros pre res post r Hsplit Hm Hr Hcb.
        destruct pre as [|x pre]; simpl in Hsplit; inversion Hsplit; subst.
        -- simpl in Hr. inversion Hr; subst. congruence.
        -- destruct (Hnew pre res post r eq_refl Hm Hr Hcb) as (-> & -> & l1 & l2 & -> & Hpre).
           repeat split. exists (r0 :: l1), l2. split; [reflexivity|].
           simpl. by rewrite Hstep.
Qed.

(** C7. When the rule loop of an [evaluate] call has appended a
    [matched = true] result for a rule with [action = block] and
    [severity = critical], that result is the last one, the loop was left by
    [break], the call returns the results up to and including it, and the
    loop state is the one reached right after that rule: with the eligible
    rules [l1 ++ r :: l2], the loop over all of them ends as the loop over
    [l1 ++ [r]] does, so no rule of [l2] is evaluated. *)
Theorem early_exit_on_critical_block now ctx w pre res post r :
  ls_results (evaluate_loop' now ctx w).1 = pre ++ res :: post →
  matched res = true → rule res = Some r → r_action r = block → r_severity r = critical →
  post = [] ∧
  (evaluate_loop' now ctx w).2 = Break ∧
  (evaluate' now ctx w).2 = Normal (pre ++ [res]) ∧
  ∃ l1 l2,
    let hy := hydrate stateProvider now ctx w in
    preFilterRules (rules hy.1) (heap hy.1) hy.2 = l1 ++ r :: l2 ∧
    evaluate_loop' now ctx w =
      eval_rules' now ctx (l1 ++ [r]) (Build_LoopState hy.1 hy.2 []).
Proof.
  intros Hsplit Hm Hr Hact Hsev.
  assert (Hcb : critical_block r = true).
  { unfold critical_block. by rewrite !bool_decide_eq_true_2. }
  unfold evaluate. unfold evaluate_loop in *.
  destruct (hydrate stateProvider now ctx w) as [w1 st] eqn:Hhy. simpl.
  destruct (eval_rules' now ctx (preFilterRules (rules w1) (heap w1) st)
              (Build_LoopState w1 st [])) as [ls k] eqn:Hrun.
  destruct (eval_rules_break _ _ _ _ _ _ Hrun) as (new & Hnew & Hprop).
  simpl in Hnew, Hsplit. rewrite Hsplit in Hnew. subst new.
  destruct (Hprop pre res post r eq_refl Hm Hr Hcb) as (-> & -> & l1 & l2 & Hl & Hpre).
  simpl. rewrite Hsplit.
  repeat split. exists l1, l2. split; [exact Hl | by rewrite Hpre].
Qed.

(** *** What one iteration leaves alone *)

Lemma updateState_regexCache now r ctx st w :
  regexCache (updateState now r ctx st w).1 = regexCache w.
Proof.
  destruct (r_flags r) as [fl|] eqn:Hfl.
  - by rewrite (updateState_Some _ _ _ _ _ _ Hfl).
  - by rewrite (updateState_None _ _ _ _ _ Hfl).
Qed.

Lemma updateState_rules now r ctx st w : rules (updateState now r ctx st w).1 = rules w.
Proof.
  destruct (r_flags r) as [fl|] eqn:Hfl.
  - by rewrite (updateState_Some _ _ _ _ _ _ Hfl).
  - by rewrite (updateState_None _ _ _ _ _ Hfl).
Qed.

Lemma updateState_thresholdTracker now r ctx st w :
  thresholdTracker (updateState now r ctx st w).1 = thresholdTracker w.
Proof.
  destruct (r_flags r) as [fl|] eqn:Hfl.
  - by rewrite (updateState_Some _ _ _ _ _ _ Hfl).
  - by rewrite (updateState_None _ _ _ _ _ Hfl).
Qed.

Lemma updateState_heap_extends now r ctx st w :
  heap_extends (heap w) (heap (updateState now r ctx st w).1).
Proof.
  destruct (r_flags r) as [fl|] eqn:Hfl.
  - rewrite (updateState_Some _ _ _ _ _ _ Hfl). apply updated_heap_extends.
  - rewrite (updateState_None _ _ _ _ _ Hfl). apply heap_extends_refl.
Qed.

(** *** Soundness of the regex cache, and where results come from *)

(** The cases of one iteration, with what the stages decided. *)
Lemma eval_rule_cases_sound now ctx r ls :
  cache_sound RegExp_new (regexCache (ls_world ls)) →
  let w := ls_world ls in
  ∃ c, cache_sound RegExp_new c ∧
    ((stages_accept' r (c_message ctx) = false ∧
      eval_rule' now ctx r ls =
        (Build_LoopState (with_regexCache c w) (ls_state ls) (ls_results ls), Next))
     ∨ (stages_accept' r (c_message ctx) = false ∧ ∃ e,
        eval_rule' now ctx r ls =
          (Build_LoopState (with_regexCache c w) (ls_state ls) (ls_results ls), Raise e))
     ∨ (stages_accept' r (c_message ctx) = true ∧ ∃ t,
        check' ctx now r (thresholdTracker w) = (t, false) ∧
        eval_rule' now ctx r ls =
          (Build_LoopState (with_thresholdTracker t (with_regexCache c w)) (ls_state ls)
             (ls_results ls ++ [gated_result r]), Next))
     ∨ (stages_accept' r (c_message ctx) = true ∧ ∃ v t,
        check' ctx now r (thresholdTracker w) = (t, true) ∧
        let u := updateState now r ctx (ls_state ls)
                   (with_thresholdTracker t (with_regexCache c w)) in
        eval_rule' now ctx r ls =
          (Build_LoopState u.1 u.2 (ls_results ls ++ [fired_result r u.2 v]),
           if critical_block r then Break else Next))).
Proof.
  intros Hc w.
  destruct (run_stages_spec RegExp_new regex_exec semanticMatcher toFixed1 r (c_message ctx)
              (regexCache w) Hc) as (c' & out & Hrun & Hc' & Hout).
  destruct (eval_rule_cases now ctx r ls) as
    (c & [(Hrun' & Hstep) | [(e & Hrun' & Hstep) |
          [(v & t & Hrun' & Hcheck & Hstep) | (v & t & Hrun' & Hcheck & Hstep)]]]);
    fold w in Hrun'; rewrite Hrun in Hrun'; inversion Hrun'; subst c' out;
    exists c; (split; [assumption|]);
    destruct (stages_accept' r (c_message ctx)).
  - by destruct Hout.
  - by left.
  - by destruct Hout.
  - right; left. eauto.
  - right; right; left. eauto.
  - destruct Hout as [? | [? ?]]; discriminate.
  - right; right; right. eauto 6.
  - destruct Hout as [? | [? ?]]; discriminate.
Qed.

Lemma eval_rule_sound now ctx r ls :
  cache_sound RegExp_new (regexCache (ls_world ls)) →
  cache_sound RegExp_new (regexCache (ls_world (eval_rule' now ctx r ls).1)).
Proof.
  intros Hc.
  destruct (eval_rule_cases_sound now ctx r ls Hc) as
    (c & Hc' & [(_ & ->) | [(_ & e & ->) | [(_ & t & _ & ->) | (_ & v & t & _ & ->)]]]);
    simpl; try assumption.
  by rewrite updateState_regexCache.
Qed.

Lemma eval_rules_sound now ctx rs ls :
  cache_sound RegExp_new (regexCache (ls_world ls)) →
  cache_sound RegExp_new (regexCache (ls_world (eval_rules' now ctx rs ls).1)).
Proof.
  intros Hc.
  apply (eval_rules_invariant
           (λ ls0, cache_sound RegExp_new (regexCache (ls_world ls0)))); [assumption|].
  intros r ls0 _. apply eval_rule_sound.
Qed.

Lemma eval_rules_provenance now ctx rs ls :
  cache_sound RegExp_new (regexCache (ls_world ls)) →
  ∃ new, ls_results (eval_rules' now ctx rs ls).1 = ls_results ls ++ new ∧
         Forall (result_of' (c_message ctx) rs) new.
Proof.
  intros Hc.
  enough (cache_sound RegExp_new (regexCache (ls_world (eval_rules' now ctx rs ls).1)) ∧
          ∃ new, ls_results (eval_rules' now ctx rs ls).1 = ls_results ls ++ new ∧
                 Forall (result_of' (c_message ctx) rs) new) by tauto.
  apply (eval_rules_invariant
    (λ ls0, cache_sound RegExp_new (regexCache (ls_world ls0)) ∧
            ∃ new, ls_results ls0 = ls_results ls ++ new ∧
                   Forall (result_of' (c_message ctx) rs) new)).
  - split; [assumption|]. exists []. split; [by rewrite app_nil_r | constructor].
  - intros r ls0 Hin (Hc0 & new & Hnew & Hall).
    split; [by apply eval_rule_sound|].
    destruct (eval_rule_cases_sound now ctx r ls0 Hc0) as
      (c & Hc' & [(_ & ->) | [(_ & e & ->) | [(Hacc & t & _ & ->) | (Hacc & v & t & _ & ->)]]]);
      simpl; eauto.
    + exists (new ++ [gated_result r]). split; [by rewrite Hnew, app_assoc|].
      apply Forall_app. split; [assumption|]. constructor; [|constructor].
      exists r. repeat split; auto.
    + eexists (new ++ [fired_result r _ v]). split; [by rewrite Hnew, app_assoc|].
      apply Forall_app. split; [assumption|]. constructor; [|constructor].
      exists r. repeat split; eauto.
Qed.

(** *** Hydration *)

Lemma hydrate_rules now ctx w : rules (hydrate stateProvider now ctx w).1 = rules w.
Proof.
  unfold hydrate, synthesize. destruct (c_state ctx); [reflexivity|].
  destruct (StateCache.get _ _ _ _ _) as [sc [st|]]; [reflexivity|].
  destruct stateProvider as [get|]; [destruct (get _ _ _) as [[[s m] es]|]|]; reflexivity.
Qed.

Lemma hydrate_regexCache now ctx w :
  regexCache (hydrate stateProvider now ctx w).1 = regexCache w.
Proof.
  unfold hydrate, synthesize. destruct (c_state ctx); [reflexivity|].
  destruct (StateCache.get _ _ _ _ _) as [sc [st|]]; [reflexivity|].
  destruct stateProvider as [get|]; [destruct (get _ _ _) as [[[s m] es]|]|]; reflexivity.
Qed.

Lemma hydrate_thresholdTracker now ctx w :
  thresholdTracker (hydrate stateProvider now ctx w).1 = thresholdTracker w.
Proof.
  unfold hydrate, synthesize. destruct (c_state ctx); [reflexivity|].
  destruct (StateCache.get _ _ _ _ _) as [sc [st|]]; [reflexivity|].
  destruct stateProvider as [get|]; [destruct (get _ _ _) as [[[s m] es]|]|]; reflexivity.
Qed.

Lemma preFilterRules_subseteq rs h st r : r ∈ preFilterRules rs h st → r ∈ rs.
Proof.
  unfold preFilterRules. rewrite !list_elem_of_In, filter_In. tauto.
Qed.

(** *** evaluate *)

Lemma evaluate_results now ctx w w' results :
  evaluate' now ctx w = (w', Normal results) →
  results = ls_results (evaluate_loop' now ctx w).1.
Proof.
  unfold evaluate. destruct (evaluate_loop' now ctx w) as [ls [| |e]]; by intros [= _ <-].
Qed.

Lemma evaluate_sound now ctx w :
  cache_sound RegExp_new (regexCache w) →
  cache_sound RegExp_new (regexCache (evaluate' now ctx w).1).
Proof.
  intros Hc.
  assert (Hloop : cache_sound RegExp_new (regexCache (ls_world (evaluate_loop' now ctx w).1))).
  { unfold evaluate_loop. destruct (hydrate stateProvider now ctx w) as [w1 st] eqn:Hhy.
    apply eval_rules_sound. simpl.
    change w1 with (w1, st).1. rewrite <- Hhy, hydrate_regexCache. exact Hc. }
  unfold evaluate. destruct (evaluate_loop' now ctx w) as [ls [| |e]]; simpl in *;
    try assumption; by destruct (present stateProvider).
Qed.

(** Every result of an [evaluate] call belongs to an eligible rule that the
    stages accepted. *)
Lemma evaluate_provenance now ctx w w' results :
  cache_sound RegExp_new (regexCache w) →
  evaluate' now ctx w = (w', Normal results) →
  let hy := hydrate stateProvider now ctx w in
  Forall (result_of' (c_message ctx) (preFilterRules (rules w) (heap hy.1) hy.2)) results.
Proof.
  intros Hc Hev. apply evaluate_results in Hev. subst results.
  unfold evaluate_loop.
  pose proof (hydrate_rules now ctx w) as Hrules.
  pose proof (hydrate_regexCache now ctx w) as Hcache.
  destruct (hydrate stateProvider now ctx w) as [w1 st]. simpl in *.
  rewrite Hrules.
  edestruct (eval_rules_provenance now ctx (preFilterRules (rules w) (heap w1) st)
               (Build_LoopState w1 st [])) as (new & -> & Hall);
    [simpl; rewrite Hcache; exact Hc|].
  exact Hall.
Qed.

(** *** The staged matcher (C1, C3) *)

Lemma result_of_rule message rs res r :
  result_of' message rs res → rule res = Some r →
  r ∈ rs ∧ stages_accept' r message = true.
Proof. intros (r' & Hin & Hr & Hacc & _) Hr'. rewrite Hr in Hr'. by inversion Hr'; subst. Qed.


(** C3, amended. A rule without a content stage, a pcre stage and a semantic
    stage is never considered matched, whether or not its flag pre-filter
    holds: no result of an [evaluate] call belongs to it. *)
Theorem stageless_rule_yields_no_result now ctx w w' results r :
  cache_sound RegExp_new (regexCache w) →
  evaluate' now ctx w = (w', Normal results) →
  content_declared r = false → pcre_declared r = false →
  semantic_declared semanticMatcher r = false →
  ∀ res, res ∈ results → rule res ≠ Some r.
Proof.
  intros Hc Hev Hcd Hpd Hsd res Hin Hrule.
  pose proof (evaluate_provenance now ctx w w' results Hc Hev) as Hall.
  cbv zeta in Hall. rewrite Forall_forall in Hall.
  destruct (result_of_rule _ _ _ _ (Hall res Hin) Hrule) as [_ Hacc].
  unfold stages_accept in Hacc. rewrite Hcd, Hpd, Hsd in Hacc. discriminate.
Qed.

(** *** The threshold gate (C8) *)

Lemma check_false_gated now r tok conv acc trackers :
  (ThresholdTracker.check now r tok conv acc trackers).2 = false →
  ∃ th win, r_threshold r = Some th ∧ r_window r = Some win ∧ th ≠ 0 ∧ win ≠ 0.
Proof.
  intros H.
  destruct (truthy_num (r_threshold r)) eqn:Hth;
    [|rewrite check_ungated in H by auto; discriminate].
  destruct (truthy_num (r_window r)) eqn:Hwin;
    [|rewrite check_ungated in H by auto; discriminate].
  destruct (r_threshold r) as [th|]; [|discriminate].
  destruct (r_window r) as [win|]; [|discriminate].
  simpl in Hth, Hwin. exists th, win. repeat split; intros ->; discriminate.
Qed.


(** *** Patterns that do not compile (C4) *)

Lemma pcre_every_throws flags message ps1 p ps2 (c : gmap string Regex) mp :
  cache_sound RegExp_new c → (flags = "g" ∨ flags = "gi") →
  forallb (pattern_matches RegExp_new regex_exec flags message) ps1 = true →
  RegExp_new p flags = None →
  ∃ c', pcre_every RegExp_new regex_exec flags message (ps1 ++ p :: ps2) c mp =
          (c', Threw (SyntaxError p)) ∧ cache_sound RegExp_new c'.
Proof.
  intros Hc Hf Hps1 Hp. revert c mp Hc Hps1.
  induction ps1 as [|q ps1 IH]; intros c mp Hc Hps1; simpl.
  - pose proof (regexCache_get_sound RegExp_new p flags c Hc Hf) as Hget.
    rewrite Hp in Hget. rewrite Hget. eauto.
  - simpl in Hps1. apply andb_true_iff in Hps1. destruct Hps1 as [Hq Hps1].
    unfold pattern_matches in Hq.
    pose proof (regexCache_get_sound RegExp_new q flags c Hc Hf) as Hget.
    destruct (RegExp_new q flags) as [regex|]; [|discriminate].
    destruct Hget as (c1 & -> & Hc1).
    destruct (regex_exec regex message) as [m|]; [|discriminate]. simpl.
    by apply IH.
Qed.

Lemma run_stages_throws r message ps1 p ps2 (c : gmap string Regex) :
  cache_sound RegExp_new c →
  implb (content_declared r) (content_passes r message) = true →
  r_pcre r = Some (ps1 ++ p :: ps2) →
  forallb (pattern_matches RegExp_new regex_exec (regex_flags r) message) ps1 = true →
  RegExp_new p (regex_flags r) = None →
  ∃ c', run_stages' r message c = (c', Threw (SyntaxError p)) ∧ cache_sound RegExp_new c'.
Proof.
  intros Hc Hcontent Hpcre Hps1 Hp. unfold run_stages.
  rewrite content_stage_spec.
  assert (Hstage : ∀ v, ∃ c',
    pcre_stage RegExp_new regex_exec r message c v = (c', Threw (SyntaxError p)) ∧
    cache_sound RegExp_new c').
  { intros v. unfold pcre_stage. rewrite Hpcre.
    destruct (pcre_every_throws (regex_flags r) message ps1 p ps2 c (l_matchedPattern v)
                Hc (regex_flags_cases r) Hps1 Hp) as (c' & Hrun & Hc').
    destruct (ps1 ++ p :: ps2) as [|q qs] eqn:Hl; [by destruct ps1|].
    rewrite Hrun. eauto. }
  destruct (content_declared r); simpl in Hcontent.
  - rewrite Hcontent.
    match goal with |- context [pcre_stage _ _ _ _ _ ?v] =>
      destruct (Hstage v) as (c' & -> & Hc') end. eauto.
  - match goal with |- context [pcre_stage _ _ _ _ _ ?v] =>
      destruct (Hstage v) as (c' & -> & Hc') end. eauto.
Qed.

(** C4, amended. [evaluate] has no handler around the regex constructor:
    when the loop reaches an eligible rule whose content stage passes (or is
    absent) and whose pcre list has a pattern the constructor rejects, all
    patterns before it matching, the call throws the SyntaxError and returns
    no result list. Nothing about the failure is cached (the regex cache
    stays sound), so the next call that reaches the pattern throws again. *)
Theorem invalid_pattern_throws now ctx w l1 r l2 ls1 ps1 p ps2 :
  cache_sound RegExp_new (regexCache w) →
  let hy := hydrate stateProvider now ctx w in
  preFilterRules (rules hy.1) (heap hy.1) hy.2 = l1 ++ r :: l2 →
  eval_rules' now ctx l1 (Build_LoopState hy.1 hy.2 []) = (ls1, Next) →
  implb (content_declared r) (content_passes r (c_message ctx)) = true →
  r_pcre r = Some (ps1 ++ p :: ps2) →
  forallb (pattern_matches RegExp_new regex_exec (regex_flags r) (c_message ctx)) ps1 = true →
  RegExp_new p (regex_flags r) = None →
  ∃ w', evaluate' now ctx w = (w', Threw (SyntaxError p)) ∧
        cache_sound RegExp_new (regexCache w').
Proof.
  intros Hc hy Hel Hl1 Hcontent Hpcre Hps1 Hp.
  assert (Hc1 : cache_sound RegExp_new (regexCache (ls_world ls1))).
  { change ls1 with (ls1, Next).1. rewrite <- Hl1. apply eval_rules_sound. simpl.
    subst hy. by rewrite hydrate_regexCache. }
  destruct (run_stages_throws r (c_message ctx) ps1 p ps2 _ Hc1 Hcontent Hpcre Hps1 Hp)
    as (c' & Hrun & Hc').
  assert (Hstep : eval_rule' now ctx r ls1 =
    (Build_LoopState (with_regexCache c' (ls_world ls1)) (ls_state ls1) (ls_results ls1),
     Raise (SyntaxError p))).
  { unfold eval_rule. by rewrite Hrun. }
  exists (with_regexCache c' (ls_world ls1)). split; [|exact Hc'].
  unfold evaluate, evaluate_loop. fold hy. destruct hy as [w1 st]. simpl in *.
  rewrite Hel, eval_rules_app, Hl1. simpl. by rewrite Hstep.
Qed.

(** *** Copy-on-write (C9) *)

Lemma import_state_valid img h :
  let a := import_state img h in heap_extends h a.2 ∧ valid_state a.2 a.1.
Proof.
  destruct img as [[s m] es]. simpl. split.
  - repeat split; simpl; by apply prefix_app_r.
  - eexists. simpl. split; [apply list_lookup_middle; reflexivity|].
    simpl. rewrite !length_app. simpl. lia.
Qed.

Lemma synthesize_valid now ctx w :
  let a := synthesize now ctx w in
  heap_extends (heap w) (heap a.1) ∧ valid_state (heap a.1) a.2.
Proof.
  simpl. split.
  - repeat split; simpl; by apply prefix_app_r.
  - eexists. simpl. split; [apply list_lookup_middle; reflexivity|].
    simpl. rewrite !length_app. simpl. lia.
Qed.

(** The state an [evaluate] call starts with is allocated. *)
Lemma hydrate_valid now ctx w :
  cache_valid w → ctx_ok w ctx →
  let hy := hydrate stateProvider now ctx w in
  heap_extends (heap w) (heap hy.1) ∧ valid_state (heap hy.1) hy.2.
Proof.
  intros Hcv Hctx. unfold hydrate.
  destruct (c_state ctx) as [st|] eqn:Hst; simpl.
  { split; [apply heap_extends_refl | by apply Hctx]. }
  destruct (StateCache.get now (c_tokenId ctx) (c_conversationId ctx) (c_accountId ctx)
              (stateCache w)) as [sc cached] eqn:Hget.
  destruct cached as [st|]; simpl.
  { split; [apply heap_extends_refl|].
    assert (Hhit : (StateCache.get now (c_tokenId ctx) (c_conversationId ctx)
                      (c_accountId ctx) (stateCache w)).2 = Some st) by by rewrite Hget.
    apply StateCache_get_hit in Hhit. destruct Hhit as (e & He & _ & <-).
    by eapply Hcv. }
  destruct stateProvider as [get|]; [destruct (get _ _ _) as [img|]|].
  - pose proof (import_state_valid img (heap w)) as Himp.
    destruct (import_state img (heap w)) as [st h]. exact Himp.
  - apply (synthesize_valid now ctx (with_stateCache sc w)).
  - apply (synthesize_valid now ctx (with_stateCache sc w)).
Qed.

(** One iteration only adds objects to the heap, and keeps the loop's state
    reference allocated. *)
Lemma eval_rule_heap now ctx r ls :
  let step := eval_rule' now ctx r ls in
  heap_extends (heap (ls_world ls)) (heap (ls_world step.1)) ∧
  (valid_state (heap (ls_world ls)) (ls_state ls) →
   valid_state (heap (ls_world step.1)) (ls_state step.1)) ∧
  (∀ res, res ∈ ls_results step.1 →
     res ∈ ls_results ls ∨ res = gated_result r ∨
     ∃ v, res = fired_result r (ls_state step.1) v).
Proof.
  destruct (eval_rule_cases now ctx r ls) as
    (c & [(_ & ->) | [(e & _ & ->) | [(v & t & _ & _ & ->) | (v & t & _ & _ & ->)]]]);
    simpl.
  - split; [apply heap_extends_refl | auto].
  - split; [apply heap_extends_refl | auto].
  - split; [apply heap_extends_refl|]. split; [auto|].
    intros res Hin. apply elem_of_app in Hin. destruct Hin as [Hin|Hin]; [auto|].
    apply list_elem_of_singleton in Hin. auto.
  - split; [|split].
    + exact (updateState_heap_extends now r ctx (ls_state ls)
               (with_thresholdTracker t (with_regexCache c (ls_world ls)))).
    + intros Hvalid. destruct (r_flags r) as [fl|] eqn:Hfl.
      * rewrite (updateState_Some _ _ _ _ _ _ Hfl). simpl. apply updated_heap_valid.
      * rewrite (updateState_None _ _ _ _ _ Hfl). exact Hvalid.
    + intros res Hin. apply elem_of_app in Hin. destruct Hin as [Hin|Hin]; [auto|].
      apply list_elem_of_singleton in Hin. right; right. eauto.
Qed.

(** Through the whole loop: the heap only grows, the loop's state reference
    and the state references of all results stay allocated. *)
Lemma eval_rules_heap now ctx rs ls :
  valid_state (heap (ls_world ls)) (ls_state ls) →
  (∀ res st, res ∈ ls_results ls → res_state res = Some st →
     valid_state (heap (ls_world ls)) st) →
  let ls' := (eval_rules' now ctx rs ls).1 in
  heap_extends (heap (ls_world ls)) (heap (ls_world ls')) ∧
  valid_state (heap (ls_world ls')) (ls_state ls') ∧
  (∀ res st, res ∈ ls_results ls' → res_state res = Some st →
     valid_state (heap (ls_world ls')) st).
Proof.
  intros Hv Hres.
  apply (eval_rules_invariant (λ ls0,
    heap_extends (heap (ls_world ls)) (heap (ls_world ls0)) ∧
    valid_state (heap (ls_world ls0)) (ls_state ls0) ∧
    (∀ res st, res ∈ ls_results ls0 → res_state res = Some st →
       valid_state (heap (ls_world ls0)) st))).
  - split; [apply heap_extends_refl | auto].
  - intros r ls0 _ (Hext & Hv0 & Hres0).
    destruct (eval_rule_heap now ctx r ls0) as (Hext' & Hv' & Hnew).
    split; [by eapply heap_extends_trans|]. split; [auto|].
    intros res st Hin Hst. destruct (Hnew res Hin) as [Hold | [-> | [v ->]]].
    + eapply valid_state_extends; [exact Hext'|]. by eapply Hres0.
    + discriminate.
    + simpl in Hst. inversion Hst; subst. auto.
Qed.

(** C9. In an [evaluate] call whose starting state is allocated, split the
    eligible rules into those already evaluated, [l1], and the later ones,
    [l2]. Every state reference carried by a result of [l1] points to an
    allocated object, and after the later rules the object, its flag map and
    its history are what they were. And when a rule with flags fires, the
    state it puts into its result and hands to the later rules is a newly
    allocated object, with a newly allocated flag map and history: the
    copies of the previous ones with this rule's writes applied. *)
Theorem copy_on_write now ctx w l1 l2 ls1 :
  cache_valid w → ctx_ok w ctx →
  let hy := hydrate stateProvider now ctx w in
  preFilterRules (rules hy.1) (heap hy.1) hy.2 = l1 ++ l2 →
  eval_rules' now ctx l1 (Build_LoopState hy.1 hy.2 []) = (ls1, Next) →
  let ls2 := (evaluate_loop' now ctx w).1 in
  (∀ res st, res ∈ ls_results ls1 → res_state res = Some st →
     res ∈ ls_results ls2 ∧
     is_Some (snapshot (heap (ls_world ls1)) st) ∧
     snapshot (heap (ls_world ls2)) st = snapshot (heap (ls_world ls1)) st) ∧
  (∀ r ls fl res,
     let step := eval_rule' now ctx r ls in
     r_flags r = Some fl →
     ls_results step.1 = ls_results ls ++ [res] → matched res = true →
     let h := heap (ls_world ls) in
     let st' := length (h_states h) in
     res_state res = Some st' ∧ ls_state step.1 = st' ∧
     snapshot h st' = None ∧
     snapshot (heap (ls_world step.1)) st' =
       Some (updated_state now fl (default no_object (h_states h !! ls_state ls))
               (length (h_flags h)) (length (h_history h)),
             updated_flags fl (state_flags h (ls_state ls)),
             updated_history fl (r_id r) now (state_history h (ls_state ls))) ∧
     heap_extends h (heap (ls_world step.1))).
Proof.
  intros Hcv Hctx hy Hel Hl1 ls2. split.
  - destruct (hydrate_valid now ctx w Hcv Hctx) as [_ Hv0]. fold hy in Hv0.
    assert (Hloop : evaluate_loop' now ctx w = eval_rules' now ctx l2 ls1).
    { unfold evaluate_loop. fold hy. destruct hy as [w1 st0]. simpl in *.
      by rewrite Hel, eval_rules_app, Hl1. }
    destruct (eval_rules_heap now ctx l1 (Build_LoopState hy.1 hy.2 [])) as (_ & Hv1 & Hres1);
      [exact Hv0 | intros ? ? Hin; by apply elem_of_nil in Hin |].
    rewrite Hl1 in Hv1, Hres1. simpl in Hv1, Hres1.
    destruct (eval_rules_heap now ctx l2 ls1 Hv1 Hres1) as (Hext & _ & _).
    intros res st Hin Hst. subst ls2. rewrite Hloop.
    pose proof (valid_state_snapshot _ _ (Hres1 res st Hin Hst)) as [x Hx].
    split; [|split; [by exists x|]].
    + destruct (eval_rules_break now ctx l2 ls1 _ _ (surjective_pairing _))
        as (new & -> & _). apply elem_of_app. by left.
    + rewrite Hx. by eapply snapshot_extends.
  - intros r ls fl res step Hfl Hres Hm h st'. subst step.
    destruct (eval_rule_cases now ctx r ls) as
      (c & [(_ & Hstep) | [(e & _ & Hstep) |
            [(v & t & _ & _ & Hstep) | (v & t & _ & _ & Hstep)]]]);
      cbv zeta in Hstep; rewrite Hstep in Hres |- *; simpl in Hres |- *.
    + rewrite <- (app_nil_r (ls_results ls)) in Hres at 1.
      apply app_inv_head in Hres. discriminate.
    + rewrite <- (app_nil_r (ls_results ls)) in Hres at 1.
      apply app_inv_head in Hres. discriminate.
    + apply app_inv_head in Hres. inversion Hres; subst res. discriminate.
    + apply app_inv_head in Hres. inversion Hres; subst res. clear Hres Hstep.
      rewrite (updateState_Some _ _ _ _ _ _ Hfl). simpl. fold h. fold st'.
      repeat split.
      * unfold snapshot. subst st'. by rewrite lookup_ge_None_2.
      * apply updated_heap_snapshot.
      * apply updated_heap_extends.
      * apply updated_heap_extends.
      * apply updated_heap_extends.
Qed.

(** *** Write-through of flag mutations (C10) *)

Lemma set_flags_notin b fls m f : f ∉ fls → set_flags b fls m !! f = m !! f.
Proof.
  unfold set_flags. revert m. induction fls as [|x fls IH]; intros m Hf; simpl; [reflexivity|].
  apply not_elem_of_cons in Hf. destruct Hf as [Hne Hf].
  rewrite IH by assumption. by rewrite lookup_insert_ne.
Qed.

Lemma set_flags_in b fls m f : f ∈ fls → set_flags b fls m !! f = Some b.
Proof.
  unfold set_flags. revert m. induction fls as [|x fls IH]; intros m Hf; simpl.
  - by apply elem_of_nil in Hf.
  - destruct (decide (f ∈ fls)) as [Hin|Hnin]; [by apply IH|].
    apply elem_of_cons in Hf. destruct Hf as [->|Hf]; [|contradiction].
    pose proof (set_flags_notin b fls (<[x:=b]> m) x Hnin) as H. unfold set_flags in H.
    rewrite H. apply lookup_insert_eq.
Qed.

Lemma updated_flags_written fl m : flags_written fl (updated_flags fl m).
Proof.
  unfold flags_written, updated_flags. split.
  - intros f Hf. by apply set_flags_in.
  - intros f Hset Hunset. rewrite set_flags_notin by assumption. by apply set_flags_in.
Qed.

Lemma state_flags_snapshot h st s m es :
  snapshot h st = Some (s, m, es) → state_flags h st = m.
Proof.
  unfold snapshot, state_flags, flags_at. intros H.
  destruct (h_states h !! st) as [s'|]; [|discriminate]. simpl in H.
  destruct (h_flags h !! cs_flags s') as [m'|]; [|discriminate]. simpl in H.
  destruct (h_history h !! cs_flagHistory s') as [es'|]; [|discriminate].
  simpl in H. by inversion H.
Qed.

Lemma last_flag_write_snoc results x res fl :
  last_flag_write (results ++ [x]) res fl →
  (res = x ∧ matched x = true ∧ ∃ r, rule x = Some r ∧ r_flags r = Some fl) ∨
  (last_flag_write results res fl ∧
   ∀ r, matched x = true → rule x = Some r → r_flags r = None).
Proof.
  intros (pre & post & r & Hsplit & Hm & Hr & Hfl & Hlast).
  destruct post as [|y post _] using rev_ind.
  - change (pre ++ [res]) with (pre ++ [res]) in Hsplit.
    apply app_inj_tail in Hsplit. destruct Hsplit as [-> ->]. left. eauto.
  - rewrite app_comm_cons, app_assoc in Hsplit.
    apply app_inj_tail in Hsplit. destruct Hsplit as [-> ->]. right. split.
    + exists pre, post, r. repeat split; try assumption.
      intros res' r' Hin. apply Hlast. apply elem_of_app. by left.
    + intros r' Hm' Hr'. eapply Hlast; [|exact Hm'|exact Hr'].
      apply elem_of_app. right. by apply list_elem_of_singleton.
Qed.

Lemma eval_rule_written_through now ctx r ls :
  written_through now ctx ls → written_through now ctx (eval_rule' now ctx r ls).1.
Proof.
  intros Hinv.
  destruct (eval_rule_cases now ctx r ls) as
    (c & [(_ & ->) | [(e & _ & ->) | [(v & t & _ & _ & ->) | (v & t & _ & _ & ->)]]]);
    simpl.
  - exact Hinv.
  - exact Hinv.
  - intros res fl Hlast. simpl in Hlast.
    apply last_flag_write_snoc in Hlast. destruct Hlast as [(_ & Hm & _) | [Hlast _]];
      [discriminate|]. exact (Hinv res fl Hlast).
  - intros res fl Hlast. simpl in Hlast.
    apply last_flag_write_snoc in Hlast.
    destruct Hlast as [(-> & _ & r' & Hr' & Hfl) | [Hlast Hnone]].
    + simpl in Hr'. inversion Hr'; subst r'. clear Hr'.
      rewrite (updateState_Some _ _ _ _ _ _ Hfl). simpl.
      split; [reflexivity|]. split; [|split; [|split]].
      * rewrite StateCache_markDirty_get, decide_True by reflexivity.
        by rewrite StateCache_set_get.
      * unfold StateCache.markDirty. rewrite StateCache_set_get. simpl.
        apply elem_of_union. left. by apply elem_of_singleton.
      * apply updated_heap_valid.
      * erewrite state_flags_snapshot by apply updated_heap_snapshot.
        apply updated_flags_written.
    + rewrite (updateState_None _ _ _ _ _ (Hnone r eq_refl eq_refl)). simpl.
      exact (Hinv res fl Hlast).
Qed.

(** C10. Take an [evaluate] call, with or without a state passed in
    [ctx.state] (and whether it returns or throws), and the last result that
    a rule with flags has fired in it. The state object this result carries
    is the one the cache holds under the call's key when the call ends,
    stamped with the time of the call and marked dirty, with the key queued
    for the batched write; its flag map shows the rule's writes. A later
    call for a tuple with the same key, without [ctx.state], less than the
    cache TTL after the first, made in the world the first call left or in
    any later world that still has this cache entry, hydrates exactly this
    state object from the cache, and so pre-filters and evaluates its rules
    against these flags. *)
Theorem flags_written_through now1 ctx1 w res fl :
  last_flag_write (ls_results (evaluate_loop' now1 ctx1 w).1) res fl →
  let w' := (evaluate' now1 ctx1 w).1 in
  ∃ st, res_state res = Some st ∧
    let key := getKey (c_tokenId ctx1) (c_conversationId ctx1) (c_accountId ctx1) in
    amap_get key (StateCache.cache (stateCache w')) =
      Some {| StateCache.state := st; StateCache.lastAccess := now1;
              StateCache.dirty := true |} ∧
    key ∈ StateCache.writeQueue (stateCache w') ∧
    flags_written fl (state_flags (heap w') st) ∧
    ∀ w'' now2 ctx2,
      amap_get key (StateCache.cache (stateCache w'')) =
        amap_get key (StateCache.cache (stateCache w')) →
      heap_extends (heap w') (heap w'') →
      getKey (c_tokenId ctx2) (c_conversationId ctx2) (c_accountId ctx2) = key →
      c_state ctx2 = None → now2 - now1 < StateCache.ttl →
      let hy := hydrate stateProvider now2 ctx2 w'' in
      hy.2 = st ∧ heap hy.1 = heap w'' ∧
      flags_written fl (state_flags (heap hy.1) hy.2) ∧
      evaluate_loop' now2 ctx2 w'' =
        eval_rules' now2 ctx2 (preFilterRules (rules w'') (heap w'') st)
          (Build_LoopState hy.1 st []).
Proof.
  intros Hlast w'.
  assert (Hinv : written_through now1 ctx1 (evaluate_loop' now1 ctx1 w).1).
  { unfold evaluate_loop. destruct (hydrate stateProvider now1 ctx1 w) as [w1 st1].
    apply (eval_rules_invariant (written_through now1 ctx1)).
    - intros res0 fl0 (pre & post & r & Hsplit & _). simpl in Hsplit. by destruct pre.
    - intros r ls0 _. apply eval_rule_written_through. }
  assert (Hw' : stateCache w' = stateCache (ls_world (evaluate_loop' now1 ctx1 w).1) ∧
                heap w' = heap (ls_world (evaluate_loop' now1 ctx1 w).1)).
  { subst w'. unfold evaluate. destruct (evaluate_loop' now1 ctx1 w) as [ls [| |e]];
      simpl; destruct (present stateProvider); by split. }
  destruct Hw' as (Hsc & Hheap).
  destruct (Hinv res fl Hlast) as (Hst & Hget & Hq & Hvalid & Hflags).
  exists (ls_state (evaluate_loop' now1 ctx1 w).1). rewrite Hsc, Hheap.
  split; [assumption|]. split; [assumption|]. split; [assumption|]. split; [assumption|].
  intros w'' now2 ctx2 Hsame Hext Hkey Hnone Hlt.
  assert (Hhy : hydrate stateProvider now2 ctx2 w'' =
    (with_stateCache (StateCache.get now2 (c_tokenId ctx2) (c_conversationId ctx2)
                        (c_accountId ctx2) (stateCache w'')).1 w'',
     ls_state (evaluate_loop' now1 ctx1 w).1)).
  { unfold hydrate. rewrite Hnone. unfold StateCache.get. rewrite Hkey, Hsame, Hget. simpl.
    destruct (Z.ltb_spec (now2 - now1) StateCache.ttl); [reflexivity | lia]. }
  cbv zeta. unfold evaluate_loop. rewrite Hhy. simpl.
  split; [reflexivity|]. split; [reflexivity|]. split; [|reflexivity].
  by rewrite (state_flags_extends _ _ _ Hext Hvalid).
Qed.

(** *** Isolation of tuples with different keys (C6) *)

Lemma check_other now r tok conv acc (trackers : ThresholdTracker.t) key :
  key ≠ getKey tok conv acc →
  (ThresholdTracker.check now r tok conv acc trackers).1 !! key = trackers !! key.
Proof.
  intros Hne. unfold ThresholdTracker.check.
  destruct (_ || _); [reflexivity|].
  destruct (_ !! r_id r) as [e|]; [|by simpl; rewrite lookup_insert_ne].
  destruct (_ >? _); [by simpl; rewrite lookup_insert_ne|].
  destruct (_ >=? _); simpl; by rewrite lookup_insert_ne.
Qed.

Lemma check_agree now r tok conv acc (t1 t2 : ThresholdTracker.t) :
  t1 !! getKey tok conv acc = t2 !! getKey tok conv acc →
  (ThresholdTracker.check now r tok conv acc t1).2 =
    (ThresholdTracker.check now r tok conv acc t2).2 ∧
  (ThresholdTracker.check now r tok conv acc t1).1 !! getKey tok conv acc =
    (ThresholdTracker.check now r tok conv acc t2).1 !! getKey tok conv acc.
Proof.
  intros H. unfold ThresholdTracker.check. rewrite H.
  destruct (_ || _); [by split|].
  destruct (_ !! r_id r) as [e|]; [|by simpl; rewrite !lookup_insert_eq].
  destruct (_ >? _); [by simpl; rewrite !lookup_insert_eq|].
  destruct (_ >=? _); simpl; by rewrite !lookup_insert_eq.
Qed.

Lemma has_room_set now t c st a sc :
  has_room (getKey t c a) sc → has_room (getKey t c a) (StateCache.set now t c st a sc).
Proof.
  intros [Hlt Hroom]. unfold has_room.
  rewrite StateCache_set_length by assumption. rewrite StateCache_set_get. simpl.
  destruct (amap_get (getKey t c a) (StateCache.cache sc)); simpl in *.
  - split; [assumption | by left].
  - destruct Hroom as [?|?]; [discriminate|]. split; [lia | by left].
Qed.

Lemma has_room_markDirty t c a sc :
  has_room (getKey t c a) sc → has_room (getKey t c a) (StateCache.markDirty t c a sc).
Proof.
  unfold has_room. rewrite StateCache_markDirty_length, StateCache_markDirty_get.
  rewrite decide_True by reflexivity. by destruct (amap_get _ _).
Qed.

Lemma has_room_get now t c a sc :
  has_room (getKey t c a) sc → has_room (getKey t c a) (StateCache.get now t c a sc).1.
Proof.
  unfold has_room. rewrite StateCache_get_length, StateCache_get_get.
  rewrite decide_True by reflexivity. by destruct (amap_get _ _).
Qed.

Lemma untouched_outside_refl key w : untouched_outside key w w.
Proof. split; [done|]. split; [apply heap_extends_refl | done]. Qed.

Lemma untouched_outside_trans key w0 w1 w2 :
  untouched_outside key w0 w1 → untouched_outside key w1 w2 → untouched_outside key w0 w2.
Proof.
  intros (Ht1 & Hh1 & Hc1) (Ht2 & Hh2 & Hc2). split; [|split].
  - intros key2 Hne. by rewrite Ht2, Ht1.
  - by eapply heap_extends_trans.
  - intros Hroom. destruct (Hc1 Hroom) as [Hroom1 Hget1].
    destruct (Hc2 Hroom1) as [Hroom2 Hget2]. split; [assumption|].
    intros key2 Hne. by rewrite Hget2, Hget1.
Qed.

Lemma updateState_untouched now r ctx st w :
  untouched_outside (getKey (c_tokenId ctx) (c_conversationId ctx) (c_accountId ctx))
    w (updateState now r ctx st w).1.
Proof.
  destruct (r_flags r) as [fl|] eqn:Hfl.
  - rewrite (updateState_Some _ _ _ _ _ _ Hfl). simpl. split; [done|]. split.
    + apply updated_heap_extends.
    + simpl. intros Hroom. split.
      * by apply has_room_markDirty, has_room_set.
      * intros key2 Hne. rewrite StateCache_markDirty_get, decide_False by assumption.
        apply StateCache_set_other; [apply Hroom | assumption].
  - rewrite (updateState_None _ _ _ _ _ Hfl). apply untouched_outside_refl.
Qed.

Lemma hydrate_untouched now ctx w :
  untouched_outside (getKey (c_tokenId ctx) (c_conversationId ctx) (c_accountId ctx))
    w (hydrate stateProvider now ctx w).1.
Proof.
  unfold hydrate. destruct (c_state ctx); [apply untouched_outside_refl|].
  pose proof (has_room_get now (c_tokenId ctx) (c_conversationId ctx) (c_accountId ctx)
                (stateCache w)) as Hroom1.
  pose proof (StateCache_get_get now (c_tokenId ctx) (c_conversationId ctx) (c_accountId ctx)
                (stateCache w)) as Hget1.
  destruct (StateCache.get now (c_tokenId ctx) (c_conversationId ctx) (c_accountId ctx)
              (stateCache w)) as [sc cached]. simpl in Hroom1, Hget1.
  assert (H1 : untouched_outside
                 (getKey (c_tokenId ctx) (c_conversationId ctx) (c_accountId ctx))
                 w (with_stateCache sc w)).
  { split; [done|]. split; [apply heap_extends_refl|]. simpl. intros Hroom.
    split; [auto|]. intros key2 Hne. by rewrite Hget1, decide_False. }
  destruct cached as [st|]; [exact H1|].
  assert (Hsyn : untouched_outside
                   (getKey (c_tokenId ctx) (c_conversationId ctx) (c_accountId ctx))
                   w (synthesize now ctx (with_stateCache sc w)).1).
  { eapply untouched_outside_trans; [exact H1|]. unfold synthesize. simpl.
    split; [done|]. split; [repeat split; simpl; by apply prefix_app_r|].
    simpl. intros Hroom. split; [by apply has_room_set|].
    intros key2 Hne. apply StateCache_set_other; [apply Hroom | assumption]. }
  destruct stateProvider as [get|]; [destruct (get _ _ _) as [img|]|]; try exact Hsyn.
  eapply untouched_outside_trans; [exact H1|].
  pose proof (import_state_valid img (heap w)) as [Hext _].
  change (heap (with_stateCache sc w)) with (heap w).
  destruct (import_state img (heap w)) as [st h]. simpl in *.
  split; [done|]. split; [exact Hext | simpl; auto].
Qed.

Lemma eval_rule_untouched now ctx r ls :
  untouched_outside (getKey (c_tokenId ctx) (c_conversationId ctx) (c_accountId ctx))
    (ls_world ls) (ls_world (eval_rule' now ctx r ls).1).
Proof.
  assert (Hfield : ∀ c t,
    (∀ key2, key2 ≠ getKey (c_tokenId ctx) (c_conversationId ctx) (c_accountId ctx) →
       t !! key2 = thresholdTracker (ls_world ls) !! key2) →
    untouched_outside (getKey (c_tokenId ctx) (c_conversationId ctx) (c_accountId ctx))
      (ls_world ls) (with_thresholdTracker t (with_regexCache c (ls_world ls)))).
  { intros c t Ht. split; [exact Ht|]. split; [apply heap_extends_refl | done]. }
  destruct (eval_rule_cases now ctx r ls) as
    (c & [(_ & ->) | [(e & _ & ->) | [(v & t & _ & Hcheck & ->) | (v & t & _ & Hcheck & ->)]]]);
    simpl.
  - split; [done|]. split; [apply heap_extends_refl | done].
  - split; [done|]. split; [apply heap_extends_refl | done].
  - apply Hfield. intros key2 Hne.
    change t with (t, false).1. rewrite <- Hcheck. by apply check_other.
  - eapply untouched_outside_trans; [|apply updateState_untouched].
    apply Hfield. intros key2 Hne.
    change t with (t, true).1. rewrite <- Hcheck. by apply check_other.
Qed.

Lemma evaluate_untouched now ctx w :
  untouched_outside (getKey (c_tokenId ctx) (c_conversationId ctx) (c_accountId ctx))
    w (evaluate' now ctx w).1.
Proof.
  assert (Hloop : untouched_outside
            (getKey (c_tokenId ctx) (c_conversationId ctx) (c_accountId ctx))
            w (ls_world (evaluate_loop' now ctx w).1)).
  { unfold evaluate_loop.
    pose proof (hydrate_untouched now ctx w) as Hhy.
    destruct (hydrate stateProvider now ctx w) as [w1 st]. simpl in Hhy.
    apply (eval_rules_invariant (λ ls0, untouched_outside _ w (ls_world ls0)));
      [exact Hhy|].
    intros r ls0 _ H0. eapply untouched_outside_trans; [exact H0|].
    apply eval_rule_untouched. }
  unfold evaluate. destruct (evaluate_loop' now ctx w) as [ls [| |e]]; simpl in *;
    try exact Hloop; by destruct (present stateProvider).
Qed.

Lemma updateState_agree now r ctx st w1 w2 :
  let key := getKey (c_tokenId ctx) (c_conversationId ctx) (c_accountId ctx) in
  agree_on key w1 w2 →
  (updateState now r ctx st w1).2 = (updateState now r ctx st w2).2 ∧
  agree_on key (updateState now r ctx st w1).1 (updateState now r ctx st w2).1.
Proof.
  intros key (Hr & Hc & Hh & Ht & Hs).
  destruct (r_flags r) as [fl|] eqn:Hfl.
  - rewrite !(updateState_Some _ _ _ _ _ _ Hfl). simpl. rewrite Hh.
    split; [reflexivity|]. repeat split; simpl; try assumption; try by rewrite Hh.
    unfold key. rewrite !StateCache_markDirty_get, !decide_True by reflexivity.
    by rewrite !StateCache_set_get.
  - rewrite !(updateState_None _ _ _ _ _ Hfl). by repeat split.
Qed.

Lemma hydrate_agree now ctx w1 w2 :
  let key := getKey (c_tokenId ctx) (c_conversationId ctx) (c_accountId ctx) in
  agree_on key w1 w2 →
  (hydrate stateProvider now ctx w1).2 = (hydrate stateProvider now ctx w2).2 ∧
  agree_on key (hydrate stateProvider now ctx w1).1 (hydrate stateProvider now ctx w2).1.
Proof.
  intros key (Hr & Hc & Hh & Ht & Hs). unfold hydrate.
  destruct (c_state ctx); [by repeat split|].
  pose proof (StateCache_get_get now (c_tokenId ctx) (c_conversationId ctx) (c_accountId ctx)
                (stateCache w1) key) as Hg1.
  pose proof (StateCache_get_get now (c_tokenId ctx) (c_conversationId ctx) (c_accountId ctx)
                (stateCache w2) key) as Hg2.
  rewrite decide_True in Hg1, Hg2 by reflexivity. rewrite Hs in Hg1. rewrite <- Hg2 in Hg1.
  assert (Hres : (StateCache.get now (c_tokenId ctx) (c_conversationId ctx) (c_accountId ctx)
                    (stateCache w1)).2 =
                 (StateCache.get now (c_tokenId ctx) (c_conversationId ctx) (c_accountId ctx)
                    (stateCache w2)).2).
  { unfold StateCache.get. fold key. rewrite Hs.
    destruct (amap_get key (StateCache.cache (stateCache w2))) as [e|]; [|reflexivity].
    by destruct (_ <? _). }
  destruct (StateCache.get now (c_tokenId ctx) (c_conversationId ctx) (c_accountId ctx)
              (stateCache w1)) as [sc1 cached1].
  destruct (StateCache.get now (c_tokenId ctx) (c_conversationId ctx) (c_accountId ctx)
              (stateCache w2)) as [sc2 cached2].
  simpl in Hg1, Hres. subst cached2.
  destruct cached1 as [st|]; [by repeat split|].
  assert (Hsyn :
    (synthesize now ctx (with_stateCache sc1 w1)).2 =
      (synthesize now ctx (with_stateCache sc2 w2)).2 ∧
    agree_on key (synthesize now ctx (with_stateCache sc1 w1)).1
      (synthesize now ctx (with_stateCache sc2 w2)).1).
  { unfold synthesize. simpl. rewrite Hh. split; [reflexivity|].
    repeat split; simpl; try assumption.
    unfold key, StateCache.set. simpl. by rewrite !amap_get_set_eq. }
  destruct stateProvider as [get|]; [destruct (get _ _ _) as [img|]|]; try exact Hsyn.
  change (heap (with_stateCache sc1 w1)) with (heap w1).
  change (heap (with_stateCache sc2 w2)) with (heap w2). rewrite Hh.
  destruct (import_state img (heap w2)) as [st h]. by repeat split.
Qed.

Lemma eval_rule_agree now ctx r ls1 ls2 :
  let key := getKey (c_tokenId ctx) (c_conversationId ctx) (c_accountId ctx) in
  loops_agree key ls1 ls2 →
  (eval_rule' now ctx r ls1).2 = (eval_rule' now ctx r ls2).2 ∧
  loops_agree key (eval_rule' now ctx r ls1).1 (eval_rule' now ctx r ls2).1.
Proof.
  intros key ((Hr & Hc & Hh & Ht & Hs) & Hst & Hres). unfold eval_rule.
  rewrite Hc, Hst, Hres.
  destruct (run_stages' r (c_message ctx) (regexCache (ls_world ls2))) as [c [[v|]|e]].
  - cbn [thresholdTracker with_regexCache].
    destruct (check_agree now r (c_tokenId ctx) (c_conversationId ctx) (c_accountId ctx)
                _ _ Ht) as [Hb Ht'].
    destruct (check' ctx now r (thresholdTracker (ls_world ls1))) as [t1 b1].
    destruct (check' ctx now r (thresholdTracker (ls_world ls2))) as [t2 b2].
    simpl in Hb, Ht'. subst b2. destruct b1; simpl.
    + assert (Hag : agree_on key
                (with_thresholdTracker t1 (with_regexCache c (ls_world ls1)))
                (with_thresholdTracker t2 (with_regexCache c (ls_world ls2))))
        by by repeat split.
      destruct (updateState_agree now r ctx (ls_state ls2) _ _ Hag) as [Hu2 Hu1].
      destruct (updateState now r ctx (ls_state ls2)
                  (with_thresholdTracker t1 (with_regexCache c (ls_world ls1)))) as [u1 s1].
      destruct (updateState now r ctx (ls_state ls2)
                  (with_thresholdTracker t2 (with_regexCache c (ls_world ls2)))) as [u2 s2].
      simpl in Hu1, Hu2. subst s2. destruct Hu1 as (? & ? & ? & ? & ?).
      simpl. by repeat split.
    + by repeat split.
  - by repeat split.
  - by repeat split.
Qed.

Lemma eval_rules_agree now ctx rs ls1 ls2 :
  let key := getKey (c_tokenId ctx) (c_conversationId ctx) (c_accountId ctx) in
  loops_agree key ls1 ls2 →
  (eval_rules' now ctx rs ls1).2 = (eval_rules' now ctx rs ls2).2 ∧
  loops_agree key (eval_rules' now ctx rs ls1).1 (eval_rules' now ctx rs ls2).1.
Proof.
  intros key. revert ls1 ls2. induction rs as [|r rs IH]; intros ls1 ls2 Hag; simpl.
  - by split.
  - destruct (eval_rule_agree now ctx r ls1 ls2 Hag) as [Hk Hag'].
    destruct (eval_rule' now ctx r ls1) as [ls1' k1].
    destruct (eval_rule' now ctx r ls2) as [ls2' k2].
    simpl in Hk, Hag'. subst k2. destruct k1; [by apply IH | by split..].
Qed.

Lemma evaluate_agree now ctx w1 w2 :
  let key := getKey (c_tokenId ctx) (c_conversationId ctx) (c_accountId ctx) in
  agree_on key w1 w2 →
  (evaluate' now ctx w1).2 = (evaluate' now ctx w2).2 ∧
  agree_on key (evaluate' now ctx w1).1 (evaluate' now ctx w2).1.
Proof.
  intros key Hag.
  assert (Hloop :
    (evaluate_loop' now ctx w1).2 = (evaluate_loop' now ctx w2).2 ∧
    loops_agree key (evaluate_loop' now ctx w1).1 (evaluate_loop' now ctx w2).1).
  { unfold evaluate_loop.
    destruct (hydrate_agree now ctx w1 w2 Hag) as [Hst Hag1].
    destruct (hydrate stateProvider now ctx w1) as [w1' st1].
    destruct (hydrate stateProvider now ctx w2) as [w2' st2].
    simpl in Hst, Hag1. subst st2.
    destruct Hag1 as (Hr & Hc & Hh & Ht & Hs). rewrite Hr, Hh.
    apply eval_rules_agree. by repeat split. }
  unfold evaluate.
  destruct (evaluate_loop' now ctx w1) as [ls1 k1].
  destruct (evaluate_loop' now ctx w2) as [ls2 k2].
  destruct Hloop as [Hk ((Hr & Hc & Hh & Ht & Hs) & Hst & Hres)]. simpl in *. subst k2.
  destruct k1; simpl; rewrite ?Hres; (split; [reflexivity|]);
    destruct (present stateProvider); by repeat split.
Qed.


(** *** Order of the results *)

Lemma Forall_sublist {A} (P : A → Prop) (l1 l2 : list A) :
  sublist l1 l2 → Forall P l2 → Forall P l1.
Proof.
  induction 1 as [|x l1 l2 _ IH|x l1 l2 _ IH]; intros Hall.
  - constructor.
  - inversion Hall; subst. constructor; auto.
  - inversion Hall; subst. auto.
Qed.

Lemma nondecreasing_sublist {A} (key : A → Z) (l1 l2 : list A) :
  sublist l1 l2 → nondecreasing key l2 → nondecreasing key l1.
Proof.
  induction 1 as [|x l1 l2 Hsub IH|x l1 l2 _ IH]; simpl.
  - done.
  - intros [Hall Hnd]. split; [by eapply Forall_sublist | auto].
  - intros [_ Hnd]. auto.
Qed.

Lemma filter_sublist {A} (f : A → bool) (l : list A) : sublist (List.filter f l) l.
Proof.
  induction l as [|x l IH]; simpl; [constructor|].
  destruct (f x); by constructor.
Qed.

(** The rules of the results the loop appends are, in order, some of the
    rules of the list. *)
Lemma eval_rules_sublist now ctx rs ls :
  ∃ new rs', ls_results (eval_rules' now ctx rs ls).1 = ls_results ls ++ new ∧
             map rule new = map Some rs' ∧ sublist rs' rs.
Proof.
  revert ls. induction rs as [|r rest IH]; intros ls; simpl.
  - exists [], []. split; [by rewrite app_nil_r|]. split; [reflexivity | constructor].
  - destruct (eval_rule_cases now ctx r ls) as
      (c & [(_ & ->) | [(e & _ & ->) | [(v & t & _ & _ & ->) | (v & t & _ & _ & ->)]]]);
      cbv zeta.
    + destruct (IH (Build_LoopState (with_regexCache c (ls_world ls)) (ls_state ls)
                      (ls_results ls))) as (new & rs' & Hres & Hmap & Hsub).
      exists new, rs'. split; [exact Hres|]. split; [exact Hmap | by constructor].
    + exists [], []. simpl. split; [by rewrite app_nil_r|].
      split; [reflexivity | apply sublist_nil_l].
    + match goal with |- context [eval_rules' now ctx rest ?ls1] =>
        destruct (IH ls1) as (new & rs' & Hres & Hmap & Hsub) end.
      exists (gated_result r :: new), (r :: rs'). simpl in Hres.
      split; [by rewrite Hres, <- app_assoc|].
      split; [simpl; by rewrite Hmap | by constructor].
    + destruct (critical_block r).
      * eexists [_], [r]. simpl. split; [reflexivity|].
        split; [reflexivity|]. constructor. apply sublist_nil_l.
      * match goal with |- context [eval_rules' now ctx rest ?ls1] =>
          destruct (IH ls1) as (new & rs' & Hres & Hmap & Hsub) end.
        eexists (_ :: new), (r :: rs'). simpl in Hres.
        split; [by rewrite Hres, <- app_assoc|].
        split; [simpl; by rewrite Hmap | by constructor].
Qed.

(** With the key the code computes, results come in non-decreasing order:
    when the loaded rules are sorted by [getRulePriority], as [loadRules]
    leaves them, so are the rules of the results of a call. *)
Lemma results_in_code_priority_order now ctx w :
  nondecreasing getRulePriority (rules w) →
  ∃ rs, map rule (ls_results (evaluate_loop' now ctx w).1) = map Some rs ∧
        nondecreasing getRulePriority rs.
Proof.
  intros Hsorted. unfold evaluate_loop.
  pose proof (hydrate_rules now ctx w) as Hrules.
  destruct (hydrate stateProvider now ctx w) as [w1 st]. simpl in Hrules.
  destruct (eval_rules_sublist now ctx (preFilterRules (rules w1) (heap w1) st)
              (Build_LoopState w1 st [])) as (new & rs' & -> & Hmap & Hsub).
  exists rs'. split; [exact Hmap|].
  eapply nondecreasing_sublist; [exact Hsub|].
  eapply nondecreasing_sublist; [apply filter_sublist|]. by rewrite Hrules.
Qed.

(** *** The invariants hold in every world the engine reaches *)

Lemma StateCache_markDirty_state t c a sc key e :
  amap_get key (StateCache.cache (StateCache.markDirty t c a sc)) = Some e →
  ∃ e0, amap_get key (StateCache.cache sc) = Some e0 ∧
        StateCache.state e0 = StateCache.state e.
Proof.
  rewrite StateCache_markDirty_get. destruct (decide _) as [Heq|Hne]; [|eauto].
  destruct (amap_get key (StateCache.cache sc)) as [e0|]; [|discriminate].
  simpl. intros [= <-]. eauto.
Qed.

Lemma StateCache_get_state now t c a sc key e :
  amap_get key (StateCache.cache (StateCache.get now t c a sc).1) = Some e →
  ∃ e0, amap_get key (StateCache.cache sc) = Some e0 ∧
        StateCache.state e0 = StateCache.state e.
Proof.
  rewrite StateCache_get_get. destruct (decide _) as [Heq|Hne]; [|eauto].
  destruct (amap_get key (StateCache.cache sc)) as [e0|]; [|discriminate].
  intros [= <-]. eauto.
Qed.

Lemma updateState_cache_valid now r ctx st w :
  cache_valid w → cache_valid (updateState now r ctx st w).1.
Proof.
  intros Hcv. destruct (r_flags r) as [fl|] eqn:Hfl.
  - rewrite (updateState_Some _ _ _ _ _ _ Hfl). intros key e He. simpl in He |- *.
    apply StateCache_markDirty_state in He. destruct He as (e0 & He0 & <-).
    apply StateCache_set_inv in He0. destruct He0 as [[_ ->] | He0].
    + apply updated_heap_valid.
    + eapply valid_state_extends; [apply updated_heap_extends | by eapply Hcv].
  - by rewrite (updateState_None _ _ _ _ _ Hfl).
Qed.

Lemma eval_rule_cache_valid now ctx r ls :
  cache_valid (ls_world ls) → cache_valid (ls_world (eval_rule' now ctx r ls).1).
Proof.
  intros Hcv.
  destruct (eval_rule_cases now ctx r ls) as
    (c & [(_ & ->) | [(e & _ & ->) | [(v & t & _ & _ & ->) | (v & t & _ & _ & ->)]]]);
    simpl; try exact Hcv.
  by apply updateState_cache_valid.
Qed.

Lemma hydrate_cache_valid now ctx w :
  cache_valid w → cache_valid (hydrate stateProvider now ctx w).1.
Proof.
  intros Hcv. unfold hydrate. destruct (c_state ctx); [exact Hcv|].
  pose proof (StateCache_get_state now (c_tokenId ctx) (c_conversationId ctx)
                (c_accountId ctx) (stateCache w)) as Hget.
  destruct (StateCache.get now (c_tokenId ctx) (c_conversationId ctx) (c_accountId ctx)
              (stateCache w)) as [sc cached]. simpl in Hget.
  assert (Hcv1 : cache_valid (with_stateCache sc w)).
  { intros key e He. simpl in He |- *. destruct (Hget key e He) as (e0 & He0 & <-).
    by eapply Hcv. }
  destruct cached as [st|]; [exact Hcv1|].
  assert (Hsyn : cache_valid (synthesize now ctx (with_stateCache sc w)).1).
  { pose proof (synthesize_valid now ctx (with_stateCache sc w)) as [Hext Hvalid].
    intros key e He. unfold synthesize in He. simpl in He.
    apply StateCache_set_inv in He. destruct He as [[_ ->] | He].
    - exact Hvalid.
    - eapply valid_state_extends; [exact Hext | by eapply Hcv1]. }
  destruct stateProvider as [get|]; [destruct (get _ _ _) as [img|]|]; try exact Hsyn.
  pose proof (import_state_valid img (heap w)) as [Hext _].
  change (heap (with_stateCache sc w)) with (heap w).
  destruct (import_state img (heap w)) as [st h]. simpl in *.
  intros key e He. simpl in He |- *.
  eapply valid_state_extends; [exact Hext | by eapply Hcv1].
Qed.

(** [evaluate] keeps the invariants, so they hold after any sequence of
    calls on a new engine. *)
Lemma evaluate_world_ok now ctx w :
  world_ok RegExp_new w → world_ok RegExp_new (evaluate' now ctx w).1.
Proof.
  intros [Hc Hcv]. split; [by apply evaluate_sound|].
  assert (Hloop : cache_valid (ls_world (evaluate_loop' now ctx w).1)).
  { unfold evaluate_loop.
    pose proof (hydrate_cache_valid now ctx w Hcv) as Hhy.
    destruct (hydrate stateProvider now ctx w) as [w1 st]. simpl in Hhy.
    apply (eval_rules_invariant (λ ls0, cache_valid (ls_world ls0))); [exact Hhy|].
    intros r ls0 _. apply eval_rule_cache_valid. }
  unfold evaluate. destruct (evaluate_loop' now ctx w) as [ls [| |e]]; simpl in *;
    try exact Hloop; by destruct (present stateProvider).
Qed.

(** * Further properties of the engine *)

(** ** loadRules *)

Lemma sort_insert_Permutation {A} (key : A → Z) x l : sort_insert key x l ≡ₚ x :: l.
Proof.
  induction l as [|y ys IH]; simpl; [reflexivity|].
  destruct (key x <=? key y); [reflexivity|].
  rewrite IH. apply perm_swap.
Qed.

Lemma sort_by_Permutation {A} (key : A → Z) l : sort_by key l ≡ₚ l.
Proof.
  induction l as [|x xs IH]; simpl; [reflexivity|].
  rewrite sort_insert_Permutation. by rewrite IH.
Qed.

(** Insertion keeps the elements of every key in their order. *)
Lemma sort_insert_stable {A} (key : A → Z) k x l :
  List.filter (λ y, bool_decide (key y = k)) (sort_insert key x l) =
  List.filter (λ y, bool_decide (key y = k)) (x :: l).
Proof.
  induction l as [|y ys IH]; [reflexivity|]. simpl sort_insert.
  destruct (Z.leb_spec (key x) (key y)) as [Hle|Hgt]; [reflexivity|].
  change (List.filter ?f (y :: ?l)) with (if f y then y :: List.filter f l else List.filter f l).
  rewrite IH. simpl.
  destruct (bool_decide_reflect (key y = k)) as [Hy|Hy];
    destruct (bool_decide_reflect (key x = k)) as [Hx|Hx]; try reflexivity.
  lia.
Qed.

Lemma sort_by_stable {A} (key : A → Z) k l :
  List.filter (λ y, bool_decide (key y = k)) (sort_by key l) =
  List.filter (λ y, bool_decide (key y = k)) l.
Proof.
  induction l as [|x xs IH]; [reflexivity|]. simpl sort_by.
  rewrite sort_insert_stable. simpl. by rewrite IH.
Qed.

(** X1. [loadRules] keeps exactly the enabled rules, each as often as it
    was given, in non-decreasing order of the key [getRulePriority]
    computes, and rules with the same key stay in the order they were given
    in; [getRuleCount] is the number of enabled rules. *)
Theorem loadRules_sorted_stable rs :
  loadRules rs ≡ₚ List.filter r_enabled rs ∧
  nondecreasing getRulePriority (loadRules rs) ∧
  (∀ k, List.filter (λ r, bool_decide (getRulePriority r = k)) (loadRules rs) =
        List.filter (λ r, bool_decide (getRulePriority r = k)) (List.filter r_enabled rs)) ∧
  getRuleCount (loadRules rs) = length (List.filter r_enabled rs).
Proof.
  unfold loadRules. split; [apply sort_by_Permutation|].
  split; [apply sort_by_nondecreasing|].
  split; [intros k; apply sort_by_stable|].
  unfold getRuleCount. by rewrite sort_by_Permutation.
Qed.

(** ** The results of a call *)

Lemma elem_of_map_Some {A} (x : A) (l : list A) : Some x ∈ map Some l → x ∈ l.
Proof.
  intros H. apply list_elem_of_fmap in H. destruct H as (y & [= ->] & Hy). exact Hy.
Qed.

Lemma evaluate_loop_sublist now ctx w :
  let hy := hydrate stateProvider now ctx w in
  ∃ rs, map rule (ls_results (evaluate_loop' now ctx w).1) = map Some rs ∧
        sublist rs (preFilterRules (rules w) (heap hy.1) hy.2).
Proof.
  unfold evaluate_loop.
  pose proof (hydrate_rules now ctx w) as Hrules.
  destruct (hydrate stateProvider now ctx w) as [w1 st]. simpl in *.
  destruct (eval_rules_sublist now ctx (preFilterRules (rules w1) (heap w1) st)
              (Build_LoopState w1 st [])) as (new & rs' & -> & Hmap & Hsub).
  exists rs'. rewrite <- Hrules. by split.
Qed.

(** X2. The results of a call follow the eligible rules: their rules are,
    in order, a subsequence of the loaded rules that pass the flag
    pre-filter on the hydrated state. So a loaded rule occurs in the results
    at most as often as in the rule list, and results never come out of
    rule order. *)
Theorem results_follow_eligible_rules now ctx w :
  let hy := hydrate stateProvider now ctx w in
  ∃ rs, map rule (ls_results (evaluate_loop' now ctx w).1) = map Some rs ∧
        sublist rs (preFilterRules (rules w) (heap hy.1) hy.2).
Proof. exact (evaluate_loop_sublist now ctx w). Qed.

(** X4. The flag gate: a rule with a non-empty [flags.check] has a result
    in a call only if every flag it checks is true in the state the call was
    hydrated with; flags that rules of the same call set do not count. *)
Theorem flag_gate now ctx w res r fl chk f :
  res ∈ ls_results (evaluate_loop' now ctx w).1 → rule res = Some r →
  r_flags r = Some fl → f_check fl = Some chk → f ∈ chk →
  let hy := hydrate stateProvider now ctx w in
  state_flags (heap hy.1) hy.2 !! f = Some true.
Proof.
  intros Hin Hrule Hfl Hchk Hf hy.
  destruct (evaluate_loop_sublist now ctx w) as (rs & Hmap & Hsub). fold hy in Hsub.
  assert (Hr : r ∈ rs).
  { apply elem_of_map_Some. rewrite <- Hmap, <- Hrule. by apply list_elem_of_fmap_2. }
  assert (Hall : Forall (λ r, eligible (heap hy.1) hy.2 r = true) rs).
  { eapply Forall_sublist; [exact Hsub|]. apply Forall_forall. intros x Hx.
    unfold preFilterRules in Hx. rewrite list_elem_of_In, filter_In in Hx. tauto. }
  rewrite Forall_forall in Hall. specialize (Hall r Hr).
  unfold eligible in Hall. rewrite Hfl, Hchk in Hall.
  destruct chk as [|f0 chk]; [by apply elem_of_nil in Hf|].
  rewrite forallb_forall in Hall. rewrite list_elem_of_In in Hf.
  specialize (Hall f Hf). by apply bool_decide_eq_true in Hall.
Qed.

Lemma evaluate_rules now ctx w : rules (evaluate' now ctx w).1 = rules w.
Proof.
  assert (Hloop : rules (ls_world (evaluate_loop' now ctx w).1) = rules w).
  { unfold evaluate_loop.
    pose proof (hydrate_rules now ctx w) as Hhy.
    destruct (hydrate stateProvider now ctx w) as [w1 st]. simpl in Hhy.
    apply (eval_rules_invariant (λ ls0, rules (ls_world ls0) = rules w)); [exact Hhy|].
    intros r ls0 _ H0.
    destruct (eval_rule_cases now ctx r ls0) as
      (c & [(_ & ->) | [(e & _ & ->) | [(v & t & _ & _ & ->) | (v & t & _ & _ & ->)]]]);
      simpl; try exact H0.
    by rewrite updateState_rules. }
  unfold evaluate. destruct (evaluate_loop' now ctx w) as [ls [| |e]]; simpl in *;
    try exact Hloop; by destruct (present stateProvider).
Qed.


(** X3. With the rules loaded by [loadRules], the results of a call come
    in non-decreasing order of the key [getRulePriority] computes. *)
Theorem results_in_priority_order now ctx w rs :
  rules w = loadRules rs →
  ∃ rs', map rule (ls_results (evaluate_loop' now ctx w).1) = map Some rs' ∧
         nondecreasing getRulePriority rs'.
Proof.
  intros Hload. apply results_in_code_priority_order.
  rewrite Hload. apply loadRules_nondecreasing.
Qed.

(** ** StateCache *)

(** X6. [set] then [get] under the same tuple: before the TTL has passed
    since the [set], [get] returns the state that was set and stamps the
    entry with the time of the [get]; from the TTL on it returns nothing and
    leaves the entry, still stamped with the time of the [set], in the cache.
    Either way the entry is not dirty, and the entries under other keys and
    the size of the cache are as [set] left them. *)
Theorem StateCache_set_then_get now now' t c a st sc :
  let key := getKey t c a in
  let sc1 := StateCache.set now t c st a sc in
  let g := StateCache.get now' t c a sc1 in
  g.2 = (if now' - now <? StateCache.ttl then Some st else None) ∧
  amap_get key (StateCache.cache g.1) =
    Some {| StateCache.state := st;
            StateCache.lastAccess := if now' - now <? StateCache.ttl then now' else now;
            StateCache.dirty := false |} ∧
  (∀ key', key' ≠ key →
     amap_get key' (StateCache.cache g.1) = amap_get key' (StateCache.cache sc1)) ∧
  length (StateCache.cache g.1) = length (StateCache.cache sc1).
Proof.
  intros key sc1 g. subst g.
  pose proof (StateCache_set_get now t c st a sc) as Hset. fold sc1 in Hset. fold key in Hset.
  split; [|split; [|split]].
  - unfold StateCache.get. fold key. rewrite Hset. simpl. by destruct (_ <? _).
  - rewrite StateCache_get_get. fold key. rewrite decide_True by reflexivity.
    by rewrite Hset.
  - intros key' Hne. rewrite StateCache_get_get. fold key. by rewrite decide_False.
  - apply StateCache_get_length.
Qed.


Lemma sort_by_head_min {A} (key : A → Z) (l : list A) o :
  head (sort_by key l) = Some o →
  o ∈ l ∧ (∀ e, e ∈ l → key o ≤ key e) ∧
  head (List.filter (λ e, bool_decide (key e = key o)) l) = Some o.
Proof.
  intros Hhead.
  pose proof (sort_by_nondecreasing key l) as Hsorted.
  pose proof (sort_by_Permutation key l) as Hperm.
  pose proof (sort_by_stable key (key o) l) as Hstable.
  destruct (sort_by key l) as [|x xs]; [discriminate|].
  simpl in Hhead. inversion Hhead; subst x. destruct Hsorted as [Hall _].
  split; [|split].
  - rewrite <- Hperm. apply list_elem_of_here.
  - intros e He. rewrite <- Hperm in He. apply elem_of_cons in He.
    destruct He as [->|He]; [lia|]. rewrite Forall_forall in Hall. by apply Hall.
  - rewrite <- Hstable. simpl. by rewrite bool_decide_eq_true_2.
Qed.

Lemma amap_get_In {V} k (e : V) (l : list (string * V)) :
  (k, e) ∈ l → is_Some (amap_get k l).
Proof.
  induction l as [|[k0 v0] l IH]; intros Hin; [by apply elem_of_nil in Hin|].
  simpl. destruct (decide (k = k0)); [eauto|].
  apply elem_of_cons in Hin. destruct Hin as [[= -> ->]|Hin]; [done | auto].
Qed.

Lemma amap_get_Some_In {V} k (e : V) (l : list (string * V)) :
  amap_get k l = Some e → (k, e) ∈ l.
Proof.
  induction l as [|[k0 v0] l IH]; simpl; [done|].
  destruct (decide (k = k0)) as [->|Hne].
  - intros [= ->]. apply list_elem_of_here.
  - intros H. right. auto.
Qed.

Lemma amap_delete_length {V} k (l : list (string * V)) :
  (length (amap_delete k l) ≤ length l)%nat ∧
  (is_Some (amap_get k l) → (length (amap_delete k l) < length l)%nat).
Proof.
  induction l as [|[k0 v0] l [IH1 IH2]]; simpl.
  - split; [lia|]. intros [? ?]. discriminate.
  - destruct (decide (k = k0)); simpl; split; try lia.
    intros H. specialize (IH2 H). lia.
Qed.

(** X8. Eviction. Below [maxSize] entries, [set] evicts nothing. At
    [maxSize] or above, [set] first drops one entry, whether or not it is
    dirty or queued for writing, and even when the key being set is already
    in the cache: the entry with the least [lastAccess], the earliest
    inserted among equals. Its key then has no entry (unless it is the key
    being set), every other key keeps its entry, and the write queue is
    untouched. *)
Theorem StateCache_set_evicts_oldest now t c a st sc :
  let key := getKey t c a in
  let sc1 := StateCache.set now t c st a sc in
  StateCache.writeQueue sc1 = StateCache.writeQueue sc ∧
  if Z.of_nat (length (StateCache.cache sc)) >=? StateCache.maxSize then
    ∃ o, StateCache.oldest (StateCache.cache sc) = Some o ∧
      o ∈ StateCache.cache sc ∧
      (∀ e, e ∈ StateCache.cache sc → StateCache.lastAccess o.2 ≤ StateCache.lastAccess e.2) ∧
      head (List.filter (λ e, bool_decide (StateCache.lastAccess e.2 = StateCache.lastAccess o.2))
              (StateCache.cache sc)) = Some o ∧
      (o.1 ≠ key → amap_get o.1 (StateCache.cache sc1) = None) ∧
      (∀ key', key' ≠ key → key' ≠ o.1 →
         amap_get key' (StateCache.cache sc1) = amap_get key' (StateCache.cache sc))
  else
    ∀ key', key' ≠ key →
      amap_get key' (StateCache.cache sc1) = amap_get key' (StateCache.cache sc).
Proof.
  intros key sc1. split; [reflexivity|].
  destruct (Z.geb_spec (Z.of_nat (length (StateCache.cache sc))) StateCache.maxSize)
    as [Hfull|Hroom].
  - destruct (StateCache.oldest (StateCache.cache sc)) as [o|] eqn:Hold.
    + exists o. split; [reflexivity|].
      destruct (sort_by_head_min _ _ _ Hold) as (Hin & Hmin & Hfirst).
      split; [exact Hin|]. split; [exact Hmin|]. split; [exact Hfirst|].
      subst sc1. unfold StateCache.set. fold key. simpl.
      destruct (Z.geb_spec (Z.of_nat (length (StateCache.cache sc))) StateCache.maxSize);
        [|lia].
      rewrite Hold. split.
      * intros Hne. rewrite amap_get_set_ne by congruence. apply amap_get_delete_eq.
      * intros key' Hk Ho. rewrite amap_get_set_ne by congruence.
        by rewrite amap_get_delete_ne.
    + exfalso. unfold StateCache.oldest in Hold.
      pose proof (sort_by_Permutation (λ e : string * StateCache.entry,
                    StateCache.lastAccess e.2) (StateCache.cache sc)) as Hperm.
      destruct (sort_by _ (StateCache.cache sc)); [|discriminate].
      apply Permutation_length in Hperm. simpl in Hperm.
      unfold StateCache.maxSize in Hfull. lia.
  - intros key' Hne. apply StateCache_set_other; [lia | exact Hne].
Qed.

Lemma StateCache_set_bounded now t c a st sc :
  Z.of_nat (length (StateCache.cache (StateCache.set now t c st a sc))) ≤
    Z.max (Z.of_nat (length (StateCache.cache sc))) StateCache.maxSize.
Proof.
  unfold StateCache.set. simpl.
  destruct (Z.geb_spec (Z.of_nat (length (StateCache.cache sc))) StateCache.maxSize)
    as [Hfull|Hroom].
  - destruct (StateCache.oldest (StateCache.cache sc)) as [o|] eqn:Hold.
    + destruct (sort_by_head_min _ _ _ Hold) as (Hin & _ & _).
      destruct o as [k e]. apply amap_get_In in Hin.
      destruct (amap_delete_length k (StateCache.cache sc)) as [_ Hlt].
      specialize (Hlt Hin). rewrite amap_set_length. simpl.
      destruct (present _); lia.
    + rewrite amap_set_length. destruct (present _); [lia|].
      exfalso. unfold StateCache.oldest in Hold.
      pose proof (sort_by_Permutation (λ e : string * StateCache.entry,
                    StateCache.lastAccess e.2) (StateCache.cache sc)) as Hperm.
      destruct (sort_by _ (StateCache.cache sc)); [|discriminate].
      apply Permutation_length in Hperm. simpl in Hperm.
      unfold StateCache.maxSize in Hfull. lia.
  - rewrite amap_set_length. destruct (present _); lia.
Qed.

(** X9. The state cache stays within its capacity: a call of [evaluate],
    returning or throwing, leaves at most [maxSize] entries in the cache, or
    at most as many as it found if that was more. From a new engine on, the
    cache never holds more than 10000 entries. *)
Theorem evaluate_cache_bounded now ctx w :
  Z.of_nat (length (StateCache.cache (stateCache (evaluate' now ctx w).1))) ≤
    Z.max (Z.of_nat (length (StateCache.cache (stateCache w)))) StateCache.maxSize.
Proof.
  set (bound := Z.max (Z.of_nat (length (StateCache.cache (stateCache w))))
                  StateCache.maxSize).
  set (P := λ w0 : World Regex,
              Z.of_nat (length (StateCache.cache (stateCache w0))) ≤ bound).
  assert (Hset : ∀ w0 now0 t c st a,
            P w0 → Z.of_nat (length (StateCache.cache
                     (StateCache.set now0 t c st a (stateCache w0)))) ≤ bound).
  { intros w0 now0 t c st a H0. etrans; [apply StateCache_set_bounded|].
    unfold P, bound in *. lia. }
  assert (Hhy : P (hydrate stateProvider now ctx w).1).
  { unfold hydrate. destruct (c_state ctx); [unfold P, bound; simpl; lia|].
    pose proof (StateCache_get_length now (c_tokenId ctx) (c_conversationId ctx)
                  (c_accountId ctx) (stateCache w)) as Hlen.
    destruct (StateCache.get now (c_tokenId ctx) (c_conversationId ctx) (c_accountId ctx)
                (stateCache w)) as [sc cached]. simpl in Hlen.
    assert (H1 : P (with_stateCache sc w)) by (unfold P, bound; simpl; lia).
    destruct cached as [st|]; [exact H1|].
    assert (Hsyn : P (synthesize now ctx (with_stateCache sc w)).1).
    { unfold synthesize, P. simpl. by apply (Hset (with_stateCache sc w)). }
    destruct stateProvider as [get|]; [destruct (get _ _ _) as [img|]|]; try exact Hsyn.
    change (heap (with_stateCache sc w)) with (heap w).
    destruct (import_state img (heap w)) as [st h]. exact H1. }
  assert (Hloop : P (ls_world (evaluate_loop' now ctx w).1)).
  { unfold evaluate_loop. destruct (hydrate stateProvider now ctx w) as [w1 st].
    simpl in Hhy.
    apply (eval_rules_invariant (λ ls0, P (ls_world ls0))); [exact Hhy|].
    intros r ls0 _ H0.
    destruct (eval_rule_cases now ctx r ls0) as
      (c & [(_ & ->) | [(e & _ & ->) | [(v & t & _ & _ & ->) | (v & t & _ & _ & ->)]]]);
      simpl; try exact H0.
    destruct (r_flags r) as [fl|] eqn:Hfl.
    - rewrite (updateState_Some _ _ _ _ _ _ Hfl). unfold P. simpl.
      rewrite StateCache_markDirty_length. by apply (Hset (ls_world ls0)).
    - rewrite (updateState_None _ _ _ _ _ Hfl). exact H0. }
  unfold evaluate. destruct (evaluate_loop' now ctx w) as [ls [| |e]]; simpl in *;
    try exact Hloop; by destruct (present stateProvider).
Qed.

(** ** RegexCache *)

(** X10. The regex cache memoizes: once [get] has returned a regex for a
    pattern and flags, the next [get] for them returns the same regex
    without compiling and leaves the cache as it is; the first [get] changes
    the cache at most under the key of this pattern and flags. When [get]
    throws, nothing is cached. *)
Theorem regexCache_get_memoizes pattern flags (c : gmap string Regex) :
  match regexCache_get RegExp_new pattern flags c with
  | Some (c', regex) =>
      regexCache_get RegExp_new pattern flags c' = Some (c', regex) ∧
      c' !! regex_key pattern flags = Some regex ∧
      (∀ k, k ≠ regex_key pattern flags → c' !! k = c !! k)
  | None => RegExp_new pattern flags = None ∧ c !! regex_key pattern flags = None
  end.
Proof.
  unfold regexCache_get.
  destruct (c !! regex_key pattern flags) as [regex|] eqn:Hlook.
  - rewrite Hlook. by repeat split.
  - destruct (RegExp_new pattern flags) as [regex|] eqn:Hnew; [|by split].
    rewrite lookup_insert_eq. split; [reflexivity|]. split; [reflexivity|].
    intros k Hne. by rewrite lookup_insert_ne.
Qed.

Lemma pcre_every_out_sound flags message patterns (c1 c2 : gmap string Regex) mp :
  cache_sound RegExp_new c1 → cache_sound RegExp_new c2 → (flags = "g" ∨ flags = "gi") →
  (pcre_every RegExp_new regex_exec flags message patterns c1 mp).2 =
  (pcre_every RegExp_new regex_exec flags message patterns c2 mp).2.
Proof.
  intros Hc1 Hc2 Hf. revert c1 c2 mp Hc1 Hc2.
  induction patterns as [|p ps IH]; intros c1 c2 mp Hc1 Hc2; simpl; [reflexivity|].
  pose proof (regexCache_get_sound RegExp_new p flags c1 Hc1 Hf) as Hg1.
  pose proof (regexCache_get_sound RegExp_new p flags c2 Hc2 Hf) as Hg2.
  destruct (RegExp_new p flags) as [regex|].
  - destruct Hg1 as (c1' & -> & Hc1'). destruct Hg2 as (c2' & -> & Hc2').
    destruct (regex_exec regex message); simpl; [by apply IH | reflexivity].
  - by rewrite Hg1, Hg2.
Qed.

Lemma run_stages_out_sound r message (c1 c2 : gmap string Regex) :
  cache_sound RegExp_new c1 → cache_sound RegExp_new c2 →
  (run_stages' r message c1).2 = (run_stages' r message c2).2.
Proof.
  intros Hc1 Hc2. unfold run_stages.
  destruct (content_stage r message _) as [v1|]; [|reflexivity].
  unfold pcre_stage. destruct (r_pcre r) as [[|p ps]|]; try reflexivity.
  - simpl. by destruct (semantic_stage _ _ _ _ _) as [v3|]; [destruct (l_matched v3)|].
  - pose proof (pcre_every_out_sound (regex_flags r) message (p :: ps) c1 c2
                  (l_matchedPattern v1) Hc1 Hc2 (regex_flags_cases r)) as Hout.
    destruct (pcre_every RegExp_new regex_exec (regex_flags r) message (p :: ps) c1 _)
      as [c1' out1].
    destruct (pcre_every RegExp_new regex_exec (regex_flags r) message (p :: ps) c2 _)
      as [c2' out2].
    simpl in Hout. subst out2. destruct out1 as [[[|] mp]|e]; simpl; try reflexivity.
    by destruct (semantic_stage _ _ _ _ _) as [v3|]; [destruct (l_matched v3)|].
  - simpl. by destruct (semantic_stage _ _ _ _ _) as [v3|]; [destruct (l_matched v3)|].
Qed.

Lemma hydrate_same_but_regexCache now ctx w1 w2 :
  same_but_regexCache w1 w2 →
  (hydrate stateProvider now ctx w1).2 = (hydrate stateProvider now ctx w2).2 ∧
  same_but_regexCache (hydrate stateProvider now ctx w1).1
    (hydrate stateProvider now ctx w2).1.
Proof.
  destruct w1 as [r1 sc1 rc1 t1 h1 s1], w2 as [r2 sc2 rc2 t2 h2 s2].
  unfold same_but_regexCache. simpl. intros (-> & -> & -> & -> & ->).
  unfold hydrate, synthesize. simpl. destruct (c_state ctx); [done|].
  destruct (StateCache.get _ _ _ _ _) as [sc [st|]]; simpl; [done|].
  destruct stateProvider as [get|]; [destruct (get _ _ _) as [img|]|]; simpl; try done.
  by destruct (import_state img h2).
Qed.

Lemma updateState_same_but_regexCache now r ctx st w1 w2 :
  same_but_regexCache w1 w2 →
  (updateState now r ctx st w1).2 = (updateState now r ctx st w2).2 ∧
  same_but_regexCache (updateState now r ctx st w1).1 (updateState now r ctx st w2).1.
Proof.
  intros (Hr & Hsc & Ht & Hh & Hs).
  destruct (r_flags r) as [fl|] eqn:Hfl.
  - rewrite !(updateState_Some _ _ _ _ _ _ Hfl). simpl. rewrite Hh, Hsc.
    by repeat split.
  - rewrite !(updateState_None _ _ _ _ _ Hfl). by repeat split.
Qed.

Lemma eval_rule_same_but_regexCache now ctx r ls1 ls2 :
  cache_sound RegExp_new (regexCache (ls_world ls1)) →
  cache_sound RegExp_new (regexCache (ls_world ls2)) →
  same_but_regexCache (ls_world ls1) (ls_world ls2) →
  ls_state ls1 = ls_state ls2 → ls_results ls1 = ls_results ls2 →
  let s1 := eval_rule' now ctx r ls1 in
  let s2 := eval_rule' now ctx r ls2 in
  s1.2 = s2.2 ∧ same_but_regexCache (ls_world s1.1) (ls_world s2.1) ∧
  ls_state s1.1 = ls_state s2.1 ∧ ls_results s1.1 = ls_results s2.1.
Proof.
  intros Hc1 Hc2 Hsame Hst Hres.
  pose proof (run_stages_out_sound r (c_message ctx) _ _ Hc1 Hc2) as Hout.
  pose proof Hsame as (Hr & Hsc & Ht & Hh & Hs).
  unfold eval_rule.
  destruct (run_stages' r (c_message ctx) (regexCache (ls_world ls1))) as [c1 out1].
  destruct (run_stages' r (c_message ctx) (regexCache (ls_world ls2))) as [c2 out2].
  simpl in Hout. subst out2. rewrite Hst, Hres.
  destruct out1 as [[v|]|e]; simpl; try by repeat split.
  rewrite Ht.
  destruct (check' ctx now r (thresholdTracker (ls_world ls2))) as [t [|]]; simpl.
  - assert (Hsame' : same_but_regexCache
              (with_thresholdTracker t (with_regexCache c1 (ls_world ls1)))
              (with_thresholdTracker t (with_regexCache c2 (ls_world ls2))))
      by by repeat split.
    destruct (updateState_same_but_regexCache now r ctx (ls_state ls2) _ _ Hsame')
      as [Hu2 Hu1].
    destruct (updateState now r ctx (ls_state ls2)
                (with_thresholdTracker t (with_regexCache c1 (ls_world ls1)))) as [u1 st1].
    destruct (updateState now r ctx (ls_state ls2)
                (with_thresholdTracker t (with_regexCache c2 (ls_world ls2)))) as [u2 st2].
    simpl in Hu1, Hu2. subst st2. destruct Hu1 as (? & ? & ? & ? & ?).
    simpl. by repeat split.
  - by repeat split.
Qed.

Lemma eval_rules_same_but_regexCache now ctx rs ls1 ls2 :
  cache_sound RegExp_new (regexCache (ls_world ls1)) →
  cache_sound RegExp_new (regexCache (ls_world ls2)) →
  same_but_regexCache (ls_world ls1) (ls_world ls2) →
  ls_state ls1 = ls_state ls2 → ls_results ls1 = ls_results ls2 →
  let s1 := eval_rules' now ctx rs ls1 in
  let s2 := eval_rules' now ctx rs ls2 in
  s1.2 = s2.2 ∧ same_but_regexCache (ls_world s1.1) (ls_world s2.1) ∧
  ls_results s1.1 = ls_results s2.1.
Proof.
  revert ls1 ls2. induction rs as [|r rs IH]; intros ls1 ls2 Hc1 Hc2 Hsame Hst Hres; simpl.
  - auto.
  - destruct (eval_rule_same_but_regexCache now ctx r ls1 ls2 Hc1 Hc2 Hsame Hst Hres)
      as (Hk & Hsame' & Hst' & Hres').
    pose proof (eval_rule_sound now ctx r ls1 Hc1) as Hc1'.
    pose proof (eval_rule_sound now ctx r ls2 Hc2) as Hc2'.
    destruct (eval_rule' now ctx r ls1) as [ls1' k1].
    destruct (eval_rule' now ctx r ls2) as [ls2' k2].
    simpl in *. subst k2. destruct k1; [by apply IH | auto..].
Qed.

(** X11. The regex cache is an optimisation only. Two worlds whose regex
    caches hold what the constructor returns (as every cache the engine has
    filled, and the empty one) and which are the same otherwise end a call
    in the same way, with the same results, and are again the same but for
    their regex caches. *)
Theorem regex_cache_transparent now ctx w1 w2 :
  cache_sound RegExp_new (regexCache w1) → cache_sound RegExp_new (regexCache w2) →
  same_but_regexCache w1 w2 →
  (evaluate' now ctx w1).2 = (evaluate' now ctx w2).2 ∧
  same_but_regexCache (evaluate' now ctx w1).1 (evaluate' now ctx w2).1.
Proof.
  intros Hc1 Hc2 Hsame.
  assert (Hloop :
    let s1 := evaluate_loop' now ctx w1 in
    let s2 := evaluate_loop' now ctx w2 in
    s1.2 = s2.2 ∧ same_but_regexCache (ls_world s1.1) (ls_world s2.1) ∧
    ls_results s1.1 = ls_results s2.1).
  { unfold evaluate_loop.
    destruct (hydrate_same_but_regexCache now ctx w1 w2 Hsame) as [Hst Hsame1].
    pose proof (hydrate_regexCache now ctx w1) as Hrc1.
    pose proof (hydrate_regexCache now ctx w2) as Hrc2.
    destruct (hydrate stateProvider now ctx w1) as [w1' st1].
    destruct (hydrate stateProvider now ctx w2) as [w2' st2].
    simpl in *. subst st2. pose proof Hsame1 as (Hr & _ & _ & Hh & _).
    rewrite Hr, Hh.
    apply eval_rules_same_but_regexCache; simpl;
      [by rewrite Hrc1 | by rewrite Hrc2 | exact Hsame1 | reflexivity | reflexivity]. }
  cbv zeta in Hloop. unfold evaluate.
  destruct (evaluate_loop' now ctx w1) as [ls1 k1].
  destruct (evaluate_loop' now ctx w2) as [ls2 k2].
  destruct Hloop as (Hk & (Hr & Hsc & Ht & Hh & Hs) & Hres). simpl in *. subst k2.
  destruct k1; simpl; rewrite ?Hres; (split; [reflexivity|]);
    destruct (present stateProvider); repeat split; simpl; congruence.
Qed.

(** ** ThresholdTracker *)

Lemma check_counting r tok conv acc th win (rest : list Z) :
  r_threshold r = Some th → r_window r = Some win → th ≠ 0 → win ≠ 0 →
  ∀ (trackers : ThresholdTracker.t) e,
    tracker_entry trackers (getKey tok conv acc) (r_id r) = Some e →
    1 ≤ ThresholdTracker.count e →
    rest ≠ [] → Z.of_nat (length rest) = th - ThresholdTracker.count e →
    Forall (λ t, t ≤ ThresholdTracker.windowEnd e) rest →
    let c := check_at_times r tok conv acc rest trackers in
    c.1 = replicate (length rest - 1) false ++ [true] ∧
    tracker_entry c.2 (getKey tok conv acc) (r_id r) = None.
Proof.
  intros Hth Hwin Hth0 Hwin0.
  induction rest as [|t rest IH]; intros trackers e He Hcount Hne Hlen Hall; [done|].
  inversion Hall as [|? ? Ht Hall']; subst. simpl.
  rewrite (check_gated t r tok conv acc trackers th win Hth Hth0 Hwin Hwin0). cbv zeta.
  unfold tracker_entry in He. rewrite He.
  destruct (Z.gtb_spec t (ThresholdTracker.windowEnd e)) as [?|_]; [lia|].
  destruct rest as [|t' rest].
  - simpl in Hlen. destruct (Z.geb_spec (ThresholdTracker.count e + 1) th); [|lia].
    simpl. split; [reflexivity|]. by rewrite tracker_entry_insert, lookup_delete_eq.
  - simpl length in Hlen.
    destruct (Z.geb_spec (ThresholdTracker.count e + 1) th) as [?|_]; [lia|].
    match goal with |- context [check_at_times _ _ _ _ _ ?tr] =>
      edestruct (IH tr) as [Hbs Hentry] end.
    + rewrite tracker_entry_insert, lookup_insert_eq. reflexivity.
    + simpl. lia.
    + done.
    + simpl length. simpl ThresholdTracker.count. lia.
    + exact Hall'.
    + cbv zeta in Hbs, Hentry.
      destruct (check_at_times r tok conv acc (t' :: rest) _) as [bs tr2].
      simpl in Hbs, Hentry |- *. subst bs. split; [|exact Hentry].
      by rewrite Nat.sub_0_r.
Qed.

(** X12. Threshold drain. A rule with threshold [th >= 2] and a non-zero
    window, starting without a counter for the tuple: of [th] checks, the
    first at [t0] and the others no later than [t0 + win * 1000], all return
    false but the last, which returns true, and after it the counter is gone
    again, so that the next check starts a new window. *)
Theorem threshold_drain r tok conv acc th win t0 (rest : list Z)
    (trackers : ThresholdTracker.t) :
  r_threshold r = Some th → 2 ≤ th → r_window r = Some win → win ≠ 0 →
  tracker_entry trackers (getKey tok conv acc) (r_id r) = None →
  Z.of_nat (length rest) = th - 1 →
  Forall (λ t, t ≤ t0 + win * 1000) rest →
  let c := check_at_times r tok conv acc (t0 :: rest) trackers in
  c.1 = replicate (length rest) false ++ [true] ∧
  tracker_entry c.2 (getKey tok conv acc) (r_id r) = None.
Proof.
  intros Hth Hge Hwin Hwin0 Hnone Hlen Hall. simpl.
  assert (Hth0 : th ≠ 0) by lia.
  rewrite (check_gated t0 r tok conv acc trackers th win Hth Hth0 Hwin Hwin0). cbv zeta.
  unfold tracker_entry in Hnone. rewrite Hnone.
  rewrite bool_decide_eq_false_2 by lia.
  match goal with |- context [check_at_times _ _ _ _ _ ?tr] =>
    edestruct (check_counting r tok conv acc th win rest Hth Hwin Hth0 Hwin0 tr)
      as [Hbs Hentry] end.
  - rewrite tracker_entry_insert, lookup_insert_eq. reflexivity.
  - simpl. lia.
  - intros ->. simpl in Hlen. lia.
  - simpl. lia.
  - exact Hall.
  - cbv zeta in Hbs, Hentry.
    destruct (check_at_times r tok conv acc rest _) as [bs tr2].
    simpl in Hbs, Hentry |- *. subst bs. split; [|exact Hentry].
    destruct rest as [|t rest]; [simpl in Hlen; lia|].
    simpl. by rewrite Nat.sub_0_r.
Qed.

(** X13. The counter stays in range. For a rule with threshold [th >= 2]
    and a non-zero window [win], a check keeps the rule's counter for the
    tuple absent or with a count of at least 1 and below [th], over a window
    of [win] seconds: the tracker never keeps a count that has reached the
    threshold. *)
Theorem check_keeps_counter_in_range now r tok conv acc th win
    (trackers : ThresholdTracker.t) :
  r_threshold r = Some th → 2 ≤ th → r_window r = Some win → win ≠ 0 →
  entry_in_range th win (tracker_entry trackers (getKey tok conv acc) (r_id r)) →
  entry_in_range th win
    (tracker_entry (ThresholdTracker.check now r tok conv acc trackers).1
       (getKey tok conv acc) (r_id r)).
Proof.
  intros Hth Hge Hwin Hwin0 Hrange.
  assert (Hth0 : th ≠ 0) by lia.
  rewrite (check_gated now r tok conv acc trackers th win Hth Hth0 Hwin Hwin0). cbv zeta.
  unfold tracker_entry in Hrange.
  destruct (default ∅ (trackers !! getKey tok conv acc) !! r_id r) as [e|]; simpl.
  - destruct (now >? ThresholdTracker.windowEnd e); simpl.
    + rewrite tracker_entry_insert, lookup_insert_eq. simpl. lia.
    + destruct (Z.geb_spec (ThresholdTracker.count e + 1) th); simpl.
      * by rewrite tracker_entry_insert, lookup_delete_eq.
      * rewrite tracker_entry_insert, lookup_insert_eq. simpl. simpl in Hrange. lia.
  - rewrite tracker_entry_insert, lookup_insert_eq. simpl. lia.
Qed.

(** X14. Counters do not interfere: a check for a rule and a tuple leaves
    the counter of every other rule under the same tuple, and every counter
    under another key, as it was; a rule whose threshold or window is unset
    (or zero) leaves the whole tracker as it was. *)
Theorem check_leaves_other_counters now r tok conv acc (trackers : ThresholdTracker.t)
    key ruleId :
  (key, ruleId) ≠ (getKey tok conv acc, r_id r) →
  tracker_entry (ThresholdTracker.check now r tok conv acc trackers).1 key ruleId =
    tracker_entry trackers key ruleId ∧
  (truthy_num (r_threshold r) && truthy_num (r_window r) = false →
   (ThresholdTracker.check now r tok conv acc trackers).1 = trackers).
Proof.
  intros Hne. split.
  - destruct (decide (key = getKey tok conv acc)) as [->|Hkey].
    + assert (Hid : r_id r ≠ ruleId) by (intros Heq; apply Hne; by rewrite Heq).
      unfold ThresholdTracker.check.
      destruct (_ || _); [reflexivity|].
      destruct (_ !! r_id r) as [e|].
      * destruct (_ >? _); simpl.
        -- rewrite tracker_entry_insert. by rewrite lookup_insert_ne.
        -- destruct (_ >=? _); simpl; rewrite tracker_entry_insert.
           ++ by rewrite lookup_delete_ne.
           ++ by rewrite lookup_insert_ne.
      * simpl. rewrite tracker_entry_insert. by rewrite lookup_insert_ne.
    + unfold tracker_entry. by rewrite check_other.
  - intros Hfalsy. rewrite check_ungated; [reflexivity|].
    apply andb_false_iff in Hfalsy. destruct Hfalsy as [H|H]; [by left|by right].
Qed.

(** ** State hydration *)

Lemma StateCache_get_miss now t c a sc :
  (StateCache.get now t c a sc).2 = None → (StateCache.get now t c a sc).1 = sc.
Proof.
  unfold StateCache.get.
  destruct (amap_get _ _) as [e|]; [|reflexivity].
  by destruct (_ <? _).
Qed.

Lemma with_stateCache_same w : with_stateCache (stateCache w) w = w.
Proof. by destruct w. Qed.

Lemma hydrate_synthesize now ctx w :
  finds_no_state stateProvider now ctx w →
  hydrate stateProvider now ctx w = synthesize now ctx w.
Proof.
  intros (Hctx & Hget & Hprov). unfold hydrate. rewrite Hctx.
  pose proof (StateCache_get_miss now _ _ _ _ Hget) as Hsc.
  destruct (StateCache.get now _ _ _ _) as [sc cached]. simpl in Hget, Hsc. subst.
  rewrite with_stateCache_same, Hprov. reflexivity.
Qed.

Lemma synthesize_flags now ctx w :
  state_flags (heap (synthesize now ctx w).1) (synthesize now ctx w).2 = ∅.
Proof.
  unfold synthesize, alloc_flags, alloc_history, alloc_state, state_flags, flags_at. simpl.
  rewrite list_lookup_middle by reflexivity. simpl.
  rewrite list_lookup_middle by reflexivity. reflexivity.
Qed.

Lemma eligible_no_flags h st r :
  state_flags h st = ∅ → eligible h st r = checks_no_flag r.
Proof.
  intros Hempty. unfold eligible, checks_no_flag.
  destruct (r_flags r) as [fl|]; [|reflexivity].
  destruct (f_check fl) as [[|f chk]|]; try reflexivity.
  simpl. rewrite Hempty, lookup_empty. reflexivity.
Qed.

(** X15. A call that finds no state (none passed in, none or only an
    expired one in the cache, none with the provider) starts from a newly
    allocated state object with the tuple's ids, no flag, an empty history
    and an expiry of 24 hours; the cache holds it under the tuple's key,
    stamped with the time of the call and not dirty; nothing is queued for
    writing; and the rules eligible for the call are exactly the loaded
    rules that check no flag. *)
Theorem fresh_state_on_miss now ctx w :
  finds_no_state stateProvider now ctx w →
  let hy := hydrate stateProvider now ctx w in
  let key := getKey (c_tokenId ctx) (c_conversationId ctx) (c_accountId ctx) in
  hy.2 = length (h_states (heap w)) ∧
  snapshot (heap w) hy.2 = None ∧
  snapshot (heap hy.1) hy.2 =
    Some ({| cs_id := key; cs_tokenId := c_tokenId ctx;
             cs_conversationId := c_conversationId ctx; cs_accountId := c_accountId ctx;
             cs_flags := length (h_flags (heap w));
             cs_flagHistory := length (h_history (heap w));
             cs_expiresAt := now + 86400000; cs_createdAt := now; cs_updatedAt := now |},
          ∅, []) ∧
  heap_extends (heap w) (heap hy.1) ∧
  amap_get key (StateCache.cache (stateCache hy.1)) =
    Some {| StateCache.state := hy.2; StateCache.lastAccess := now;
            StateCache.dirty := false |} ∧
  StateCache.writeQueue (stateCache hy.1) = StateCache.writeQueue (stateCache w) ∧
  preFilterRules (rules hy.1) (heap hy.1) hy.2 = List.filter checks_no_flag (rules w).
Proof.
  intros Hmiss hy key. subst hy. rewrite (hydrate_synthesize now ctx w Hmiss).
  split; [reflexivity|].
  split.
  { unfold snapshot. simpl. by rewrite lookup_ge_None_2. }
  split.
  { unfold synthesize, snapshot. simpl.
    rewrite list_lookup_middle by reflexivity. simpl.
    rewrite list_lookup_middle by reflexivity. simpl.
    rewrite list_lookup_middle by reflexivity. reflexivity. }
  split; [apply (synthesize_valid now ctx w)|].
  split; [unfold synthesize; simpl; apply amap_get_set_eq|].
  split; [reflexivity|].
  unfold preFilterRules.
  change (rules (synthesize now ctx w).1) with (rules w).
  apply filter_ext. intros r. apply eligible_no_flags, synthesize_flags.
Qed.

(** X16. A call that finds no state gives no result for a rule with a
    non-empty [flags.check], whatever flags the rules before it set in the
    same call. *)
Theorem fresh_conversation_passes_no_flag_check now ctx w res r :
  finds_no_state stateProvider now ctx w →
  res ∈ ls_results (evaluate_loop' now ctx w).1 → rule res = Some r →
  checks_no_flag r = true.
Proof.
  intros Hmiss Hin Hrule.
  destruct (evaluate_loop_sublist now ctx w) as (rs & Hmap & Hsub).
  assert (Hr : r ∈ rs).
  { apply elem_of_map_Some. rewrite <- Hmap, <- Hrule. by apply list_elem_of_fmap_2. }
  assert (Hall : Forall (λ r, checks_no_flag r = true) rs).
  { eapply Forall_sublist; [exact Hsub|]. apply Forall_forall. intros x Hx.
    unfold preFilterRules in Hx. rewrite list_elem_of_In, filter_In in Hx.
    destruct Hx as [_ Hx]. rewrite eligible_no_flags in Hx; [exact Hx|].
    rewrite (hydrate_synthesize now ctx w Hmiss). apply synthesize_flags. }
  rewrite Forall_forall in Hall. exact (Hall r Hr).
Qed.

(** ** updateState *)

Lemma set_flags_lookup b fls m f :
  set_flags b fls m !! f = if bool_decide (f ∈ fls) then Some b else m !! f.
Proof.
  case_bool_decide; [by apply set_flags_in | by apply set_flags_notin].
Qed.


(** ** What a call saves *)

Lemma updateState_saved now r ctx st w : saved (updateState now r ctx st w).1 = saved w.
Proof.
  unfold updateState. destruct (r_flags r); reflexivity.
Qed.

Lemma hydrate_saved now ctx w : saved (hydrate stateProvider now ctx w).1 = saved w.
Proof.
  unfold hydrate. destruct (c_state ctx); [reflexivity|].
  destruct (StateCache.get now _ _ _ _) as [sc [st|]]; [reflexivity|].
  match goal with |- context [match ?p with Some _ => _ | None => _ end] =>
    destruct p as [img|] end; [|reflexivity].
  change (heap (with_stateCache sc w)) with (heap w).
  destruct (import_state img (heap w)); reflexivity.
Qed.

Lemma evaluate_loop_saved now ctx w :
  saved (ls_world (evaluate_loop' now ctx w).1) = saved w.
Proof.
  unfold evaluate_loop.
  pose proof (hydrate_saved now ctx w) as Hhy.
  destruct (hydrate stateProvider now ctx w) as [w1 st]. simpl in Hhy.
  apply (eval_rules_invariant (λ ls0, saved (ls_world ls0) = saved w)); [exact Hhy|].
  intros r ls0 _ H0.
  destruct (eval_rule_cases now ctx r ls0) as
    (c & [(_ & ->) | [(e & _ & ->) | [(v & t & _ & _ & ->) | (v & t & _ & _ & ->)]]]);
    simpl; try exact H0.
  by rewrite updateState_saved.
Qed.

Lemma eval_rules_state_iff_matched now ctx rs ls :
  Forall (λ res, is_Some (res_state res) ↔ matched res = true) (ls_results ls) →
  Forall (λ res, is_Some (res_state res) ↔ matched res = true)
    (ls_results (eval_rules' now ctx rs ls).1).
Proof.
  intros H.
  apply (eval_rules_invariant
           (λ ls0, Forall (λ res, is_Some (res_state res) ↔ matched res = true)
                     (ls_results ls0))); [exact H|].
  intros r ls0 _ H0.
  destruct (eval_rule_cases now ctx r ls0) as
    (c & [(_ & ->) | [(e & _ & ->) | [(v & t & _ & _ & ->) | (v & t & _ & _ & ->)]]]);
    simpl; try exact H0.
  - apply Forall_app. split; [exact H0|]. constructor; [|constructor]. simpl.
    split; [intros [? [=]] | intros [=]].
  - apply Forall_app. split; [exact H0|]. constructor; [|constructor]. simpl.
    split; eauto.
Qed.


(** ** shutdown *)

(** X19. [shutdown] keeps the loaded rules and empties the state cache,
    the write queue, the regex cache and the threshold tracker, so that
    [getStats] shows the rule count and two zeros; it does not cancel an
    armed write timer; a second [shutdown] changes nothing; and the next
    call for any tuple, unless a state is passed in or the provider has one,
    starts from a state without flags: what rules had set is forgotten. *)
Theorem shutdown_forgets w :
  let w' := shutdown w in
  getStats w' = (length (rules w), 0%nat, 0%nat) ∧
  rules w' = rules w ∧
  StateCache.writeQueue (stateCache w') = ∅ ∧
  thresholdTracker w' = ∅ ∧
  StateCache.writeBatchTimer (stateCache w') = StateCache.writeBatchTimer (stateCache w) ∧
  shutdown w' = w' ∧
  ∀ now ctx,
    c_state ctx = None →
    match stateProvider with
    | Some get => get (c_tokenId ctx) (c_conversationId ctx) (c_accountId ctx)
    | None => None
    end = None →
    let hy := hydrate stateProvider now ctx w' in
    state_flags (heap hy.1) hy.2 = ∅ ∧
    ∀ res r, res ∈ ls_results (evaluate_loop' now ctx w').1 → rule res = Some r →
      checks_no_flag r = true.
Proof.
  cbv zeta. repeat (split; [reflexivity|]).
  intros now ctx Hctx Hprov.
  assert (Hmiss : finds_no_state stateProvider now ctx (shutdown w)).
  { split; [exact Hctx|]. split; [reflexivity|exact Hprov]. }
  split.
  - rewrite (hydrate_synthesize now ctx _ Hmiss). apply synthesize_flags.
  - intros res r Hin Hrule.
    destruct (evaluate_loop_sublist now ctx (shutdown w)) as (rs & Hmap & Hsub).
    assert (Hr : r ∈ rs).
    { apply elem_of_map_Some. rewrite <- Hmap, <- Hrule. by apply list_elem_of_fmap_2. }
    assert (Hall : Forall (λ r, checks_no_flag r = true) rs).
    { eapply Forall_sublist; [exact Hsub|]. apply Forall_forall. intros x Hx.
      unfold preFilterRules in Hx. rewrite list_elem_of_In, filter_In in Hx.
      destruct Hx as [_ Hx]. rewrite eligible_no_flags in Hx; [exact Hx|].
      rewrite (hydrate_synthesize now ctx _ Hmiss). apply synthesize_flags. }
    rewrite Forall_forall in Hall. exact (Hall r Hr).
Qed.

(** ** getRulePriority *)

Lemma typeCost_range r : 0 ≤ typeCost r ≤ 10.
Proof.
  unfold typeCost.
  destruct (present (r_content r)), (present (r_pcre r)), (present (r_semantic r)),
    (present (r_flags r)); lia.
Qed.

Lemma actionValue_range a : 1 ≤ actionValue a ≤ 5.
Proof. destruct a; vm_compute; split; discriminate. Qed.

Lemma nondecreasing_after {A} (key : A → Z) l1 x l2 :
  nondecreasing key (l1 ++ x :: l2) → Forall (λ y, key x ≤ key y) l2.
Proof.
  induction l1 as [|y l1 IH]; simpl; intros [Hall Hnd]; [exact Hall|].
  by apply IH.
Qed.


(** ** The first failing stage *)

Lemma pcre_every_stops flags message ps1 p ps2 regex (c : gmap string Regex) mp :
  cache_sound RegExp_new c → (flags = "g" ∨ flags = "gi") →
  forallb (pattern_matches RegExp_new regex_exec flags message) ps1 = true →
  RegExp_new p flags = Some regex → regex_exec regex message = None →
  ∃ c' mp', pcre_every RegExp_new regex_exec flags message (ps1 ++ p :: ps2) c mp =
              (c', Normal (false, mp')) ∧ cache_sound RegExp_new c'.
Proof.
  intros Hc Hf Hps1 Hp Hexec. revert c mp Hc Hps1.
  induction ps1 as [|q ps1 IH]; intros c mp Hc Hps1; simpl.
  - pose proof (regexCache_get_sound RegExp_new p flags c Hc Hf) as Hget.
    rewrite Hp in Hget. destruct Hget as (c1 & -> & Hc1).
    rewrite Hexec. simpl. eauto.
  - simpl in Hps1. apply andb_true_iff in Hps1. destruct Hps1 as [Hq Hps1].
    unfold pattern_matches in Hq.
    pose proof (regexCache_get_sound RegExp_new q flags c Hc Hf) as Hget.
    destruct (RegExp_new q flags) as [rq|]; [|discriminate].
    destruct Hget as (c1 & -> & Hc1).
    destruct (regex_exec rq message) as [m|]; [|discriminate]. simpl.
    by apply IH.
Qed.


(** ** matchedPattern *)

Lemma reported_cons mp m ms :
  reported mp (m :: ms) = reported (if truthy_str mp then mp else Some m) ms.
Proof.
  unfold reported. destruct (truthy_str mp) eqn:Hmp; [by rewrite Hmp|].
  simpl List.find. destruct m as [|a m]; simpl.
  - destruct (List.find _ ms); [reflexivity|]. by destruct ms.
  - reflexivity.
Qed.

Lemma pcre_every_reported flags message patterns (c : gmap string Regex) mp c' mp' :
  cache_sound RegExp_new c → (flags = "g" ∨ flags = "gi") →
  pcre_every RegExp_new regex_exec flags message patterns c mp = (c', Normal (true, mp')) →
  mp' = reported mp (omap (match0 RegExp_new regex_exec flags message) patterns).
Proof.
  intros Hc Hf. revert c mp Hc.
  induction patterns as [|p ps IH]; intros c mp Hc; simpl.
  - intros [= _ <-]. unfold reported. by destruct (truthy_str mp).
  - pose proof (regexCache_get_sound RegExp_new p flags c Hc Hf) as Hget.
    change (omap ?f (p :: ps)) with
      (match f p with Some y => y :: omap f ps | None => omap f ps end).
    unfold match0 at 1.
    destruct (RegExp_new p flags) as [regex|].
    + destruct Hget as (c1 & -> & Hc1).
      destruct (regex_exec regex message) as [m|]; simpl; [|intros [=]].
      intros Hrun. apply IH in Hrun; [|exact Hc1].
      rewrite reported_cons. rewrite Hrun. by destruct (truthy_str mp).
    + rewrite Hget. intros [=].
Qed.

(** X27. What [matchedPattern] reports for a rule that the stages let
    through. With a semantic match: the text [semantic match (N%)], and the
    similarity of that match. Without one: the rule's keywords joined by
    [", "] if it has a content stage and this string is not empty; else the
    first non-empty [match[0]] of its patterns, in their order; and no
    similarity. *)
Theorem matchedPattern_report r message (c c' : gmap string Regex) v :
  cache_sound RegExp_new c →
  run_stages' r message c = (c', Normal (Some v)) →
  match semantic_hit semanticMatcher r message with
  | Some sm =>
      l_matchedPattern v =
        Some ("semantic match (" +:+ toFixed1 (sm_similarity sm * 100)%Q +:+ "%)") ∧
      l_similarity v = Some (sm_similarity sm)
  | None =>
      l_matchedPattern v =
        reported
          (if content_declared r then Some (join ", " (default [] (r_content r))) else None)
          (omap (match0 RegExp_new regex_exec (regex_flags r) message)
             (default [] (r_pcre r))) ∧
      l_similarity v = None
  end.
Proof.
  intros Hc. unfold run_stages. rewrite content_stage_spec.
  set (mp1 := if content_declared r then Some (join ", " (default [] (r_content r)))
              else None).
  assert (Hstage2 : ∀ v1 c2 v2,
    l_matchedPattern v1 = mp1 → l_similarity v1 = None →
    pcre_stage RegExp_new regex_exec r message c v1 = (c2, Normal (Some v2)) →
    l_matchedPattern v2 =
      reported mp1 (omap (match0 RegExp_new regex_exec (regex_flags r) message)
                      (default [] (r_pcre r))) ∧
    l_similarity v2 = None).
  { intros v1 c2 v2 Hmp Hsim. unfold pcre_stage.
    destruct (r_pcre r) as [[|p ps]|] eqn:Hpcre.
    - intros [= _ <-]. rewrite Hmp. unfold reported. simpl. by destruct (truthy_str mp1).
    - destruct (pcre_every _ _ _ _ _ _ _) as [c3 [[[|] mp]|e]] eqn:Hevery; intros [= _ <-].
      simpl. split; [|exact Hsim].
      rewrite <- Hmp.
      exact (pcre_every_reported _ _ _ _ _ _ _ Hc (regex_flags_cases r) Hevery).
    - intros [= _ <-]. rewrite Hmp. unfold reported. simpl. by destruct (truthy_str mp1). }
  assert (Hstage3 : ∀ c2 v2,
    l_matchedPattern v2 =
      reported mp1 (omap (match0 RegExp_new regex_exec (regex_flags r) message)
                      (default [] (r_pcre r))) →
    l_similarity v2 = None →
    match semantic_stage semanticMatcher toFixed1 r message v2 with
    | Some v3 => if l_matched v3 then (c2, Normal (Some v3)) else (c2, Normal None)
    | None => (c2, Normal None)
    end = (c', Normal (Some v)) →
    match semantic_hit semanticMatcher r message with
    | Some sm =>
        l_matchedPattern v =
          Some ("semantic match (" +:+ toFixed1 (sm_similarity sm * 100)%Q +:+ "%)") ∧
        l_similarity v = Some (sm_similarity sm)
    | None =>
        l_matchedPattern v =
          reported mp1 (omap (match0 RegExp_new regex_exec (regex_flags r) message)
                          (default [] (r_pcre r))) ∧
        l_similarity v = None
    end).
  { intros c2 v2 Hmp Hsim. unfold semantic_stage, semantic_hit.
    destruct (r_semantic r) as [[|s ss]|]; destruct semanticMatcher as [q|];
      try (destruct (l_matched v2); intros [= _ <-]; by split).
    destruct (List.find _ _) as [sm|].
    - simpl. intros [= _ <-]. by split.
    - destruct (l_matched v2) eqn:Hm; [|intros [=]]. rewrite Hm. intros [= _ <-]. by split. }
  destruct (content_declared r) eqn:Hcd.
  - destruct (content_passes r message); [|intros [=]].
    destruct (pcre_stage _ _ _ _ _ _) as [c2 [[v2|]|e]] eqn:Hpcre;
      [|intros [=]|intros [=]].
    intros Hrun. apply Hstage2 in Hpcre; [|reflexivity..].
    destruct Hpcre as [Hmp Hsim]. exact (Hstage3 c2 v2 Hmp Hsim Hrun).
  - destruct (pcre_stage _ _ _ _ _ _) as [c2 [[v2|]|e]] eqn:Hpcre;
      [|intros [=]|intros [=]].
    intros Hrun. apply Hstage2 in Hpcre; [|reflexivity..].
    destruct Hpcre as [Hmp Hsim]. exact (Hstage3 c2 v2 Hmp Hsim Hrun).
Qed.

End Loop.

(** * The semantic matcher *)

Section MatcherProps.

Import LanceDBSemanticMatcher.

Context {Vector Table Store : Type}.
Variable load_model : bool.
Variable pipeline : string → option Vector.
Variable connect : bool.
Variable openTable : Store → option Table.
Variable dropTable : Store → Store.
Variable createTable : Store → list (Embedding Vector) → Store * option Table.
Variable search : Store → Table → Vector → nat → option (list Row).

Implicit Types (m : LanceDBSemanticMatcher.t Table Store).

Local Abbreviation initialize' := (LanceDBSemanticMatcher.initialize load_model connect openTable).
Local Abbreviation loadRules' := (LanceDBSemanticMatcher.loadRules pipeline dropTable createTable).
Local Abbreviation queryRules' := (LanceDBSemanticMatcher.queryRules pipeline search).
Local Abbreviation nearest' := (LanceDBSemanticMatcher.nearest pipeline search).

Lemma length_omap_le {A B} (f : A → option B) (l : list A) :
  (length (omap f l) ≤ length l)%nat.
Proof.
  induction l as [|x l IH]; [reflexivity|].
  change (omap f (x :: l)) with (match f x with Some y => y :: omap f l | None => omap f l end).
  destruct (f x); simpl; lia.
Qed.

Lemma queryRules_nearest m message threshold :
  queryRules' m message threshold = omap (match_of m threshold) (nearest' m message).
Proof.
  unfold LanceDBSemanticMatcher.queryRules, nearest.
  destruct (table m) as [tb|]; [|reflexivity].
  destruct (generateEmbedding pipeline m message) as [v|e]; [|reflexivity].
  by destruct (search (store m) tb v 10).
Qed.

Lemma match_of_Some m threshold result sm :
  match_of m threshold result = Some sm ↔
  sm_similarity sm = similarity_of result ∧
  Qle threshold (similarity_of result) ∧
  List.find (λ r, bool_decide (r_id r = row_rule_id result)) (LanceDBSemanticMatcher.rules m)
    = Some (sm_rule sm).
Proof.
  unfold match_of. split.
  - destruct (Qle_bool threshold (similarity_of result)) eqn:Hle; [|discriminate].
    apply Qle_bool_iff in Hle.
    destruct (List.find _ _) as [rule|]; [|discriminate].
    intros [= <-]. simpl. auto.
  - intros (Hsim & Hle & Hfind). apply Qle_bool_iff in Hle. rewrite Hle, Hfind.
    destruct sm as [rule sim]. simpl in *. by subst.
Qed.

Lemma find_id_Some (rs : list Rule) id rule :
  List.find (λ r, bool_decide (r_id r = id)) rs = Some rule → rule ∈ rs ∧ r_id rule = id.
Proof.
  intros H. apply find_some in H. destruct H as [Hin Hid].
  apply bool_decide_eq_true in Hid. by rewrite list_elem_of_In.
Qed.

Lemma find_id_is_Some (rs : list Rule) id :
  (∃ rule, rule ∈ rs ∧ r_id rule = id) →
  is_Some (List.find (λ r, bool_decide (r_id r = id)) rs).
Proof.
  intros (rule & Hin & Hid).
  destruct (List.find _ rs) as [x|] eqn:Hfind; [eauto|].
  rewrite list_elem_of_In in Hin.
  pose proof (find_none _ _ Hfind rule Hin) as Hnone. simpl in Hnone.
  apply bool_decide_eq_false in Hnone. contradiction.
Qed.



Lemma loadRules_rules rs m :
  LanceDBSemanticMatcher.rules (loadRules' rs m).1 = LanceDBSemanticMatcher.rules m ∨
  (LanceDBSemanticMatcher.rules (loadRules' rs m).1 = List.filter has_semantic rs ∧
   List.filter has_semantic rs ≠ []).
Proof.
  unfold LanceDBSemanticMatcher.loadRules.
  destruct (negb (initialized m)); [by left|].
  destruct (List.filter has_semantic rs) as [|r0 l] eqn:Hf; [by left|].
  right. split; [|discriminate].
  destruct (embeddings_of _ _ _) as [|e es]; [reflexivity|].
  destruct (negb _); [reflexivity|].
  by destruct (createTable _ _) as [s [tb|]].
Qed.

Lemma loadRules_table rs m :
  is_Some (table m) → is_Some (table (loadRules' rs m).1).
Proof.
  intros Htb. unfold LanceDBSemanticMatcher.loadRules.
  destruct (negb (initialized m)); [exact Htb|].
  destruct (List.filter has_semantic rs) as [|r0 l]; [exact Htb|].
  destruct (embeddings_of _ _ _) as [|e es]; [exact Htb|].
  destruct (negb _); [exact Htb|].
  destruct (createTable _ _) as [s [tb|]]; simpl; eauto.
Qed.

Lemma initialize_rules m :
  LanceDBSemanticMatcher.rules (initialize' m).1 = LanceDBSemanticMatcher.rules m.
Proof.
  unfold LanceDBSemanticMatcher.initialize.
  destruct (initialized m); [reflexivity|].
  destruct (negb load_model); [reflexivity|].
  by destruct (negb connect).
Qed.

Lemma initialize_table m : is_Some (table m) → is_Some (table (initialize' m).1).
Proof.
  intros Htb. unfold LanceDBSemanticMatcher.initialize.
  destruct (initialized m); [exact Htb|].
  destruct (negb load_model); [exact Htb|].
  destruct (negb connect); [exact Htb|]. simpl.
  destruct (openTable (store m)); eauto.
Qed.

(** X24. The matcher keeps semantic rules only: if every rule it holds has
    a non-empty [semantic], as is the case for a new matcher, then so it is
    after [initialize], [loadRules] and [shutdown], and every match of a
    query carries such a rule. *)
Theorem matcher_rules_have_semantic m rs message threshold :
  Forall (λ r, has_semantic r = true) (LanceDBSemanticMatcher.rules m) →
  Forall (λ r, has_semantic r = true) (LanceDBSemanticMatcher.rules (initialize' m).1) ∧
  Forall (λ r, has_semantic r = true) (LanceDBSemanticMatcher.rules (loadRules' rs m).1) ∧
  Forall (λ r, has_semantic r = true)
    (LanceDBSemanticMatcher.rules (LanceDBSemanticMatcher.shutdown m)) ∧
  Forall (λ sm, has_semantic (sm_rule sm) = true) (queryRules' m message threshold).
Proof.
  intros Hm. split; [by rewrite initialize_rules|].
  split.
  { destruct (loadRules_rules rs m) as [-> | [-> _]]; [exact Hm|].
    apply Forall_forall. intros r Hr. rewrite list_elem_of_In, filter_In in Hr. tauto. }
  split; [exact Hm|].
  rewrite queryRules_nearest. apply Forall_forall. intros sm Hsm.
  apply list_elem_of_omap in Hsm. destruct Hsm as (result & _ & Hmatch).
  apply match_of_Some in Hmatch. destruct Hmatch as (_ & _ & Hfind).
  apply find_id_Some in Hfind. destruct Hfind as [Hrule _].
  rewrite Forall_forall in Hm. by apply Hm.
Qed.

(** X25. Nothing unloads the matcher: after [initialize], [loadRules] or
    [shutdown], a matcher that had a table still has one, and one that held
    rules still holds some. In particular [loadRules] with a list without
    semantic rules, the empty list included, returns with the matcher as it
    was, so that queries go on matching the rules loaded before. *)
Theorem matcher_never_unloads m rs :
  Forall (λ m', (is_Some (table m) → is_Some (table m')) ∧
                (LanceDBSemanticMatcher.rules m ≠ [] → LanceDBSemanticMatcher.rules m' ≠ []))
    [(initialize' m).1; (loadRules' rs m).1; LanceDBSemanticMatcher.shutdown m] ∧
  (initialized m = true → List.filter has_semantic rs = [] →
   loadRules' rs m = (m, Returned tt) ∧
   ∀ message threshold,
     queryRules' (loadRules' rs m).1 message threshold = queryRules' m message threshold).
Proof.
  split.
  - repeat constructor; simpl; auto.
    + apply initialize_table.
    + by rewrite initialize_rules.
    + apply loadRules_table.
    + destruct (loadRules_rules rs m) as [-> | [-> ?]]; auto.
  - intros Hinit Hnone.
    assert (Heq : loadRules' rs m = (m, Returned tt)).
    { unfold LanceDBSemanticMatcher.loadRules. by rewrite Hinit, Hnone. }
    split; [exact Heq|]. intros message threshold. by rewrite Heq.
Qed.

(** X26. The life cycle. Once initialized, a matcher has its model loaded
    and its database connected, and [initialize], [loadRules] and [shutdown]
    keep it so. An [initialize] that has returned makes the next one return
    at once. [shutdown] only clears [initialized]: [loadRules] then throws
    and changes nothing, while queries are answered as before. And on an
    initialized matcher [loadRules] throws only when [createTable] does. *)
Theorem matcher_life_cycle m rs :
  ready m →
  ready (initialize' m).1 ∧ ready (loadRules' rs m).1 ∧
  ready (LanceDBSemanticMatcher.shutdown m) ∧
  ((initialize' m).2 = Returned tt →
   initialized (initialize' m).1 = true ∧
   initialize' (initialize' m).1 = ((initialize' m).1, Returned tt)) ∧
  loadRules' rs (LanceDBSemanticMatcher.shutdown m) =
    (LanceDBSemanticMatcher.shutdown m, Failed NotInitialized) ∧
  (∀ message threshold,
     queryRules' (LanceDBSemanticMatcher.shutdown m) message threshold =
       queryRules' m message threshold) ∧
  (initialized m = true → ∀ e, (loadRules' rs m).2 = Failed e →
   e = LibraryError ∧
   ∃ s, createTable (dropTable (store m))
          (embeddings_of pipeline (loadRules' rs m).1 (List.filter has_semantic rs))
        = (s, None)).
Proof.
  intros Hready.
  split.
  { unfold ready in *. unfold LanceDBSemanticMatcher.initialize.
    destruct (initialized m) eqn:Hinit; simpl; [auto|].
    destruct (negb load_model); simpl; [congruence|].
    destruct (negb connect); simpl; [congruence|]. auto. }
  split.
  { unfold ready in *. unfold LanceDBSemanticMatcher.loadRules.
    destruct (initialized m) eqn:Hinit; cbn [negb fst snd]; [|congruence].
    destruct (Hready eq_refl) as [Hdb Hpl].
    destruct (List.filter has_semantic rs) as [|r0 l]; cbn [fst snd]; [auto|].
    destruct (embeddings_of _ _ _) as [|e es]; cbn [fst snd initialized db pipeline_loaded]; [auto|].
    rewrite Hdb. cbn [negb].
    destruct (createTable _ _) as [s [tb|]]; simpl; auto. }
  split; [intros [=]|].
  split.
  { unfold LanceDBSemanticMatcher.initialize.
    destruct (initialized m) eqn:Hinit; simpl; [by rewrite Hinit|].
    destruct (negb load_model); simpl; [intros [=]|].
    destruct (negb connect); simpl; [intros [=]|]. auto. }
  split; [reflexivity|].
  split; [reflexivity|].
  intros Hinit e. destruct (Hready Hinit) as [Hdb Hpl].
  unfold LanceDBSemanticMatcher.loadRules. rewrite Hinit. simpl negb. cbv iota.
  destruct (List.filter has_semantic rs) as [|r0 l]; [intros [=]|].
  destruct (embeddings_of _ _ _) as [|e0 es] eqn:Hemb; [intros [=]|].
  cbn [db]. rewrite Hdb. cbn [negb store].
  destruct (createTable _ _) as [s [tb|]] eqn:Hcreate; cbn [fst snd]; [intros [=]|].
  intros [= <-]. split; [reflexivity|]. exists s.
  rewrite <- Hcreate, <- Hemb. reflexivity.
Qed.

End MatcherProps.

(** ** The engine on concrete rules *)

Lemma cache_sound_empty {Regex} (RegExp_new : string → string → option Regex) :
  cache_sound RegExp_new ∅.
Proof. intros p f rx _ H. by rewrite lookup_empty in H. Qed.

Lemma new_engine_ok {Regex} (RegExp_new : string → string → option Regex) rs :
  world_ok RegExp_new (new_engine Regex rs).
Proof.
  split; [apply cache_sound_empty|]. intros key e H. discriminate.
Qed.



(** C3 as stated fails: after a first message has set the flag [stage1],
    the purely stateful rule [{flags: {check: ["stage1"]}}] passes the
    pre-filter of the next call, and the call returns no result. *)
Lemma stateful_rule_yields_nothing_counterexample :
  let w1 := (evaluate0 0 (sample_ctx "t" "c" None "please verify")
               (new_engine0 [setter_rule; flags_only_rule])).1 in
  let ctx2 := sample_ctx "t" "c" None "hello" in
  let hy := hydrate None 1000 ctx2 w1 in
  rules w1 = [flags_only_rule; setter_rule] ∧
  state_flags (heap hy.1) hy.2 !! "stage1" = Some true ∧
  eligible (heap hy.1) hy.2 flags_only_rule = true ∧
  preFilterRules (rules hy.1) (heap hy.1) hy.2 = [flags_only_rule; setter_rule] ∧
  (evaluate0 1000 ctx2 w1).2 = Normal [].
Proof. vm_compute. repeat split. Qed.

(** The amended C3 in that call. *)
Lemma stageless_rule_yields_no_result_witness :
  let w1 := (evaluate0 0 (sample_ctx "t" "c" None "please verify")
               (new_engine0 [setter_rule; flags_only_rule])).1 in
  let ctx2 := sample_ctx "t" "c" None "hello" in
  content_declared flags_only_rule = false ∧ pcre_declared flags_only_rule = false ∧
  ∀ res, res ∈ results_of (evaluate0 1000 ctx2 w1).2 → rule res ≠ Some flags_only_rule.
Proof.
  intros w1 ctx2. split; [reflexivity|]. split; [reflexivity|].
  refine (stageless_rule_yields_no_result lit_RegExp_new lit_exec None None no_toFixed1
            1000 ctx2 w1 (evaluate0 1000 ctx2 w1).1 _ flags_only_rule _ _ _ _ _).
  - apply (evaluate_sound lit_RegExp_new lit_exec None None no_toFixed1), cache_sound_empty.
  - vm_compute. reflexivity.
  - reflexivity.
  - reflexivity.
  - reflexivity.
Defined.

(** C4 as stated fails: with the rule [{pcre: ["("]}] loaded, [evaluate]
    throws the SyntaxError of the regex constructor, at the first call and
    again at the second; no result reports the failure. *)
Lemma invalid_regex_escapes_counterexample :
  let ctx := sample_ctx "t" "c" None "hello" in
  let w := new_engine0 [bad_regex_rule] in
  rules w = [bad_regex_rule] ∧
  lit_RegExp_new "(" "gi" = None ∧
  (evaluate0 0 ctx w).2 = Threw (SyntaxError "(") ∧
  (evaluate0 1 ctx (evaluate0 0 ctx w).1).2 = Threw (SyntaxError "(").
Proof. vm_compute. repeat split. Qed.

(** The amended C4 at that rule. *)
Lemma invalid_pattern_throws_witness :
  let ctx := sample_ctx "t" "c" None "hello" in
  let w := new_engine0 [bad_regex_rule] in
  lit_RegExp_new "(" (regex_flags bad_regex_rule) = None ∧
  ∃ w', evaluate0 0 ctx w = (w', Threw (SyntaxError "(")) ∧
        cache_sound lit_RegExp_new (regexCache w').
Proof.
  intros ctx w. split; [reflexivity|].
  refine (invalid_pattern_throws lit_RegExp_new lit_exec None None no_toFixed1 0 ctx w
            [] bad_regex_rule [] _ [] "(" [] _ _ _ _ _ _ _).
  - apply cache_sound_empty.
  - vm_compute. reflexivity.
  - reflexivity.
  - reflexivity.
  - reflexivity.
  - reflexivity.
  - reflexivity.
Defined.


Lemma colon_free_conv1 : colon_free "conv1".
Proof. apply (bool_decide_unpack _). vm_compute. exact I. Qed.

Lemma colon_free_conv2 : colon_free "conv2".
Proof. apply (bool_decide_unpack _). vm_compute. exact I. Qed.

Lemma colon_free_user1 : colon_free "user1".
Proof. apply (bool_decide_unpack _). vm_compute. exact I. Qed.


(** C7 on two rules matching the same message: the critical block rule
    fires, and the rule after it is not evaluated. *)
Lemma early_exit_on_critical_block_witness :
  let crit := content_rule "crit" ["x"] block critical in
  let late := content_rule "late" ["x"] allow low in
  let ctx := sample_ctx "t" "c" None "x" in
  let w := new_engine0 [late; crit] in
  rules w = [crit; late] ∧
  verdicts (evaluate0 0 ctx w).2 = Some [("crit", true)] ∧
  (evaluate_loop lit_RegExp_new lit_exec None None no_toFixed1 0 ctx w).2 = Break.
Proof.
  intros crit late ctx w. split; [reflexivity|]. split; [vm_compute; reflexivity|].
  refine (proj1 (proj2 (early_exit_on_critical_block lit_RegExp_new lit_exec None None
            no_toFixed1 0 ctx w
            [] (fired_result crit 0 {| l_matched := true; l_matchedPattern := Some "x";
                                       l_similarity := None |}) [] crit _ _ _ _ _))).
  - vm_compute. reflexivity.
  - reflexivity.
  - reflexivity.
  - reflexivity.
  - reflexivity.
Defined.



(** C9 on two rules with flags firing on one message: the state object in
    the first result is the same after the second rule has fired. *)
Lemma copy_on_write_witness :
  let ctx := sample_ctx "t" "c" None "please verify" in
  let w := new_engine0 [setter_rule; resetter_rule] in
  let hy := hydrate None 0 ctx w in
  let ls1 := (eval_rules lit_RegExp_new lit_exec None no_toFixed1 0 ctx [resetter_rule]
                (Build_LoopState hy.1 hy.2 [])).1 in
  let ls2 := (evaluate_loop lit_RegExp_new lit_exec None None no_toFixed1 0 ctx w).1 in
  preFilterRules (rules hy.1) (heap hy.1) hy.2 = [resetter_rule] ++ [setter_rule] ∧
  verdicts (evaluate0 0 ctx w).2 = Some [("resetter", true); ("setter", true)] ∧
  is_Some (snapshot (heap (ls_world ls1)) 1) ∧
  snapshot (heap (ls_world ls2)) 1 = snapshot (heap (ls_world ls1)) 1.
Proof.
  intros ctx w hy ls1 ls2. split; [reflexivity|]. split; [vm_compute; reflexivity|].
  refine (proj2 (proj1 (copy_on_write lit_RegExp_new lit_exec None None no_toFixed1 0 ctx w
            [resetter_rule] [setter_rule] ls1 _ _ _ _)
            (fired_result resetter_rule 1 {| l_matched := true;
               l_matchedPattern := Some "verify"; l_similarity := None |}) 1%nat _ _)).
  - exact (proj2 (new_engine_ok lit_RegExp_new _)).
  - intros st H. discriminate.
  - reflexivity.
  - vm_compute. reflexivity.
  - vm_compute. apply list_elem_of_here.
  - reflexivity.
Defined.

(** C10 with [ctx.state] supplied: the caller passes the state object of an
    earlier call; the setter rule fires, its new state is in the cache under
    the tuple's key, dirty, and the next call without [ctx.state] starts
    from it and sees the flag. *)
Lemma flags_written_through_witness :
  let e := new_engine0 [setter_rule] in
  let w := (evaluate0 0 (sample_ctx "t" "c" None "hello") e).1 in
  let ctx1 := {| c_tokenId := "t"; c_conversationId := "c"; c_accountId := None;
                 c_message := "please verify"; c_state := Some 0%nat |} in
  let ctx2 := sample_ctx "t" "c" None "hello again" in
  let w' := (evaluate0 5000 ctx1 w).1 in
  c_state ctx1 = Some 0%nat ∧
  state_flags (heap w) 0 !! "stage1" = None ∧
  verdicts (evaluate0 5000 ctx1 w).2 = Some [("setter", true)] ∧
  ∃ st, amap_get (getKey "t" "c" None) (StateCache.cache (stateCache w')) =
          Some {| StateCache.state := st; StateCache.lastAccess := 5000;
                  StateCache.dirty := true |} ∧
        (hydrate None 9000 ctx2 w').2 = st ∧
        state_flags (heap w') st !! "stage1" = Some true.
Proof.
  intros e w ctx1 ctx2 w'.
  split; [reflexivity|]. split; [vm_compute; reflexivity|]. split; [vm_compute; reflexivity|].
  destruct (flags_written_through lit_RegExp_new lit_exec None None no_toFixed1 5000 ctx1 w
              (fired_result setter_rule 1 {| l_matched := true;
                 l_matchedPattern := Some "verify"; l_similarity := None |})
              {| f_set := Some ["stage1"]; f_unset := None; f_check := None; f_ttl := None |})
    as (st & _ & Hget & _ & Hflags & Hnext).
  - exists [], [], setter_rule. split; [vm_compute; reflexivity|].
    repeat split. intros res' r' Hin. by apply elem_of_nil in Hin.
  - exists st. split; [exact Hget|]. split.
    + refine (proj1 (Hnext w' 9000 ctx2 _ _ _ _ _));
        [reflexivity | apply heap_extends_refl | reflexivity | reflexivity
        | vm_compute; reflexivity].
    + apply (proj2 Hflags "stage1"); [apply list_elem_of_here|].
      intros Hin. by apply elem_of_nil in Hin.
Defined.

(** * The further properties at concrete inputs *)

(** Two content rules loaded in the order block, flag: the results of a
    matching message come in the order of the keys, flag first. *)
Lemma results_in_priority_order_witness :
  let rs := [content_rule "b" ["x"] block low; content_rule "f" ["x"] flag low] in
  let w := new_engine0 rs in
  let ctx := sample_ctx "t" "c" None "x" in
  rules w = loadRules rs ∧
  verdicts (evaluate0 0 ctx w).2 = Some [("f", true); ("b", true)] ∧
  ∃ rs', map rule (ls_results
                     (evaluate_loop lit_RegExp_new lit_exec None None no_toFixed1 0 ctx w).1)
           = map Some rs' ∧
         nondecreasing getRulePriority rs'.
Proof.
  intros rs w ctx. split; [reflexivity|]. split; [vm_compute; reflexivity|].
  apply (results_in_priority_order lit_RegExp_new lit_exec None None no_toFixed1 0 ctx w rs).
  reflexivity.
Defined.

(** After a first message has set [stage1], the checker rule has a result
    for a second message, and [stage1] is true in the state that call starts
    from. *)
Lemma flag_gate_witness :
  let w := (evaluate0 0 (sample_ctx "t" "c" None "please verify")
              (new_engine0 [setter_rule; checker_rule])).1 in
  let ctx := sample_ctx "t" "c" None "my password" in
  let results :=
    ls_results (evaluate_loop lit_RegExp_new lit_exec None None no_toFixed1 1000 ctx w).1 in
  let res := default (gated_result checker_rule) (head results) in
  res ∈ results ∧ rule res = Some checker_rule ∧
  state_flags (heap (hydrate None 1000 ctx w).1) (hydrate None 1000 ctx w).2 !! "stage1"
    = Some true.
Proof.
  intros w ctx results res.
  assert (Hin : res ∈ results) by (vm_compute; apply list_elem_of_here).
  assert (Hrule : rule res = Some checker_rule) by (vm_compute; reflexivity).
  split; [exact Hin|]. split; [exact Hrule|].
  refine (flag_gate lit_RegExp_new lit_exec None None no_toFixed1 1000 ctx w res checker_rule
            {| f_set := None; f_unset := None; f_check := Some ["stage1"]; f_ttl := None |}
            ["stage1"] "stage1" Hin Hrule _ _ _).
  - reflexivity.
  - reflexivity.
  - apply list_elem_of_here.
Defined.



(** An engine with the two-pattern rule, once with an empty regex cache and
    once with the cache a first call has filled: the same results. *)
Lemma regex_cache_transparent_witness :
  let w1 := new_engine0 [two_pattern_rule] in
  let ctx := sample_ctx "t" "c" None "hello" in
  let w2 := with_regexCache (regexCache (evaluate0 0 ctx w1).1) w1 in
  size (regexCache w1) = 0%nat ∧ size (regexCache w2) = 2%nat ∧
  same_but_regexCache w1 w2 ∧
  (evaluate0 0 ctx w1).2 = (evaluate0 0 ctx w2).2.
Proof.
  intros w1 ctx w2. split; [reflexivity|]. split; [vm_compute; reflexivity|].
  assert (Hsame : same_but_regexCache w1 w2) by (unfold same_but_regexCache; auto).
  split; [exact Hsame|].
  refine (proj1 (regex_cache_transparent lit_RegExp_new lit_exec None None no_toFixed1 0 ctx
                   w1 w2 _ _ Hsame)).
  - apply cache_sound_empty.
  - apply (evaluate_sound lit_RegExp_new lit_exec None None no_toFixed1), cache_sound_empty.
Defined.

(** Threshold 3, window 10 s, checks at 0, 1 and 2 s: false, false, true,
    and no counter is left. *)
Lemma threshold_drain_witness :
  let r := rate_rule 3 10 in
  let c := check_at_times r "t" "c" None [0; 1000; 2000] ∅ in
  r_threshold r = Some 3 ∧ r_window r = Some 10 ∧
  c.1 = [false; false; true] ∧
  tracker_entry c.2 (getKey "t" "c" None) (r_id r) = None.
Proof.
  intros r c. split; [reflexivity|]. split; [reflexivity|].
  refine (threshold_drain r "t" "c" None 3 10 0 [1000; 2000] ∅ _ _ _ _ _ _ _).
  - reflexivity.
  - lia.
  - reflexivity.
  - lia.
  - reflexivity.
  - reflexivity.
  - repeat constructor; lia.
Defined.

(** The first check of that rule leaves a counter in range. *)
Lemma check_keeps_counter_in_range_witness :
  let r := rate_rule 3 10 in
  entry_in_range 3 10 (tracker_entry ∅ (getKey "t" "c" None) (r_id r)) ∧
  entry_in_range 3 10
    (tracker_entry (ThresholdTracker.check 0 r "t" "c" None ∅).1
       (getKey "t" "c" None) (r_id r)).
Proof.
  intros r. split; [exact I|].
  refine (check_keeps_counter_in_range 0 r "t" "c" None 3 10 ∅ _ _ _ _ _).
  - reflexivity.
  - lia.
  - reflexivity.
  - lia.
  - exact I.
Defined.

(** A check of the rate rule for one conversation leaves the counter the
    rule has for another conversation as it was. *)
Lemma check_leaves_other_counters_witness :
  let r := rate_rule 3 10 in
  let trackers := (ThresholdTracker.check 0 r "t" "other" None ∅).1 in
  let key := getKey "t" "other" None in
  (key, r_id r) ≠ (getKey "t" "c" None, r_id r) ∧
  is_Some (tracker_entry trackers key (r_id r)) ∧
  tracker_entry (ThresholdTracker.check 5 r "t" "c" None trackers).1 key (r_id r) =
    tracker_entry trackers key (r_id r).
Proof.
  intros r trackers key.
  assert (Hne : (key, r_id r) ≠ (getKey "t" "c" None, r_id r)) by (vm_compute; discriminate).
  split; [exact Hne|]. split; [vm_compute; eauto|].
  exact (proj1 (check_leaves_other_counters 5 r "t" "c" None trackers key (r_id r) Hne)).
Defined.

(** The first call on a new engine, without a provider: a fresh state is
    cached, and of the setter and the checker rule only the setter rule is
    eligible. *)
Lemma fresh_state_on_miss_witness :
  let w := new_engine0 [setter_rule; checker_rule] in
  let ctx := sample_ctx "t" "c" None "please verify my password" in
  let hy := hydrate None 0 ctx w in
  finds_no_state None 0 ctx w ∧
  hy.2 = 0%nat ∧ state_flags (heap hy.1) hy.2 = ∅ ∧
  preFilterRules (rules hy.1) (heap hy.1) hy.2 = [setter_rule].
Proof.
  intros w ctx hy.
  assert (Hmiss : finds_no_state None 0 ctx w) by (repeat split).
  split; [exact Hmiss|].
  pose proof (fresh_state_on_miss None 0 ctx w Hmiss) as (H1 & _ & H3 & _ & _ & _ & H7).
  split; [exact H1|]. split; [exact (state_flags_snapshot _ _ _ _ _ H3)|]. exact H7.
Defined.

(** On that call the one result belongs to the setter rule, which checks no
    flag. *)
Lemma fresh_conversation_passes_no_flag_check_witness :
  let w := new_engine0 [setter_rule; checker_rule] in
  let ctx := sample_ctx "t" "c" None "please verify my password" in
  let results :=
    ls_results (evaluate_loop lit_RegExp_new lit_exec None None no_toFixed1 0 ctx w).1 in
  let res := default (gated_result checker_rule) (head results) in
  finds_no_state None 0 ctx w ∧ res ∈ results ∧ rule res = Some setter_rule ∧
  verdicts (evaluate0 0 ctx w).2 = Some [("setter", true)] ∧
  checks_no_flag setter_rule = true.
Proof.
  intros w ctx results res.
  assert (Hmiss : finds_no_state None 0 ctx w) by (repeat split).
  assert (Hin : res ∈ results) by (vm_compute; apply list_elem_of_here).
  assert (Hrule : rule res = Some setter_rule) by (vm_compute; reflexivity).
  split; [exact Hmiss|]. split; [exact Hin|]. split; [exact Hrule|].
  split; [vm_compute; reflexivity|].
  exact (fresh_conversation_passes_no_flag_check lit_RegExp_new lit_exec None None no_toFixed1
           0 ctx w res setter_rule Hmiss Hin Hrule).
Defined.




(** The two-pattern rule on [hello]: the report is the match of the first
    pattern. *)
Lemma matchedPattern_report_witness :
  let r := two_pattern_rule in
  let out := run_stages lit_RegExp_new lit_exec None no_toFixed1 r "hello" ∅ in
  let v := match out.2 with
           | Normal (Some v) => v
           | _ => {| l_matched := false; l_matchedPattern := None; l_similarity := None |}
           end in
  cache_sound lit_RegExp_new ∅ ∧ out = (out.1, Normal (Some v)) ∧
  semantic_hit None r "hello" = None ∧
  l_matchedPattern v = Some "ell" ∧ l_similarity v = None.
Proof.
  intros r out v. split; [apply cache_sound_empty|].
  assert (Hout : out = (out.1, Normal (Some v))) by (vm_compute; reflexivity).
  split; [exact Hout|]. split; [reflexivity|].
  exact (matchedPattern_report lit_RegExp_new lit_exec None no_toFixed1 r "hello" ∅ out.1 v
           (cache_sound_empty _) Hout).
Defined.

(** The toy matcher holds the hybrid rule only, and its matches carry it. *)
Lemma matcher_rules_have_semantic_witness :
  let m := toy_matcher in
  LanceDBSemanticMatcher.rules m = [hybrid_rule] ∧
  Forall (λ r, LanceDBSemanticMatcher.has_semantic r = true) (LanceDBSemanticMatcher.rules m) ∧
  Forall (λ sm, LanceDBSemanticMatcher.has_semantic (sm_rule sm) = true)
    (LanceDBSemanticMatcher.queryRules toy_pipeline toy_search m "verify now" (85 # 100)).
Proof.
  intros m. split; [reflexivity|].
  assert (Hm : Forall (λ r, LanceDBSemanticMatcher.has_semantic r = true)
                 (LanceDBSemanticMatcher.rules m)) by (repeat constructor).
  split; [exact Hm|].
  exact (proj2 (proj2 (proj2
           (matcher_rules_have_semantic true toy_pipeline true toy_openTable toy_dropTable
              toy_createTable toy_search m [] "verify now" (85 # 100) Hm)))).
Defined.

(** The toy matcher is ready; after [shutdown], [loadRules] throws. *)
Lemma matcher_life_cycle_witness :
  let m := toy_matcher in
  LanceDBSemanticMatcher.ready m ∧
  LanceDBSemanticMatcher.initialized m = true ∧
  LanceDBSemanticMatcher.loadRules toy_pipeline toy_dropTable toy_createTable [hybrid_rule]
    (LanceDBSemanticMatcher.shutdown m) =
    (LanceDBSemanticMatcher.shutdown m,
     LanceDBSemanticMatcher.Failed LanceDBSemanticMatcher.NotInitialized).
Proof.
  intros m.
  assert (Hready : LanceDBSemanticMatcher.ready m) by (intros _; split; reflexivity).
  split; [exact Hready|]. split; [reflexivity|].
  exact (proj1 (proj2 (proj2 (proj2 (proj2
           (matcher_life_cycle true toy_pipeline true toy_openTable toy_dropTable
              toy_createTable toy_search m [hybrid_rule] Hready)))))).
Defined.
